(** * kopf reactor: task supervision and lifecycle orchestration

    A shallow embedding of [kopf/_core/reactor/running.py].

    The coroutines of the module are embedded as programs of a small
    state-and-exception monad [Coro] over a [World]: the world is the event
    loop as one coroutine sees it (the clock, the other tasks with the times
    at which they finish, the times at which the coroutine itself is
    cancelled, the timers armed with [call_later], the log).  Every [await]
    is a suspension point at which the pending cancellation of the running
    coroutine, if any, is delivered as [CancelledError]. *)

From Stdlib Require Import Ascii.
From stdpp Require Import gmap strings list fin_maps.

Open Scope string_scope.
Open Scope list_scope.
Open Scope nat_scope.
Open Scope stdpp_scope.

(** ** Exceptions and task outcomes *)

(** The exceptions other than the cancellation. *)
Inductive error : Type :=
| TypeError (msg : string)
| ValueError (msg : string)
| InvalidStateError
| Exception (msg : string).

(** [asyncio.CancelledError] is kept apart from the regular errors, as the
    code does in every [except asyncio.CancelledError] clause. *)
Inductive exn : Type :=
| CancelledError
| Error (e : error).

(** How a finished task ended: [task.result()] returns, raises the task's
    exception, or raises [CancelledError]. *)
Inductive outcome : Type :=
| Returned
| Failed (e : error)
| Cancelled.

#[global] Instance error_eq_dec : EqDecision error.
Proof. solve_decision. Defined.
#[global] Instance exn_eq_dec : EqDecision exn.
Proof. solve_decision. Defined.
#[global] Instance outcome_eq_dec : EqDecision outcome.
Proof. solve_decision. Defined.

(** ** Tasks *)

(** A task is known by its identity (the code compares tasks with [is] and
    keeps them in sets). *)
Abbreviation Task := nat (only parsing).

(** What a task does, as the loop sees it.  [b_natural] is the time at which
    the task finishes when left alone, with its outcome ([None]: it runs
    forever).  [b_on_cancel] is how it unwinds from a cancellation: after how
    long, and with which outcome ([None]: it swallows the cancellation and
    carries on). *)
Record Behaviour : Type := mkBehaviour {
  b_natural : option (nat * outcome);
  b_on_cancel : option (nat * outcome);
}.

(** A task of the loop: its name, when it was created, whether it was
    created behind the started-flag ([create_guarded_task]) and as
    finishable, and what it does. *)
Record Script : Type := mkScript {
  s_name : string;
  s_born : nat;
  s_guarded : bool;
  s_finishable : bool;
  s_behaviour : Behaviour;
}.

Definition s_natural (s : Script) : option (nat * outcome) :=
  b_natural (s_behaviour s).
Definition s_on_cancel (s : Script) : option (nat * outcome) :=
  b_on_cancel (s_behaviour s).

(** ** Events of the log *)

Inductive return_when : Type := FIRST_COMPLETED | ALL_COMPLETED.

Inductive Activity : Type := STARTUP | CLEANUP.

Inductive Signals : Type := SIGINT | SIGTERM | SIGKILL.

#[global] Instance return_when_eq_dec : EqDecision return_when.
Proof. solve_decision. Defined.
#[global] Instance Activity_eq_dec : EqDecision Activity.
Proof. solve_decision. Defined.
#[global] Instance Signals_eq_dec : EqDecision Signals.
Proof. solve_decision. Defined.

Inductive event : Type :=
| EvWait (ts : list Task) (timeout : option nat) (rw : return_when)
| EvStop (title : string) (ts : list Task) (cancelled : bool) (interval : option nat)
| EvCancel (title : string) (t : Task)
| EvStopped (title : string)
| EvAllTasks (found : list Task)
| EvActivityBegin (a : Activity)
| EvActivityEnd (a : Activity)
| EvStartedSet
| EvReadyRaised
| EvVaultClosed
| EvBody (name : string)
| EvCreateTask (name : string) (t : Task)
| EvCallLater (delay : nat) (thread : nat) (sig : Signals)
| EvWarnings (category msg : string)      (* warnings.warn *)
| EvWarn (msg : string)                   (* logger.warning *)
| EvInfo (msg : string)
| EvDebug (msg : string).

#[global] Instance event_eq_dec : EqDecision event.
Proof. solve_decision. Defined.

(** A timer armed with [loop.call_later(delay, signal.pthread_kill, thread, sig)]. *)
Record Timer : Type := mkTimer {
  tm_armed : nat;
  tm_delay : nat;
  tm_thread : nat;
  tm_signal : Signals;
}.

(** ** Settings and flags *)

(** The fields of [configuration.OperatorSettings] that the module reads or
    writes. *)
Record ProcessSettings : Type := mkProcess {
  ultimate_exiting_timeout : option nat;
}.

Record PeeringSettings : Type := mkPeering {
  p_clusterwide : bool;
  p_mandatory : bool;
  p_name : string;
  p_standalone : bool;
  p_priority : nat;
}.

Record OperatorSettings : Type := mkSettings {
  process : ProcessSettings;
  peering : PeeringSettings;
}.

(** What awaiting a flag gives: [None], a signal, a boolean or a string (of
    code points below 256). *)
Inductive flag_result : Type :=
| RNone
| RSignal (sig : Signals)
| RBool (b : bool)
| RStr (s : string).

(** An externally owned flag ([aioadapters.Flag]), by the time at which its
    owner sets it ([None]: never) and what it is: a future, resolved with
    the result [Some v], or an event ([None]), which has no result of its
    own. *)
Record Flag : Type := mkFlag {
  f_set_at : option nat;
  f_value : option flag_result;    (* the result of a future-like flag *)
}.

(** What the waiter of the flag returns when the flag is set: the result of
    a future, and [True], what [wait()] returns, for an event. *)
Definition awaited (f : Flag) : flag_result :=
  match f_value f with
  | Some v => v
  | None => RBool true
  end.

(** ** The world *)

(** What the surroundings of the operator do, whatever the module does. *)
Record Env : Type := mkEnv {
  thread : nat;                               (* threading.get_ident() *)
  self : nat;                                 (* asyncio.current_task() *)
  in_main_thread : bool;
  unix_signals : bool;                        (* add_signal_handler is implemented *)
  default_settings : OperatorSettings;        (* configuration.OperatorSettings() *)
  workload : string → Behaviour;              (* the collaborators' coroutines, by task name *)
  activities : Activity → nat * option error; (* how long an activity takes, how it ends *)
  vault_close : nat;                          (* how long vault.close() takes *)
  signals : list (nat * Signals);             (* the OS signals that arrive, in order *)
  version : option string;                    (* versions.version *)
}.

Record World : Type := mkWorld {
  env : Env;
  now : nat;                      (* the loop's clock *)
  scripts : gmap nat Script;      (* the other tasks of the loop *)
  cancelled : gmap nat nat;       (* when a task.cancel() reached a running task *)
  cancels : list nat;             (* when the running coroutine is cancelled *)
  started : option nat;           (* when the started-flag is (or was) set *)
  timers : list Timer;            (* armed by call_later *)
  handlers : list Signals;        (* signals with a handler resolving the signal-flag *)
  live_system : list nat;         (* the shared list [system_tasks] *)
  live_root : list nat;           (* the shared list [root_tasks] *)
  settings_var : option OperatorSettings;  (* posting.settings_var *)
  log : list (nat * event);       (* oldest first, with the time of each *)
}.

Definition set_now (x : nat) (W : World) : World :=
  mkWorld (env W) x (scripts W) (cancelled W) (cancels W) (started W)
    (timers W) (handlers W) (live_system W) (live_root W) (settings_var W) (log W).
Definition set_scripts (x : gmap nat Script) (W : World) : World :=
  mkWorld (env W) (now W) x (cancelled W) (cancels W) (started W)
    (timers W) (handlers W) (live_system W) (live_root W) (settings_var W) (log W).
Definition set_cancelled (x : gmap nat nat) (W : World) : World :=
  mkWorld (env W) (now W) (scripts W) x (cancels W) (started W)
    (timers W) (handlers W) (live_system W) (live_root W) (settings_var W) (log W).
Definition set_cancels (x : list nat) (W : World) : World :=
  mkWorld (env W) (now W) (scripts W) (cancelled W) x (started W)
    (timers W) (handlers W) (live_system W) (live_root W) (settings_var W) (log W).
Definition set_started (x : option nat) (W : World) : World :=
  mkWorld (env W) (now W) (scripts W) (cancelled W) (cancels W) x
    (timers W) (handlers W) (live_system W) (live_root W) (settings_var W) (log W).
Definition set_timers (x : list Timer) (W : World) : World :=
  mkWorld (env W) (now W) (scripts W) (cancelled W) (cancels W) (started W)
    x (handlers W) (live_system W) (live_root W) (settings_var W) (log W).
Definition set_handlers (x : list Signals) (W : World) : World :=
  mkWorld (env W) (now W) (scripts W) (cancelled W) (cancels W) (started W)
    (timers W) x (live_system W) (live_root W) (settings_var W) (log W).
Definition set_live_system (x : list nat) (W : World) : World :=
  mkWorld (env W) (now W) (scripts W) (cancelled W) (cancels W) (started W)
    (timers W) (handlers W) x (live_root W) (settings_var W) (log W).
Definition set_live_root (x : list nat) (W : World) : World :=
  mkWorld (env W) (now W) (scripts W) (cancelled W) (cancels W) (started W)
    (timers W) (handlers W) (live_system W) x (settings_var W) (log W).
Definition set_settings_var (x : option OperatorSettings) (W : World) : World :=
  mkWorld (env W) (now W) (scripts W) (cancelled W) (cancels W) (started W)
    (timers W) (handlers W) (live_system W) (live_root W) x (log W).
Definition set_log (x : list (nat * event)) (W : World) : World :=
  mkWorld (env W) (now W) (scripts W) (cancelled W) (cancels W) (started W)
    (timers W) (handlers W) (live_system W) (live_root W) (settings_var W) x.

(** When, and how, a task finishes: a cancellation that reached it makes it
    unwind as its script says; otherwise it finishes as when left alone. *)
Definition task_finish (s : Script) (c : option nat) : option (nat * outcome) :=
  match c, s_on_cancel s with
  | Some c, Some (d, o) => Some (c + d, o)
  | _, _ => s_natural s
  end.

Definition finish (W : World) (t : Task) : option (nat * outcome) :=
  s ← scripts W !! t; task_finish s (cancelled W !! t).

(** [task.done()] at time [T]. *)
Definition done_at (W : World) (T : nat) (t : Task) : bool :=
  match finish W t with
  | Some (f, _) => bool_decide (f ≤ T)
  | None => false
  end.

Definition is_done (W : World) (t : Task) : bool := done_at W (now W) t.

(** The outcome of a task that is done. *)
Definition result_of (W : World) (t : Task) : option outcome :=
  match finish W t with
  | Some (f, o) => if bool_decide (f ≤ now W) then Some o else None
  | None => None
  end.

(** ** The coroutine monad *)

Inductive Res (A : Type) : Type :=
| Ok (a : A)          (* the coroutine went on with [a] *)
| Raise (e : exn)     (* it raised *)
| Hang.               (* it is suspended for ever *)
Arguments Ok {A} a.
Arguments Raise {A} e.
Arguments Hang {A}.

Definition Coro (A : Type) : Type := World → Res A * World.

#[global] Instance Coro_ret : MRet Coro := λ A a W, (Ok a, W).
#[global] Instance Coro_bind : MBind Coro := λ A B f m W,
  match m W with
  | (Ok a, W1) => f a W1
  | (Raise e, W1) => (Raise e, W1)
  | (Hang, W1) => (Hang, W1)
  end.

Definition raise {A} (e : exn) : Coro A := λ W, (Raise e, W).

(** [try: body except asyncio.CancelledError: handler else: orelse]: the
    handler sees the cancellation of the body only. *)
Definition try_except_cancelled_else {A B} (body : Coro A) (handler : Coro B)
    (orelse : A → Coro B) : Coro B :=
  λ W, match body W with
       | (Ok a, W1) => orelse a W1
       | (Raise CancelledError, W1) => handler W1
       | (Raise e, W1) => (Raise e, W1)
       | (Hang, W1) => (Hang, W1)
       end.

(** [try: body except asyncio.CancelledError: handler]: the handler sees
    the cancellation only; other exceptions go through. *)
Definition try_except_cancelled {A} (body : Coro A) (handler : Coro A) : Coro A :=
  λ W, match body W with
       | (Raise CancelledError, W1) => handler W1
       | r => r
       end.

Definition hang {A} : Coro A := λ W, (Hang, W).

Definition get_world : Coro World := λ W, (Ok W, W).
Definition modify (f : World → World) : Coro unit := λ W, (Ok tt, f W).
Definition emit (ev : event) : Coro unit :=
  λ W, (Ok tt, set_log (log W ++ [(now W, ev)]) W).

(** A suspension point.  [wake] is the time at which what the coroutine
    awaits is there ([None]: never); the coroutine resumes then, or at once
    if that time is past.  A cancellation of the coroutine that has come by
    the time it resumes is delivered instead, as [CancelledError]: also the
    one that comes at the very instant of the wake-up, and the one that was
    pending when the coroutine suspended. *)
Definition suspend (wake : option nat) : Coro unit := λ W,
  let reached (c : nat) :=
    match wake with Some w => bool_decide (c ≤ now W `max` w) | None => true end in
  match cancels W with
  | c :: cs =>
      if reached c
      then (Raise CancelledError, set_cancels cs (set_now (now W `max` c) W))
      else match wake with
           | Some w => (Ok tt, set_now (now W `max` w) W)
           | None => (Hang, W)
           end
  | [] =>
      match wake with
      | Some w => (Ok tt, set_now (now W `max` w) W)
      | None => (Hang, W)
      end
  end.

(** ** The task helpers of [kopf._cogs.aiokits.aiotasks] *)

Definition finish_time (W : World) (t : Task) : option nat := fst <$> finish W t.

(** The earliest time at which one of [ts] is done ([None]: none ever is). *)
Fixpoint first_done (W : World) (ts : list Task) : option nat :=
  match ts with
  | [] => None
  | t :: ts' =>
      match finish_time W t, first_done W ts' with
      | Some a, Some b => Some (a `min` b)
      | Some a, None => Some a
      | None, r => r
      end
  end.

(** The time at which all of [ts] are done ([None]: one of them never is). *)
Fixpoint all_done (W : World) (ts : list Task) : option nat :=
  match ts with
  | [] => Some 0
  | t :: ts' => a ← finish_time W t; b ← all_done W ts'; Some (a `max` b)
  end.

(** A wait that gives up [timeout] after it began. *)
Definition deadline (W : World) (timeout : option nat) (target : option nat) : option nat :=
  match timeout, target with
  | Some d, Some w => Some (w `min` (now W + d))
  | Some d, None => Some (now W + d)
  | None, w => w
  end.

(** Modelled from the spec: [aiotasks.wait] is not under src/.  It is
    [asyncio.wait] made safe for an empty collection: it suspends until the
    first of the tasks is done ([FIRST_COMPLETED]) or all are
    ([ALL_COMPLETED]), or until the timeout, and returns the tasks that are
    done and those still pending.  It cancels nothing. *)
Definition wait (ts : list Task) (timeout : option nat) (rw : return_when)
  : Coro (gset nat * gset nat) :=
  if decide (ts = []) then mret (∅, ∅) else
  emit (EvWait ts timeout rw);;
  W ← get_world;
  suspend (deadline W timeout
             match rw with
             | FIRST_COMPLETED => first_done W ts
             | ALL_COMPLETED => all_done W ts
             end);;
  W' ← get_world;
  mret (list_to_set (filter (λ t, is_done W' t) ts),
        list_to_set (filter (λ t, ¬ is_done W' t) ts)).

(** [task.cancel()], as issued by the cancellation pass [title]: the request
    reaches a task that is still running and has no cancellation under way;
    the call is logged in any case. *)
Definition cancel_task (title : string) (t : Task) : Coro unit := λ W,
  let W1 := set_log (log W ++ [(now W, EvCancel title t)]) W in
  if is_done W t || bool_decide (is_Some (cancelled W !! t))
  then (Ok tt, W1)
  else (Ok tt, set_cancelled (<[t := now W]> (cancelled W)) W1).

Fixpoint cancel_all (title : string) (ts : list Task) : Coro unit :=
  match ts with
  | [] => mret tt
  | t :: ts' => cancel_task title t;; cancel_all title ts'
  end.

(** Modelled from the spec: [aiotasks.stop] is not under src/.  A
    cancellation pass: it cancels every task of the set and awaits the full
    completion of the set, logging its progress every [interval]; it returns
    the stopped tasks and the (empty) rest.  With no task in the set there
    is nothing to await, and the pass does not suspend.  [cancelled] tells
    the pass that its caller is being cancelled itself. *)
Definition await_all (ts : list Task) : Coro unit :=
  if decide (ts = []) then mret tt
  else W ← get_world; suspend (all_done W ts).

Definition stop (ts : list Task) (title : string) (cancelled : bool)
    (interval : option nat) : Coro (gset nat * gset nat) :=
  emit (EvStop title ts cancelled interval);;
  cancel_all title ts;;
  await_all ts;;
  emit (EvStopped title);;
  mret (list_to_set ts, ∅).

(** The task has been created by now. *)
Definition is_born (W : World) (t : Task) : bool :=
  match scripts W !! t with
  | Some s => bool_decide (s_born s ≤ now W)
  | None => false
  end.

(** Modelled from the spec: [aiotasks.all_tasks] is not under src/.  The
    snapshot diff: every task of the loop that is running now and is not in
    the snapshot [ignored] taken before the operator started (the running
    coroutine is not in [scripts]). *)
Definition all_tasks (ignored : gset nat) : Coro (gset nat) := λ W,
  let found : gset nat :=
    filter (λ t, (t ∉ ignored) ∧ ¬ is_done W t ∧ is_born W t) (dom (scripts W)) in
  (Ok found, set_log (log W ++ [(now W, EvAllTasks (elements found))]) W).

Fixpoint reraise_list (W : World) (ts : list Task) : Res unit :=
  match ts with
  | [] => Ok tt
  | t :: ts' =>
      match result_of W t with
      | None => Raise (Error InvalidStateError)
      | Some (Failed e) => Raise (Error e)
      | Some Returned | Some Cancelled => reraise_list W ts'
      end
  end.

(** Modelled from the spec: [aiotasks.reraise] is not under src/.  It
    surfaces the error of the first collected task found to have ended in
    error, and does nothing when there is none; a cancelled task is not an
    error. *)
Definition reraise (ts : gset nat) : Coro unit := λ W,
  (reraise_list W (elements ts), W).

(** ** [run_tasks] *)

Definition run_tasks (system_tasks root_tasks : list Task) (ignored : gset nat)
  : Coro unit :=
  '(tasks_done, tasks_pending) ←
    try_except_cancelled
      (let tasks := system_tasks ++ root_tasks in
       wait tasks None FIRST_COMPLETED)
      (stop root_tasks "Root" true (Some 10);;
       stop system_tasks "System" true (Some 10);;
       hung_tasks ← all_tasks ignored;
       stop (elements hung_tasks) "Hung" true (Some 1);;
       raise CancelledError);
  let root_pending := filter (λ t, t ∉ system_tasks) (elements tasks_pending) in
  '(root_cancelled, _) ← stop root_pending "Root" false None;
  let system_pending := filter (λ t, t ∉ root_tasks) (elements tasks_pending) in
  '(system_cancelled, _) ← stop system_pending "System" false None;
  let tasks_cancelled := root_cancelled ∪ system_cancelled in
  hung_tasks ← all_tasks ignored;
  '(hung_done, hung_pending) ←
    try_except_cancelled
      (wait (elements hung_tasks) (Some 5) ALL_COMPLETED)
      (stop (elements hung_tasks) "Hung" true (Some 1);;
       raise CancelledError);
  '(hung_cancelled, _) ← stop (elements hung_pending) "Hung" false (Some 1);
  reraise (tasks_done ∪ tasks_cancelled ∪ hung_done ∪ hung_cancelled).


(** ** The flag helpers of [kopf._cogs.aiokits.aioadapters] *)

Definition flag_is_set (f : Flag) (T : nat) : bool :=
  match f_set_at f with
  | Some s => bool_decide (s ≤ T)
  | None => false
  end.

(** Modelled from the spec: [aioadapters.check_flag] is not under src/.  The
    non-blocking check of a flag that may be absent: whether it is set by
    now, and nothing for an absent flag. *)
Definition check_flag (flag : option Flag) : Coro (option bool) := λ W,
  (Ok ((λ f, flag_is_set f (now W)) <$> flag), W).

(** Python's [not] on what [check_flag] returns. *)
Definition py_not (o : option bool) : bool :=
  match o with
  | Some true => false
  | Some false | None => true
  end.

(** Modelled from the spec: [aioadapters.raise_flag] is not under src/.  It
    raises the external notification, when there is one to raise. *)
Definition raise_flag (flag : option Flag) : Coro unit :=
  match flag with
  | Some _ => emit EvReadyRaised
  | None => mret tt
  end.

(** Modelled from the spec: [aioadapters.wait_flag] is not under src/.  As a
    task, it returns when the flag is set and unwinds at once when cancelled. *)
Definition wait_flag (flag : Flag) : Behaviour :=
  mkBehaviour ((λ s, (s, Returned)) <$> f_set_at flag) (Some (0, Cancelled)).

(** ** The loop *)

Definition get_ident : Coro nat := λ W, (Ok (thread (env W)), W).
Definition current_task : Coro nat := λ W, (Ok (self (env W)), W).

(** [loop.call_later(delay, signal.pthread_kill, thread, sig)]. *)
Definition call_later (delay : nat) (thread : nat) (sig : Signals) : Coro unit := λ W,
  (Ok tt,
   set_timers (timers W ++ [mkTimer (now W) delay thread sig])
     (set_log (log W ++ [(now W, EvCallLater delay thread sig)]) W)).

(** The process is killed at [T] when a timer that delivers [SIGKILL] has
    run out by then. *)
Definition killed_at (W : World) (T : nat) : bool :=
  existsb (λ tm, bool_decide (tm_signal tm = SIGKILL) &&
                 bool_decide (tm_armed tm + tm_delay tm ≤ T)) (timers W).

(** [asyncio.create_task] and [aiotasks.create_guarded_task]: a new task of
    the loop, under a fresh identity. *)
Definition create_task (name : string) (guarded finishable : bool)
    (b : Behaviour) : Coro nat := λ W,
  let t := fresh (dom (scripts W)) in
  (Ok t,
   set_scripts (<[t := mkScript name (now W) guarded finishable b]> (scripts W))
     (set_log (log W ++ [(now W, EvCreateTask name t)]) W)).

(** ** [_ultimate_termination] *)

Definition _ultimate_termination (settings : OperatorSettings)
    (stop_flag : option Flag) : Coro unit :=
  try_except_cancelled
    (suspend None)
    (flag ← check_flag stop_flag;
     if py_not flag then
       match ultimate_exiting_timeout (process settings) with
       | Some timeout =>
           ident ← get_ident;
           call_later timeout ident SIGKILL
       | None => mret tt
       end
     else mret tt).

(** Python's truth value of an optional string and of a collection. *)
Definition truthy (o : option string) : bool :=
  match o with
  | Some s => negb (String.eqb s "")
  | None => false
  end.
Definition nonempty {A} (l : list A) : bool :=
  match l with [] => false | _ :: _ => true end.

(** ** [_startup_cleanup_activities] *)

(** Modelled from the spec: [activities.run_activity] is not under src/.  The
    collaborator runs the handlers of the activity, which takes its time and
    fails with the handlers' error, if any. *)
Definition run_activity (activity : Activity) : Coro unit :=
  emit (EvActivityBegin activity);;
  W ← get_world;
  suspend (Some (now W + (activities (env W) activity).1));;
  match (activities (env W) activity).2 with
  | Some e => raise (Error e)
  | None => emit (EvActivityEnd activity)
  end.

(** Modelled from the spec: [credentials.Vault.close] is not under src/.  The
    one explicit teardown call of the credentials store. *)
Definition vault_close_ : Coro unit :=
  W ← get_world;
  suspend (Some (now W + vault_close (env W)));;
  emit EvVaultClosed.

(** [started_flag.set()] on the [asyncio.Event]. *)
Definition started_flag_set : Coro unit := λ W,
  let at_ := match started W with
             | Some s => s `min` now W
             | None => now W
             end in
  (Ok tt, set_started (Some at_) (set_log (log W ++ [(now W, EvStartedSet)]) W)).

(** [f"Starting Kopf {versions.version or '(unknown version)'}."]: Python's
    [or] takes the default for [None] and for the empty string. *)
Definition starting (W : World) : event :=
  EvDebug ("Starting Kopf " +:+
           (if truthy (version (env W))
            then default "" (version (env W))
            else "(unknown version)") +:+ ".").

Definition _startup_cleanup_activities (ready_flag : option Flag) : Coro unit :=
  (W ← get_world; emit (starting W));;
  try_except_cancelled
    (run_activity STARTUP)
    (emit (EvWarn "Startup activity is only partially executed due to cancellation.");;
     raise CancelledError);;
  started_flag_set;;
  raise_flag ready_flag;;
  try_except_cancelled (suspend None) (mret tt);;
  try_except_cancelled
    (current_task ← current_task;
     W ← get_world;
     let awaited_root_tasks : gset nat :=
       list_to_set (filter (λ task, task ≠ current_task) (live_root W)) in
     wait (elements awaited_root_tasks) None ALL_COMPLETED;;
     W ← get_world;
     let awaited_system_tasks : gset nat :=
       list_to_set (filter (λ task, task ≠ current_task) (live_system W)) in
     wait (elements awaited_system_tasks) None ALL_COMPLETED;;
     mret tt)
    (emit (EvWarn "Cleanup activity is not executed at all due to cancellation.");;
     raise CancelledError);;
  try_except_cancelled
    (run_activity CLEANUP;;
     vault_close_)
    (emit (EvWarn "Cleanup activity is only partially executed due to cancellation.");;
     raise CancelledError).

(** Modelled from the spec: [aiotasks.create_guarded_task] is not under src/.
    The coroutine of a guarded task: it first suspends on the started-flag;
    cancelled while it waits, it ends as cancelled and the body never runs;
    once the flag is set it runs the body and ends as the body does. *)
Definition guarded (name : string) (body : Coro unit) : Coro unit :=
  W ← get_world;
  suspend (started W);;
  emit (EvBody name);;
  body.

(** ** The signal-flag and [_stop_flag_checker] *)

(** [asyncio.Future]: pending, or finished at some time with a result. *)
Inductive Future : Type :=
| Pending
| Finished (at_ : nat) (result : Signals).

(** [future.set_result(value)] raises [InvalidStateError] on a future that is
    done already, and leaves it as it is. *)
Definition set_result (f : Future) (T : nat) (value : Signals) : Future + error :=
  match f with
  | Pending => inl (Finished T value)
  | Finished _ _ => inr InvalidStateError
  end.

(** The loop state that a signal handler touches: the signal-flag, and what
    the loop's exception handler was given by callbacks that raised. *)
Record Slot : Type := mkSlot {
  slot_future : Future;
  slot_errors : list (nat * error);
}.

(** The loop runs the handler [signal_flag.set_result] of an arrived signal;
    an exception of a callback goes to the loop's exception handler, it is
    not raised into any task. *)
Definition on_signal (sl : Slot) (arrival : nat * Signals) : Slot :=
  match set_result (slot_future sl) arrival.1 arrival.2 with
  | inl f => mkSlot f (slot_errors sl)
  | inr e => mkSlot (slot_future sl) (slot_errors sl ++ [(arrival.1, e)])
  end.

Definition deliver (arrivals : list (nat * Signals)) (sl : Slot) : Slot :=
  foldl on_signal sl arrivals.

(** The signal-flag of a world, after the signals that have a handler. *)
Definition signal_slot (W : World) : Slot :=
  deliver (filter (λ a, a.2 ∈ handlers W) (signals (env W))) (mkSlot Pending []).

(** What [_stop_flag_checker] awaits: the signal-flag itself, or the task that
    waits for the stop-flag. *)
Inductive awaitable : Type :=
| SignalFlag
| Waiter (t : nat) (value : flag_result).

Definition signal_name (sig : Signals) : string :=
  match sig with
  | SIGINT => "SIGINT"
  | SIGTERM => "SIGTERM"
  | SIGKILL => "SIGKILL"
  end.

(** When an awaitable is done, and what awaiting it then gives. *)
Definition completion (W : World) (a : awaitable) : option (nat * Res flag_result) :=
  match a with
  | SignalFlag =>
      match slot_future (signal_slot W) with
      | Finished T sig => Some (T, Ok (RSignal sig))
      | Pending => None
      end
  | Waiter t value =>
      match finish W t with
      | Some (T, Returned) =>
          Some (T, Ok value)
      | Some (T, Cancelled) => Some (T, Raise CancelledError)
      | Some (T, Failed e) => Some (T, Raise (Error e))
      | None => None
      end
  end.

Fixpoint first_completion (W : World) (flags : list awaitable) : option nat :=
  match flags with
  | [] => None
  | a :: flags' =>
      match fst <$> completion W a, first_completion W flags' with
      | Some x, Some y => Some (x `min` y)
      | Some x, None => Some x
      | None, r => r
      end
  end.

(** [done, pending = await asyncio.wait(flags, return_when=FIRST_COMPLETED)]
    followed by [future = done.pop()] and [await future]. *)
Definition wait_first_flag (flags : list awaitable) : Coro flag_result :=
  if decide (flags = []) then
    raise (Error (ValueError "Set of Tasks/Futures is empty."))
  else
    (W ← get_world;
     suspend (first_completion W flags);;
     W' ← get_world;
     let done := omap (λ a, match completion W' a with
                            | Some (T, r) => if bool_decide (T ≤ now W') then Some r else None
                            | None => None
                            end) flags in
     match done with
     | Ok r :: _ => mret r
     | Raise e :: _ => raise e
     | Hang :: _ | [] => hang
     end).

(** Python's [repr] of a string: in single quotes, or in double quotes when
    the string holds a single quote and no double quote; the backslash and
    the quote in use are escaped, and so is every character that is not
    printable. *)
Definition hexdigit (n : N) : Ascii.ascii :=
  default "0"%char (String.list_ascii_of_string "0123456789abcdef" !! N.to_nat n).

Definition printable (c : Ascii.ascii) : bool :=
  let n := Ascii.N_of_ascii c in
  ((32 <=? n) && (n <=? 126) || (161 <=? n) && negb (n =? 173))%N.

Definition repr_char (quote c : Ascii.ascii) : string :=
  let backslash : Ascii.ascii := "092"%char in
  if bool_decide (c = quote) || bool_decide (c = backslash)
  then String backslash (String c "")
  else if bool_decide (c = "009"%char) then String backslash "t"
  else if bool_decide (c = "010"%char) then String backslash "n"
  else if bool_decide (c = "013"%char) then String backslash "r"
  else if printable c then String c ""
  else String backslash
         (String "x" (String (hexdigit (Ascii.N_of_ascii c / 16))
                        (String (hexdigit (Ascii.N_of_ascii c `mod` 16)) ""))).

Definition repr_str (s : string) : string :=
  let chars := String.list_ascii_of_string s in
  let quote : Ascii.ascii :=
    if bool_decide ("'"%char ∈ chars) && negb (bool_decide ("034"%char ∈ chars))
    then "034"%char else "'"%char in
  String quote (foldr (λ c r, repr_char quote c +:+ r) (String quote "") chars).

Definition signal_number (sig : Signals) : string :=
  match sig with
  | SIGINT => "2"
  | SIGTERM => "15"
  | SIGKILL => "9"
  end.

(** [repr] of what a flag gives. *)
Definition repr (v : flag_result) : string :=
  match v with
  | RNone => "None"
  | RSignal sig => "<Signals." +:+ signal_name sig +:+ ": " +:+ signal_number sig +:+ ">"
  | RBool true => "True"
  | RBool false => "False"
  | RStr s => repr_str s
  end.

Definition _stop_flag_checker (signal_flag : option awaitable)
    (stop_flag : option Flag) : Coro unit :=
  (* Selects the flags to be awaited (if set). *)
  let flags := match signal_flag with Some f => [f] | None => [] end in
  flags ←
    match stop_flag with
    | Some flag =>
        t ← create_task "stop-flag waiter" false false (wait_flag flag);
        mret (flags ++ [Waiter t (awaited flag)])
    | None => mret flags
    end;
  (* Wait until one of the stoppers is set/raised. *)
  try_except_cancelled_else
    (wait_first_flag flags)
    (mret tt)
    (λ result,
       match result with
       | RNone => emit (EvInfo "Stop-flag is raised. Operator is stopping.")
       | RSignal sig =>
           emit (EvInfo ("Signal " +:+ signal_name sig +:+ " is received. Operator is stopping."))
       | _ =>
           emit (EvInfo ("Stop-flag is set to " +:+ repr result +:+ ". Operator is stopping."))
       end).

(** ** [spawn_tasks], [operator] and [run] *)

Record SpawnArgs : Type := mkArgs {
  a_settings : option OperatorSettings;
  a_standalone : option bool;
  a_priority : option nat;
  a_peering_name : option string;
  a_liveness_endpoint : option string;
  a_clusterwide : bool;
  a_namespaces : list string;
  a_namespace : option string;
  a_stop_flag : option Flag;
  a_ready_flag : option Flag;
  a_command : option Behaviour;
}.

Definition append_system (t : nat) : Coro unit := λ W,
  (Ok tt, set_live_system (live_system W ++ [t]) W).
Definition append_root (t : nat) : Coro unit := λ W,
  (Ok tt, set_live_root (live_root W ++ [t]) W).

(** A task of the given name, doing what the world has a task of that name do. *)
Definition spawn_named (name : string) (guarded finishable : bool) : Coro nat :=
  W ← get_world;
  create_task name guarded finishable (workload (env W) name).

Definition with_peering (f : PeeringSettings → PeeringSettings)
    (s : OperatorSettings) : OperatorSettings :=
  mkSettings (process s) (f (peering s)).

Definition spawn_tasks (a : SpawnArgs) : Coro (list nat * list nat) :=
  namespaces ←
    (if nonempty (a_namespaces a) && truthy (a_namespace a) then
       raise (Error (TypeError "Either namespaces= or namespace= can be passed. Got both."))
     else if truthy (a_namespace a) then
       emit (EvWarnings "DeprecationWarning" "namespace= is deprecated; use namespaces=[...]");;
       mret (option_list (a_namespace a))
     else mret (a_namespaces a));
  (if a_clusterwide a && nonempty namespaces then
     raise (Error (TypeError "The operator can be either cluster-wide or namespaced, not both."))
   else mret tt);;
  clusterwide ←
    (if negb (a_clusterwide a) && negb (nonempty namespaces) then
       emit (EvWarnings "FutureWarning"
               ("Absence of either namespaces or cluster-wide flag will become an error soon." +:+
                " For now, switching to the cluster-wide mode for backward compatibility."));;
       mret true
     else mret (a_clusterwide a));
  (* All tasks of the operator are synced via these primitives and structures: *)
  W ← get_world;
  let settings := default (default_settings (env W)) (a_settings a) in
  modify (λ W, set_started None (set_live_system [] (set_live_root [] W)));;
  (* Map kwargs into the settings object. *)
  let settings := with_peering (λ p, mkPeering clusterwide (p_mandatory p)
                    (p_name p) (p_standalone p) (p_priority p)) settings in
  let settings :=
    match a_peering_name a with
    | Some peering_name =>
        with_peering (λ p, mkPeering (p_clusterwide p) true peering_name
                             (p_standalone p) (p_priority p)) settings
    | None => settings
    end in
  let settings :=
    match a_standalone a with
    | Some standalone =>
        with_peering (λ p, mkPeering (p_clusterwide p) (p_mandatory p) (p_name p)
                             standalone (p_priority p)) settings
    | None => settings
    end in
  let settings :=
    match a_priority a with
    | Some priority =>
        with_peering (λ p, mkPeering (p_clusterwide p) (p_mandatory p) (p_name p)
                             (p_standalone p) priority) settings
    | None => settings
    end in
  modify (set_settings_var (Some settings));;
  (* A few common background forever-running infrastructural tasks. *)
  (spawn_named "stop-flag checker" false false ≫= append_system);;
  (spawn_named "ultimate termination" false false ≫= append_system);;
  (spawn_named "startup/cleanup activities" false false ≫= append_system);;
  (spawn_named "daemon killer" true false ≫= append_system);;
  (spawn_named "credentials retriever" true false ≫= append_system);;
  (spawn_named "poster of events" true false ≫= append_root);;
  (if truthy (a_liveness_endpoint a)
   then spawn_named "health reporter" true false ≫= append_root
   else mret tt);;
  (spawn_named "admission insights chain" true false ≫= append_root);;
  (spawn_named "admission validating configuration manager" true false ≫= append_root);;
  (spawn_named "admission mutating configuration manager" true false ≫= append_root);;
  (spawn_named "admission webhook server" true false ≫= append_root);;
  (spawn_named "resource observer" true false ≫= append_root);;
  (spawn_named "namespace observer" true false ≫= append_root);;
  match a_command a with
  | Some _command => create_task "the command" true true _command ≫= append_root
  | None => spawn_named "multidimensional multitasker" true false ≫= append_root
  end;;
  (* Ensure that all guarded tasks got control for a moment to enter the guard. *)
  (W ← get_world; suspend (Some (now W)));;
  (* On Ctrl+C or pod termination, cancel all tasks gracefully. *)
  W ← get_world;
  (if in_main_thread (env W) then
     if unix_signals (env W) then
       modify (λ W, set_handlers (handlers W ++ [SIGINT; SIGTERM]) W)
     else
       emit (EvWarn "OS signals are ignored: can't add signal handler in Windows.")
   else
     emit (EvWarn "OS signals are ignored: running not in the main thread."));;
  W ← get_world;
  mret (live_system W, live_root W).

Definition operator (a : SpawnArgs) : Coro unit :=
  existing_tasks ← all_tasks ∅;
  '(system_tasks, root_tasks) ← spawn_tasks a;
  run_tasks system_tasks root_tasks existing_tasks.

Definition run (a : SpawnArgs) : Coro unit :=
  try_except_cancelled (operator a) (mret tt).

(** * Specification vocabulary *)

(** How a world may change while a coroutine of the module runs: the clock
    moves on, the tasks are the same, a cancellation that reached a task
    stays, a task that is done is not touched any more, pending
    cancellations of the coroutine are consumed and the log grows. *)
Record evolves (W W' : World) : Prop := mkEvolves {
  ev_env : env W' = env W;
  ev_now : now W ≤ now W';
  ev_scripts : scripts W' = scripts W;
  ev_cancelled : ∀ t c, cancelled W !! t = Some c → cancelled W' !! t = Some c;
  ev_done : ∀ t, is_done W t → cancelled W' !! t = cancelled W !! t;
  ev_cancels : cancels W' `suffix_of` cancels W;
  ev_log : log W `prefix_of` log W';
  ev_live_root : live_root W' = live_root W;
  ev_live_system : live_system W' = live_system W;
}.

(** The cancellations of a log, in order, each with the pass that issued it. *)
Definition passes (l : list (nat * event)) : list (string * nat) :=
  omap (λ x, match x.2 with
             | EvCancel title t => Some (title, t)
             | _ => None
             end) l.

(** The log entries of the [task.cancel()] calls of one pass. *)
Definition cancel_log (T : nat) (title : string) (ts : list nat) : list (nat * event) :=
  (λ t, (T, EvCancel title t)) <$> ts.

(** A task that unwinds when it is cancelled. *)
Definition cooperative (W : World) (t : nat) : Prop :=
  ∃ s, scripts W !! t = Some s ∧ is_Some (s_on_cancel s).

(** The tasks that [run_tasks] may have to stop unwind once cancelled: the
    given tasks, which are tasks of the loop, and every task of the loop that
    is not in the snapshot. *)
Definition unwinding (W : World) (tasks : list nat) (ignored : gset nat) : Prop :=
  (∀ t, t ∈ tasks → cooperative W t) ∧
  (∀ t, t ∉ ignored → is_Some (scripts W !! t) → cooperative W t).

(** * Reasoning about coroutines *)

Lemma bind_run {A B} (m : Coro A) (f : A → Coro B) (W : World) :
  (m ≫= f) W = match m W with
               | (Ok a, W1) => f a W1
               | (Raise e, W1) => (Raise e, W1)
               | (Hang, W1) => (Hang, W1)
               end.
Proof. reflexivity. Qed.

Lemma try_run {A} (body handler : Coro A) (W : World) :
  try_except_cancelled body handler W =
    match body W with
    | (Raise CancelledError, W1) => handler W1
    | r => r
    end.
Proof. reflexivity. Qed.

Tactic Notation "run_bind" hyp(H) "as" simple_intropattern(a) ident(W1) ident(E) :=
  match type of H with
  | (?m ≫= ?f) ?W = _ =>
      rewrite (bind_run m f W) in H;
      destruct (m W) as [[a|?|] W1] eqn:E
  end.

Tactic Notation "run_try" hyp(H) "as" simple_intropattern(a) ident(W1) ident(E) :=
  match type of H with
  | try_except_cancelled ?b ?h ?W = _ =>
      rewrite (try_run b h W) in H;
      destruct (b W) as [[a|[|?]|] W1] eqn:E
  end.

#[global] Instance evolves_refl : Reflexive evolves.
Proof. intros W. split; auto. Qed.

Lemma finish_stable (W W' : World) (t : nat) :
  evolves W W' → is_done W t → finish W' t = finish W t.
Proof.
  intros H Hd. unfold finish.
  by rewrite (ev_scripts _ _ H), (ev_done _ _ H t Hd).
Qed.

Lemma done_at_mono (W : World) (T T' : nat) (t : nat) :
  T ≤ T' → done_at W T t → done_at W T' t.
Proof.
  unfold done_at. intros HT. destruct (finish W t) as [[f o]|]; [|done].
  rewrite !bool_decide_spec. lia.
Qed.

Lemma is_done_mono (W W' : World) (t : nat) :
  evolves W W' → is_done W t → is_done W' t.
Proof.
  intros H Hd. unfold is_done, done_at.
  rewrite (finish_stable _ _ _ H Hd).
  apply (done_at_mono W (now W) (now W') t (ev_now _ _ H)) in Hd. exact Hd.
Qed.

(** A task that is done stays done, as of the same time. *)
Lemma done_at_stable (W W' : World) (t : nat) :
  evolves W W' → is_done W t → done_at W' (now W) t.
Proof.
  intros H Hd. unfold done_at. rewrite (finish_stable _ _ _ H Hd). exact Hd.
Qed.

#[global] Instance evolves_trans : Transitive evolves.
Proof.
  intros W1 W2 W3 H12 H23. split.
  - by rewrite (ev_env _ _ H23), (ev_env _ _ H12).
  - pose proof (ev_now _ _ H12). pose proof (ev_now _ _ H23). lia.
  - by rewrite (ev_scripts _ _ H23), (ev_scripts _ _ H12).
  - intros t c Hc. by apply (ev_cancelled _ _ H23), (ev_cancelled _ _ H12).
  - intros t Hd. rewrite (ev_done _ _ H23 t (is_done_mono _ _ _ H12 Hd)).
    by apply (ev_done _ _ H12).
  - etrans; [apply (ev_cancels _ _ H23) | apply (ev_cancels _ _ H12)].
  - etrans; [apply (ev_log _ _ H12) | apply (ev_log _ _ H23)].
  - by rewrite (ev_live_root _ _ H23), (ev_live_root _ _ H12).
  - by rewrite (ev_live_system _ _ H23), (ev_live_system _ _ H12).
Qed.

Lemma result_of_done (W : World) (t : nat) :
  is_done W t ↔ is_Some (result_of W t).
Proof.
  unfold is_done, done_at, result_of.
  destruct (finish W t) as [[f o]|]; [|split; [done|by intros [? ?]]].
  destruct (bool_decide (f ≤ now W)); split; try done; by intros [? ?].
Qed.

Lemma result_of_stable (W W' : World) (t : nat) (o : outcome) :
  evolves W W' → result_of W t = Some o → result_of W' t = Some o.
Proof.
  intros H Hr.
  assert (Hd : is_done W t) by (apply result_of_done; eauto).
  pose proof (is_done_mono _ _ _ H Hd) as Hd'.
  unfold result_of in *. rewrite (finish_stable _ _ _ H Hd).
  unfold is_done, done_at in Hd'. rewrite (finish_stable _ _ _ H Hd) in Hd'.
  destruct (finish W t) as [[f o']|]; [|done].
  destruct (bool_decide (f ≤ now W)); [|done].
  destruct (bool_decide (f ≤ now W')); [done|]. by destruct Hd'.
Qed.

(** ** The suspension point *)

Lemma suspend_spec (wake : option nat) (W : World) (r : Res unit) (W' : World) :
  suspend wake W = (r, W') →
  evolves W W' ∧ cancelled W' = cancelled W ∧ log W' = log W ∧
  match r with
  | Ok _ => ∃ w, wake = Some w ∧ now W' = now W `max` w ∧ cancels W' = cancels W
  | Raise e => e = CancelledError ∧ cancels W ≠ []
  | Hang => wake = None ∧ W' = W
  end.
Proof.
  unfold suspend. intros H.
  destruct (cancels W) as [|c cs] eqn:Hc.
  - destruct wake as [w|]; simplify_eq; simpl; [|done].
    split_and!; eauto. split; simpl; try done; try lia.
  - assert (Hev : ∀ n, now W ≤ n → evolves W (set_cancels cs (set_now n W))).
    { intros n Hn. split; simpl; try done. rewrite Hc. by apply suffix_cons_r. }
    destruct wake as [w|]; [case_bool_decide|]; simplify_eq; simpl.
    + split_and!; eauto. apply Hev; lia.
    + split_and!; eauto. split; simpl; try done; try lia.
    + split_and!; eauto. apply Hev; lia.
Qed.

Lemma suspend_ok (w : nat) (W : World) :
  cancels W = [] → suspend (Some w) W = (Ok tt, set_now (now W `max` w) W).
Proof. unfold suspend. by intros ->. Qed.

(** The cancellation that has come by the time the coroutine would resume
    is delivered. *)
Lemma suspend_reached (wake : option nat) (c : nat) (cs : list nat) (W : World) :
  cancels W = c :: cs →
  match wake with Some w => c ≤ now W `max` w | None => True end →
  suspend wake W = (Raise CancelledError, set_cancels cs (set_now (now W `max` c) W)).
Proof.
  unfold suspend. intros -> Hw. destruct wake as [w|]; [|done].
  by rewrite bool_decide_eq_true_2.
Qed.

Lemma suspend_cancelled (wake : option nat) (c : nat) (cs : list nat) (W : World) :
  cancels W = c :: cs →
  match wake with Some w => c < w | None => True end →
  suspend wake W = (Raise CancelledError, set_cancels cs (set_now (now W `max` c) W)).
Proof.
  intros Hc Hw. apply suspend_reached; [done|]. destruct wake as [w|]; [lia|done].
Qed.

Lemma finish_ext (W W' : World) (t : nat) :
  scripts W' = scripts W → cancelled W' = cancelled W → finish W' t = finish W t.
Proof. unfold finish. by intros -> ->. Qed.

Lemma is_done_ext (W W' : World) (t : nat) :
  scripts W' = scripts W → cancelled W' = cancelled W → now W' = now W →
  is_done W' t = is_done W t.
Proof.
  intros Hs Hc Hn. unfold is_done, done_at. by rewrite (finish_ext _ _ _ Hs Hc), Hn.
Qed.

Lemma is_done_finish (W : World) (t : nat) :
  is_done W t → ∃ f o, finish W t = Some (f, o) ∧ f ≤ now W.
Proof.
  unfold is_done, done_at. destruct (finish W t) as [[f o]|]; [|done].
  rewrite bool_decide_spec. eauto.
Qed.

Lemma finish_is_done (W : World) (t : nat) (f : nat) (o : outcome) :
  finish W t = Some (f, o) → f ≤ now W → is_done W t.
Proof.
  unfold is_done, done_at. intros -> ?. by apply bool_decide_spec.
Qed.

Lemma finish_cooperative (W : World) (t : nat) :
  cooperative W t → is_Some (cancelled W !! t) → is_Some (finish W t).
Proof.
  intros (s & Hs & [[d o] Hc]) [c Hcan]. unfold finish, task_finish.
  rewrite Hs. simpl. rewrite Hcan, Hc. eauto.
Qed.

(** ** Waking times *)

Lemma all_done_bound (W : World) (ts : list nat) (w : nat) :
  all_done W ts = Some w →
  ∀ t, t ∈ ts → ∃ f o, finish W t = Some (f, o) ∧ f ≤ w.
Proof.
  revert w. induction ts as [|t0 ts IH]; intros w Hw t Ht.
  - by apply elem_of_nil in Ht.
  - simpl in Hw. unfold finish_time in Hw at 1.
    destruct (finish W t0) as [[f0 o0]|] eqn:Hf0; [|done]. simpl in Hw.
    destruct (all_done W ts) as [b|] eqn:Hb; [|done]. simpl in Hw.
    simplify_eq. apply elem_of_cons in Ht as [->|Ht].
    + exists f0, o0. split; [done|lia].
    + destruct (IH b eq_refl t Ht) as (f & o & Hf & Hle).
      exists f, o. split; [done|lia].
Qed.

Lemma all_done_is_Some (W : World) (ts : list nat) :
  (∀ t, t ∈ ts → is_Some (finish W t)) → is_Some (all_done W ts).
Proof.
  induction ts as [|t0 ts IH]; intros H; [by eexists|].
  simpl. destruct (H t0) as [[f o] Hf]; [by left|].
  destruct IH as [b Hb]; [intros t Ht; apply H; by right|].
  unfold finish_time at 1. rewrite Hf, Hb. simpl. eauto.
Qed.

Lemma all_done_ext (W W' : World) (ts : list nat) :
  scripts W' = scripts W → cancelled W' = cancelled W → all_done W' ts = all_done W ts.
Proof.
  intros Hs Hc. induction ts as [|t ts IH]; [done|].
  simpl. unfold finish_time. by rewrite (finish_ext _ _ _ Hs Hc), IH.
Qed.

Lemma first_done_ext (W W' : World) (ts : list nat) :
  scripts W' = scripts W → cancelled W' = cancelled W →
  first_done W' ts = first_done W ts.
Proof.
  intros Hs Hc. induction ts as [|t ts IH]; [done|].
  simpl. unfold finish_time. by rewrite (finish_ext _ _ _ Hs Hc), IH.
Qed.

Lemma target_ext (W W' : World) (timeout : option nat) (rw : return_when)
    (ts : list nat) :
  scripts W' = scripts W → cancelled W' = cancelled W → now W' = now W →
  deadline W' timeout
    match rw with
    | FIRST_COMPLETED => first_done W' ts
    | ALL_COMPLETED => all_done W' ts
    end =
  deadline W timeout
    match rw with
    | FIRST_COMPLETED => first_done W ts
    | ALL_COMPLETED => all_done W ts
    end.
Proof.
  intros Hs Hc Hn. unfold deadline.
  by rewrite (first_done_ext _ _ _ Hs Hc), (all_done_ext _ _ _ Hs Hc), Hn.
Qed.

Lemma first_done_bound (W : World) (ts : list nat) (w : nat) :
  first_done W ts = Some w →
  (∃ t o, t ∈ ts ∧ finish W t = Some (w, o)) ∧
  (∀ t f o, t ∈ ts → finish W t = Some (f, o) → w ≤ f).
Proof.
  revert w. induction ts as [|t0 ts IH]; intros w Hw; [done|].
  simpl in Hw. unfold finish_time in Hw at 1.
  destruct (finish W t0) as [[f0 o0]|] eqn:Hf0; simpl in Hw.
  - destruct (first_done W ts) as [b|] eqn:Hb; simplify_eq.
    + destruct (IH b eq_refl) as [(t & o & Ht & Hf) Hmin].
      split.
      * destruct (decide (f0 ≤ b)).
        -- exists t0, o0. split; [by left|]. rewrite Hf0. do 2 f_equal. lia.
        -- exists t, o. split; [by right|]. rewrite Hf. do 2 f_equal. lia.
      * intros t' f o' Ht' Hf'. apply elem_of_cons in Ht' as [->|Ht'].
        -- rewrite Hf0 in Hf'. simplify_eq. lia.
        -- pose proof (Hmin _ _ _ Ht' Hf'). lia.
    + split.
      * exists t0, o0. split; [by left|done].
      * intros t' f o' Ht' Hf'. apply elem_of_cons in Ht' as [->|Ht'].
        -- rewrite Hf0 in Hf'. by simplify_eq.
        -- exfalso. clear IH Hf0. induction ts as [|t1 ts IH1]; [by apply elem_of_nil in Ht'|].
           simpl in Hb. unfold finish_time in Hb at 1.
           apply elem_of_cons in Ht' as [->|Ht'].
           ++ rewrite Hf' in Hb. simpl in Hb. by destruct (first_done W ts).
           ++ destruct (finish W t1) as [[? ?]|]; simpl in Hb;
                [by destruct (first_done W ts)|by apply IH1].
  - destruct (IH w Hw) as [(t & o & Ht & Hf) Hmin]. split.
    + exists t, o. split; [by right|done].
    + intros t' f o' Ht' Hf'. apply elem_of_cons in Ht' as [->|Ht'].
      * by rewrite Hf0 in Hf'.
      * by apply (Hmin _ _ _ Ht' Hf').
Qed.

(** ** The helpers *)

Lemma emit_run (ev : event) (W : World) :
  emit ev W = (Ok tt, set_log (log W ++ [(now W, ev)]) W).
Proof. reflexivity. Qed.

Lemma emit_evolves (ev : event) (W : World) :
  evolves W (set_log (log W ++ [(now W, ev)]) W).
Proof. split; simpl; try done. by apply prefix_app_r. Qed.

Lemma cancel_task_spec (title : string) (t : nat) (W : World) :
  ∃ W', cancel_task title t W = (Ok tt, W') ∧
    evolves W W' ∧ now W' = now W ∧ cancels W' = cancels W ∧
    log W' = log W ++ [(now W, EvCancel title t)] ∧
    (is_done W' t ∨ is_Some (cancelled W' !! t)) ∧
    (∀ t', t' ≠ t → cancelled W' !! t' = cancelled W !! t').
Proof.
  unfold cancel_task.
  destruct (is_done W t || bool_decide (is_Some (cancelled W !! t))) eqn:Hb.
  - eexists. split; [done|]. simpl. split_and!; try done.
    + split; simpl; try done. by apply prefix_app_r.
    + apply orb_true_iff in Hb as [Hb|Hb].
      * left. change (Is_true (is_done W t)). by rewrite Hb.
      * right. by apply bool_decide_eq_true_1 in Hb.
  - apply orb_false_iff in Hb as [Hd Hc].
    apply bool_decide_eq_false_1 in Hc.
    eexists. split; [done|]. simpl. split_and!; try done.
    + split; simpl; try done.
      * intros t' c Ht'. destruct (decide (t = t')) as [->|Hne].
        -- exfalso. apply Hc. eauto.
        -- by rewrite lookup_insert_ne.
      * intros t' Ht'. destruct (decide (t = t')) as [->|Hne].
        -- by rewrite Hd in Ht'.
        -- by rewrite lookup_insert_ne.
      * by apply prefix_app_r.
    + right. rewrite lookup_insert_eq. eauto.
    + intros t' Hne. by rewrite lookup_insert_ne.
Qed.

Lemma cancel_all_spec (title : string) (ts : list nat) (W : World) :
  ∃ W', cancel_all title ts W = (Ok tt, W') ∧
    evolves W W' ∧ now W' = now W ∧ cancels W' = cancels W ∧
    log W' = log W ++ cancel_log (now W) title ts ∧
    (∀ t, t ∈ ts → is_done W' t ∨ is_Some (cancelled W' !! t)) ∧
    (∀ t, t ∉ ts → cancelled W' !! t = cancelled W !! t).
Proof.
  revert W. induction ts as [|t ts IH]; intros W.
  - exists W. simpl. split_and!; try done.
    + by rewrite app_nil_r.
    + intros t Ht. by apply elem_of_nil in Ht.
  - destruct (cancel_task_spec title t W)
      as (W1 & E1 & Hev1 & Hn1 & Hc1 & Hl1 & Ht1 & Hf1).
    destruct (IH W1) as (W2 & E2 & Hev2 & Hn2 & Hc2 & Hl2 & Ht2 & Hf2).
    exists W2. simpl. rewrite bind_run, E1. split_and!; try done.
    + by etrans.
    + congruence.
    + congruence.
    + rewrite Hl2, Hl1, Hn1. unfold cancel_log. simpl. by rewrite <-app_assoc.
    + intros t' Ht'. apply elem_of_cons in Ht' as [->|Ht']; [|by apply Ht2].
      destruct Ht1 as [Hd|[c Hc]].
      * left. by apply (is_done_mono _ _ _ Hev2).
      * right. exists c. by apply (ev_cancelled _ _ Hev2).
    + intros t' Ht'. apply not_elem_of_cons in Ht' as [Hne Ht'].
      by rewrite (Hf2 t' Ht'), (Hf1 t' Hne).
Qed.

Lemma wait_spec (ts : list nat) (timeout : option nat) (rw : return_when)
    (W : World) (r : Res (gset nat * gset nat)) (W' : World) :
  wait ts timeout rw W = (r, W') →
  evolves W W' ∧ cancelled W' = cancelled W ∧
  log W' = log W ++ (if decide (ts = []) then [] else [(now W, EvWait ts timeout rw)]) ∧
  match r with
  | Ok (d, p) =>
      d = list_to_set (filter (λ t, is_done W' t) ts) ∧
      p = list_to_set (filter (λ t, ¬ is_done W' t) ts) ∧
      cancels W' = cancels W ∧
      (∀ d0, timeout = Some d0 → now W' ≤ now W + d0) ∧
      (rw = ALL_COMPLETED →
       (∀ t, t ∈ ts → is_done W' t) ∨ ∃ d0, timeout = Some d0 ∧ now W' = now W + d0) ∧
      (if decide (ts = []) then now W' = now W
       else ∃ w, deadline W timeout
                   match rw with
                   | FIRST_COMPLETED => first_done W ts
                   | ALL_COMPLETED => all_done W ts
                   end = Some w ∧ now W' = now W `max` w)
  | Raise e => e = CancelledError
  | Hang => True
  end.
Proof.
  unfold wait. intros H. destruct (decide (ts = [])) as [->|Hne].
  - inversion H; subst. split_and!; try done.
    + by rewrite app_nil_r.
    + intros; lia.
    + intros _. left. intros t Ht. by apply elem_of_nil in Ht.
  - rewrite bind_run, emit_run in H.
    set (W1 := set_log (log W ++ [(now W, EvWait ts timeout rw)]) W) in *.
    rewrite bind_run in H. unfold get_world at 1 in H.
    rewrite bind_run in H.
    destruct (suspend _ W1) as [[[]|e|] W2] eqn:E;
      apply suspend_spec in E as (Hev & Hcan & Hlog & Hr).
    + destruct Hr as (w & Hw & Hnow & Hcs).
      rewrite bind_run in H. unfold get_world in H. inversion H; subst W' r.
      assert (Hev1 : evolves W W2) by (etrans; [apply (emit_evolves (EvWait ts timeout rw) W)|done]).
      split_and!; try done.
      * intros d0 ->. rewrite Hnow. simpl in *.
        destruct (match rw with FIRST_COMPLETED => _ | ALL_COMPLETED => _ end);
          simpl in Hw; simplify_eq; lia.
      * intros ->.
        assert (Hall : ∀ w', all_done W1 ts = Some w' → w' ≤ now W2 →
                       ∀ t, t ∈ ts → is_done W2 t).
        { intros w' Hw' Hle' t Ht.
          destruct (all_done_bound W1 ts w' Hw' t Ht) as (f & o & Hf & Hle).
          apply (finish_is_done _ _ f o); [|lia].
          rewrite <-Hf. apply finish_ext; [apply (ev_scripts _ _ Hev)|done]. }
        unfold deadline in Hw. change (now W1) with (now W) in *.
        destruct timeout as [d0|], (all_done W1 ts) as [w'|] eqn:Hw';
          simplify_eq.
        -- destruct (decide (w' ≤ now W + d0)).
           ++ left. apply (Hall w'); [done|lia].
           ++ right. exists d0. split; [done|lia].
        -- right. exists d0. split; [done|lia].
        -- left. apply (Hall w); [done|lia].
      * exists w. split; [|done].
        rewrite <-Hw. symmetry. by apply target_ext.
    + destruct Hr as [-> _]. inversion H; subst. split_and!; try done.
      etrans; [apply (emit_evolves (EvWait ts timeout rw) W)|done].
    + destruct Hr as [_ ->]. inversion H; subst. split_and!; try done.
      apply (emit_evolves (EvWait ts timeout rw) W).
Qed.

Lemma wait_progress (ts : list nat) (timeout : option nat) (rw : return_when)
    (W : World) (w : nat) :
  cancels W = [] →
  deadline W timeout
    match rw with
    | FIRST_COMPLETED => first_done W ts
    | ALL_COMPLETED => all_done W ts
    end = Some w →
  ∃ d p W', wait ts timeout rw W = (Ok (d, p), W') ∧
            (ts ≠ [] → now W' = now W `max` w).
Proof.
  intros Hc Hw. unfold wait. destruct (decide (ts = [])) as [->|Hne].
  - by eexists _, _, _.
  - rewrite bind_run, emit_run, bind_run. unfold get_world at 1.
    rewrite bind_run.
    rewrite (target_ext W) by done. rewrite Hw, suspend_ok by done.
    rewrite bind_run. unfold get_world. by eexists _, _, _.
Qed.

Lemma wait_cancelled (ts : list nat) (timeout : option nat) (rw : return_when)
    (W : World) (c : nat) (cs : list nat) :
  ts ≠ [] → cancels W = c :: cs →
  match deadline W timeout
          match rw with
          | FIRST_COMPLETED => first_done W ts
          | ALL_COMPLETED => all_done W ts
          end with
  | Some w => c < w
  | None => True
  end →
  ∃ W', wait ts timeout rw W = (Raise CancelledError, W') ∧
        cancels W' = cs ∧ now W' = now W `max` c.
Proof.
  intros Hne Hc Hw. unfold wait. destruct (decide (ts = [])) as [->|_]; [done|].
  rewrite bind_run, emit_run, bind_run. unfold get_world at 1.
  rewrite bind_run. rewrite (target_ext W) by done.
  erewrite (suspend_cancelled _ c cs); [by eexists| done | exact Hw].
Qed.


Lemma await_all_spec (ts : list nat) (W : World) (r : Res unit) (W' : World) :
  await_all ts W = (r, W') →
  evolves W W' ∧ cancelled W' = cancelled W ∧ log W' = log W ∧
  match r with
  | Ok _ => ∃ w, all_done W ts = Some w ∧ now W' = now W `max` w ∧
                 cancels W' = cancels W
  | Raise e => e = CancelledError ∧ cancels W ≠ []
  | Hang => all_done W ts = None ∧ W' = W
  end.
Proof.
  unfold await_all. destruct (decide (ts = [])) as [->|_].
  - intros [= <- <-]. split_and!; try done. exists 0. simpl. split_and!; [done|lia|done].
  - intros H. rewrite bind_run in H. unfold get_world at 1 in H.
    by apply suspend_spec in H.
Qed.

Lemma await_all_ok (ts : list nat) (W : World) :
  cancels W = [] → is_Some (all_done W ts) → ∃ W', await_all ts W = (Ok tt, W').
Proof.
  intros Hc [w Hw]. unfold await_all. destruct (decide (ts = [])); [by eexists|].
  rewrite bind_run. unfold get_world at 1. rewrite Hw, suspend_ok by done.
  by eexists.
Qed.

Lemma stop_spec (ts : list nat) (title : string) (c : bool) (i : option nat)
    (W : World) (r : Res (gset nat * gset nat)) (W' : World) :
  stop ts title c i W = (r, W') →
  evolves W W' ∧
  ∃ tail,
    log W' = log W ++ (now W, EvStop title ts c i) :: cancel_log (now W) title ts ++ tail ∧
    match r with
    | Ok (d, p) =>
        d = list_to_set ts ∧ p = ∅ ∧ tail = [(now W', EvStopped title)] ∧
        cancels W' = cancels W ∧ (∀ t, t ∈ ts → is_done W' t) ∧
        (∀ t, t ∉ ts → cancelled W' !! t = cancelled W !! t)
    | Raise e => e = CancelledError ∧ tail = []
    | Hang => tail = []
    end.
Proof.
  unfold stop. intros H. rewrite bind_run, emit_run in H.
  set (W1 := set_log (log W ++ [(now W, EvStop title ts c i)]) W) in *.
  rewrite bind_run in H.
  destruct (cancel_all_spec title ts W1)
    as (W2 & E2 & Hev2 & Hn2 & Hc2 & Hl2 & Ht2 & Hf2).
  rewrite E2 in H. rewrite bind_run in H.
  assert (Hev02 : evolves W W2) by (etrans; [apply (emit_evolves (EvStop title ts c i) W)|done]).
  assert (Hl02 : log W2 = log W ++ (now W, EvStop title ts c i) :: cancel_log (now W) title ts).
  { rewrite Hl2. simpl. by rewrite <-app_assoc. }
  destruct (await_all ts W2) as [[[]|e|] W3] eqn:E;
    apply await_all_spec in E as (Hev & Hcan & Hlog & Hr).
  - destruct Hr as (w & Hw & Hnow & Hcs).
    rewrite bind_run, emit_run in H. inversion H; subst W' r. simpl.
    split.
    { etrans; [exact Hev02|]. etrans; [exact Hev|]. apply emit_evolves. }
    eexists. split.
    { rewrite Hlog, Hl02. rewrite <-app_assoc. simpl. reflexivity. }
    split_and!; try done.
    + by rewrite Hcs, Hc2.
    + intros t Ht.
      destruct (all_done_bound W2 ts w Hw t Ht) as (f & o & Hf & Hle).
      apply (finish_is_done _ _ f o); simpl; [|lia].
      rewrite <-Hf. apply finish_ext; simpl; [apply (ev_scripts _ _ Hev)|done].
    + intros t Ht. rewrite Hcan. by apply Hf2.
  - destruct Hr as [-> _]. inversion H; subst.
    split; [by etrans|]. exists []. by rewrite app_nil_r, Hlog, Hl02.
  - destruct Hr as [_ ->]. inversion H; subst.
    split; [done|]. exists []. by rewrite app_nil_r, Hl02.
Qed.

Lemma stop_progress (ts : list nat) (title : string) (c : bool) (i : option nat)
    (W : World) :
  cancels W = [] → (∀ t, t ∈ ts → cooperative W t) →
  ∃ W', stop ts title c i W = (Ok (list_to_set ts, ∅), W').
Proof.
  intros Hc Hcoop. unfold stop. rewrite bind_run, emit_run.
  set (W1 := set_log (log W ++ [(now W, EvStop title ts c i)]) W) in *.
  rewrite bind_run.
  destruct (cancel_all_spec title ts W1)
    as (W2 & E2 & Hev2 & Hn2 & Hc2 & Hl2 & Ht2 & Hf2).
  rewrite E2, bind_run.
  destruct (await_all_ok ts W2) as [W3 ->]; [by rewrite Hc2| |].
  { apply all_done_is_Some.
    intros t Ht. destruct (Ht2 t Ht) as [Hd|Hcan].
    - destruct (is_done_finish _ _ Hd) as (f & o & Hf & _). eauto.
    - apply finish_cooperative; [|done].
      destruct (Hcoop t Ht) as (s & Hs & Hon). exists s. split; [|done].
      by rewrite (ev_scripts _ _ Hev2). }
  rewrite bind_run, emit_run. by eexists.
Qed.

Lemma all_tasks_spec (ignored : gset nat) (W : World) :
  ∃ found : gset nat,
    all_tasks ignored W =
      (Ok found, set_log (log W ++ [(now W, EvAllTasks (elements found))]) W) ∧
    ∀ t, t ∈ found ↔ (t ∉ ignored) ∧ ¬ is_done W t ∧ is_born W t.
Proof.
  eexists. split; [reflexivity|]. intros t. rewrite elem_of_filter.
  split; [by intros [? _]|]. intros (? & ? & Hb). split; [done|].
  apply elem_of_dom. unfold is_born in Hb. by destruct (scripts W !! t).
Qed.

Lemma reraise_list_spec (W : World) (ts : list nat) :
  match reraise_list W ts with
  | Ok _ => ∀ t, t ∈ ts → ∃ o, result_of W t = Some o ∧ ∀ e, o ≠ Failed e
  | Raise (Error e) =>
      ∃ t, t ∈ ts ∧ (result_of W t = Some (Failed e) ∨
                     (result_of W t = None ∧ e = InvalidStateError))
  | Raise CancelledError | Hang => False
  end.
Proof.
  induction ts as [|t ts IH]; simpl.
  - intros t Ht. by apply elem_of_nil in Ht.
  - destruct (result_of W t) as [[|e|]|] eqn:Hr.
    + destruct (reraise_list W ts) as [[]|[|e]|]; try done.
      * intros t' Ht'. apply elem_of_cons in Ht' as [->|Ht']; [|by apply IH].
        exists Returned. by split.
      * destruct IH as (t' & Ht' & H). exists t'. split; [by right|done].
    + exists t. split; [by left|by left].
    + destruct (reraise_list W ts) as [[]|[|e]|]; try done.
      * intros t' Ht'. apply elem_of_cons in Ht' as [->|Ht']; [|by apply IH].
        exists Cancelled. by split.
      * destruct IH as (t' & Ht' & H). exists t'. split; [by right|done].
    + exists t. split; [by left|by right].
Qed.

(** * [run_tasks]: the paths *)

(** The handlers of [run_tasks] end by re-raising the cancellation: they
    never go on, and never raise anything else. *)
Lemma stop_then_raise (ts : list nat) (title : string) (i : option nat)
    (W : World) (r : Res (gset nat * gset nat)) (W' : World) :
  (stop ts title true i;; raise CancelledError) W = (r, W') →
  r = Raise CancelledError ∨ r = Hang.
Proof.
  intros H. run_bind H as p W1 E.
  - inversion H. by left.
  - apply stop_spec in E as (_ & tail & _ & -> & _). inversion H. by left.
  - inversion H. by right.
Qed.

Lemma cancelled_handler (system_tasks root_tasks : list nat) (ignored : gset nat)
    (W : World) (r : Res (gset nat * gset nat)) (W' : World) :
  (stop root_tasks "Root" true (Some 10);;
   stop system_tasks "System" true (Some 10);;
   hung_tasks ← all_tasks ignored;
   stop (elements hung_tasks) "Hung" true (Some 1);;
   raise CancelledError) W = (r, W') →
  r = Raise CancelledError ∨ r = Hang.
Proof.
  intros H. run_bind H as p W1 E.
  - run_bind H as p' W2 E'.
    + destruct (all_tasks_spec ignored W2) as (found & Ea & _).
      rewrite bind_run, Ea in H. by apply stop_then_raise in H.
    + apply stop_spec in E' as (_ & tail & _ & -> & _). inversion H. by left.
    + inversion H. by right.
  - apply stop_spec in E as (_ & tail & _ & -> & _). inversion H. by left.
  - inversion H. by right.
Qed.

(** The run of [run_tasks] that goes through the whole teardown: the first
    wait returns, the Root and System passes stop what was pending, the hung
    tasks are given their time and the rest of them is stopped; [r] is what
    [reraise] makes of the collected tasks. *)
Inductive teardown (system_tasks root_tasks : list nat) (ignored : gset nat)
    (W : World) (r : Res unit) (W' : World) : Prop :=
| Teardown (W1 W2 W3 W5 : World) (tasks_done tasks_pending hung_tasks
            hung_done hung_pending : gset nat) :
    let root_pending := filter (λ t, t ∉ system_tasks) (elements tasks_pending) in
    let system_pending := filter (λ t, t ∉ root_tasks) (elements tasks_pending) in
    let W4 := set_log (log W3 ++ [(now W3, EvAllTasks (elements hung_tasks))]) W3 in
    wait (system_tasks ++ root_tasks) None FIRST_COMPLETED W
      = (Ok (tasks_done, tasks_pending), W1) →
    stop root_pending "Root" false None W1 = (Ok (list_to_set root_pending, ∅), W2) →
    stop system_pending "System" false None W2
      = (Ok (list_to_set system_pending, ∅), W3) →
    all_tasks ignored W3 = (Ok hung_tasks, W4) →
    (∀ t, t ∈ hung_tasks ↔ (t ∉ ignored) ∧ ¬ is_done W3 t ∧ is_born W3 t) →
    wait (elements hung_tasks) (Some 5) ALL_COMPLETED W4
      = (Ok (hung_done, hung_pending), W5) →
    stop (elements hung_pending) "Hung" false (Some 1) W5
      = (Ok (list_to_set (elements hung_pending), ∅), W') →
    r = reraise_list W'
          (elements (tasks_done ∪ (list_to_set root_pending ∪ list_to_set system_pending)
                     ∪ hung_done ∪ list_to_set (elements hung_pending))) →
    teardown system_tasks root_tasks ignored W r W'.

Lemma run_tasks_teardown (system_tasks root_tasks : list nat) (ignored : gset nat)
    (W : World) (r : Res unit) (W' : World) :
  run_tasks system_tasks root_tasks ignored W = (r, W') →
  r ≠ Raise CancelledError → r ≠ Hang →
  teardown system_tasks root_tasks ignored W r W'.
Proof.
  unfold run_tasks. intros H Hnc Hnh. run_bind H as [tasks_done tasks_pending] W1 E.
  2:{ inversion H; subst. run_try E as p Wx E0; simplify_eq.
      - apply cancelled_handler in E as [?|?]; simplify_eq.
      - by apply wait_spec in E0 as (_ & _ & _ & ?). }
  2:{ inversion H; subst. done. }
  assert (E1 : wait (system_tasks ++ root_tasks) None FIRST_COMPLETED W
               = (Ok (tasks_done, tasks_pending), W1)).
  { run_try E as p Wx E0; simplify_eq; [done|].
    apply cancelled_handler in E as [?|?]; simplify_eq. }
  clear E. run_bind H as [root_cancelled ?] W2 E.
  2:{ apply stop_spec in E as (_ & tail & _ & -> & _). by inversion H; subst. }
  2:{ by inversion H; subst. }
  pose proof E as E2. apply stop_spec in E as (_ & tail & _ & -> & -> & _).
  run_bind H as [system_cancelled ?] W3 E.
  2:{ apply stop_spec in E as (_ & tail' & _ & -> & _). by inversion H; subst. }
  2:{ by inversion H; subst. }
  pose proof E as E3. apply stop_spec in E as (_ & tail' & _ & -> & -> & _).
  destruct (all_tasks_spec ignored W3) as (hung_tasks & Ea & Hhung).
  rewrite bind_run, Ea in H. run_bind H as [hung_done hung_pending] W5 E.
  2:{ inversion H; subst. run_try E as p Wx E0; simplify_eq.
      - apply stop_then_raise in E as [?|?]; simplify_eq.
      - by apply wait_spec in E0 as (_ & _ & _ & ?). }
  2:{ by inversion H; subst. }
  assert (E5 : wait (elements hung_tasks) (Some 5) ALL_COMPLETED
                 (set_log (log W3 ++ [(now W3, EvAllTasks (elements hung_tasks))]) W3)
               = (Ok (hung_done, hung_pending), W5)).
  { run_try E as p Wx E0; simplify_eq; [done|].
    apply stop_then_raise in E as [?|?]; simplify_eq. }
  clear E. run_bind H as [hung_cancelled ?] W6 E.
  2:{ apply stop_spec in E as (_ & tail'' & _ & -> & _). by inversion H; subst. }
  2:{ by inversion H; subst. }
  pose proof E as E6. apply stop_spec in E as (_ & tail'' & _ & -> & -> & _).
  unfold reraise in H. inversion H; subst.
  by eapply Teardown.
Qed.


Lemma finish_frame (W W' : World) (t : nat) :
  scripts W' = scripts W → cancelled W' !! t = cancelled W !! t →
  finish W' t = finish W t.
Proof. unfold finish. by intros -> ->. Qed.

Lemma done_at_frame (W W' : World) (T : nat) (t : nat) :
  scripts W' = scripts W → cancelled W' !! t = cancelled W !! t →
  done_at W' T t = done_at W T t.
Proof. intros Hs Hc. unfold done_at. by rewrite (finish_frame _ _ _ Hs Hc). Qed.

(** What the whole teardown amounts to, in terms of the world [W] in which
    [run_tasks] was called.  [T0] is the time at which the first wait
    returned, [T2] the time of the sweep for hung tasks; [rp], [sp] and [hp]
    are the tasks of the Root, System and Hung passes, [hung] the tasks found
    by the sweep. *)
Record torn_down (system_tasks root_tasks : list nat) (ignored : gset nat)
    (W : World) (r : Res unit) (W' : World)
    (T0 T2 : nat) (rp sp hung hp : list nat) : Prop := mkTornDown {
  td_evolves : evolves W W';
  td_cancels : cancels W' = cancels W;
  td_log : ∃ T1 T5 wl hwl,
    log W' = log W ++ wl ++
      (T0, EvStop "Root" rp false None) :: cancel_log T0 "Root" rp ++
      (T1, EvStopped "Root") ::
      (T1, EvStop "System" sp false None) :: cancel_log T1 "System" sp ++
      (T2, EvStopped "System") ::
      (T2, EvAllTasks hung) :: hwl ++
      (T5, EvStop "Hung" hp false (Some 1)) :: cancel_log T5 "Hung" hp ++
      [(now W', EvStopped "Hung")] ∧
    wl = (if decide (system_tasks ++ root_tasks = []) then []
          else [(now W, EvWait (system_tasks ++ root_tasks) None FIRST_COMPLETED)]) ∧
    hwl = (if decide (hung = []) then []
           else [(T2, EvWait hung (Some 5) ALL_COMPLETED)]) ∧
    (∀ t, t ∈ rp → done_at W' T1 t) ∧
    (∀ t, t ∈ sp → done_at W' T2 t) ∧
    now W ≤ T0 ∧ T0 ≤ T1 ∧ T1 ≤ T2 ∧ T2 ≤ T5 ∧ T5 ≤ T2 + 5 ∧ T5 ≤ now W';
  td_rp : ∀ t, t ∈ rp ↔ t ∈ root_tasks ∧ (t ∉ system_tasks) ∧ ¬ done_at W T0 t;
  td_sp : ∀ t, t ∈ sp ↔ t ∈ system_tasks ∧ (t ∉ root_tasks) ∧ ¬ done_at W T0 t;
  td_hung : ∀ t, t ∈ hung ↔
    (t ∉ ignored) ∧ (t ∉ rp) ∧ (t ∉ sp) ∧ ¬ done_at W T2 t ∧
    ∃ s, scripts W !! t = Some s ∧ s_born s ≤ T2;
  td_hp : ∀ t, t ∈ hp ↔ t ∈ hung ∧ ¬ done_at W (T2 + 5) t;
  td_T0 :
    if decide (system_tasks ++ root_tasks = []) then T0 = now W
    else ∃ w, first_done W (system_tasks ++ root_tasks) = Some w ∧ T0 = now W `max` w;
  td_first_done : ∀ t, t ∈ system_tasks ++ root_tasks → done_at W T0 t →
                       is_done W' t ∧ finish W' t = finish W t;
  td_hung_first : ∀ t, t ∈ hung → done_at W (T2 + 5) t →
                       finish W' t = finish W t;
  td_rp_done : ∀ t, t ∈ rp → is_done W' t;
  td_sp_done : ∀ t, t ∈ sp → is_done W' t;
  td_hung_done : ∀ t, t ∈ hung → is_done W' t;
  td_result :
    r = reraise_list W'
          (elements (list_to_set (filter (λ t, done_at W T0 t) (system_tasks ++ root_tasks))
                     ∪ (list_to_set rp ∪ list_to_set sp)
                     ∪ list_to_set (filter (λ t, done_at W (T2 + 5) t) hung)
                     ∪ list_to_set hp : gset nat));
}.

Lemma teardown_torn_down (system_tasks root_tasks : list nat) (ignored : gset nat)
    (W : World) (r : Res unit) (W' : World) :
  teardown system_tasks root_tasks ignored W r W' →
  ∃ T0 T2 rp sp hung hp,
    torn_down system_tasks root_tasks ignored W r W' T0 T2 rp sp hung hp.
Proof.
  intros [W1 W2 W3 W5 td tp hung hd hp rp sp W4 E1 E2 E3 Ea Hhung E5 E6 Hr].
  apply wait_spec in E1 as (Hev1 & Hcan1 & Hlog1 & -> & -> & Hcs1 & _ & _ & HT0).
  apply stop_spec in E2 as (Hev2 & tail2 & Hlog2 & _ & _ & -> & Hcs2 & Hd2 & Hf2).
  apply stop_spec in E3 as (Hev3 & tail3 & Hlog3 & _ & _ & -> & Hcs3 & Hd3 & Hf3).
  apply wait_spec in E5 as (Hev5 & Hcan5 & Hlog5 & Hhd & Hhp0 & Hcs5 & Hto5 & Hall5 & _).
  apply stop_spec in E6 as (Hev6 & tail6 & Hlog6 & _ & _ & -> & Hcs6 & Hd6 & Hf6).
  assert (Hev4 : evolves W3 W4) by apply emit_evolves.
  assert (Hev03 : evolves W W3) by (etrans; [exact Hev1|]; by etrans).
  assert (Hev05 : evolves W W5) by (etrans; [exact Hev03|]; by etrans).
  assert (Hev0 : evolves W W') by (by etrans).
  assert (Hev1' : evolves W1 W').
  { etrans; [exact Hev2|]. etrans; [exact Hev3|]. etrans; [exact Hev4|]. by etrans. }
  assert (Hev3' : evolves W3 W').
  { etrans; [exact Hev4|]. by etrans. }
  specialize (Hto5 5 eq_refl). specialize (Hall5 eq_refl).
  change (now W4) with (now W3) in *.
  (* doneness after the first wait, in terms of [W] *)
  assert (Hd1 : ∀ t, is_done W1 t = done_at W (now W1) t).
  { intros t. unfold is_done. apply done_at_frame; [apply (ev_scripts _ _ Hev1)|by rewrite Hcan1]. }
  assert (Hrp : ∀ t, t ∈ rp ↔ t ∈ root_tasks ∧ (t ∉ system_tasks) ∧ ¬ done_at W (now W1) t).
  { intros t. subst rp. rewrite list_elem_of_filter, elem_of_elements,
      elem_of_list_to_set, list_elem_of_filter, elem_of_app, Hd1. tauto. }
  assert (Hsp : ∀ t, t ∈ sp ↔ t ∈ system_tasks ∧ (t ∉ root_tasks) ∧ ¬ done_at W (now W1) t).
  { intros t. subst sp. rewrite list_elem_of_filter, elem_of_elements,
      elem_of_list_to_set, list_elem_of_filter, elem_of_app, Hd1. tauto. }
  (* the tasks that no pass has touched are as in [W] *)
  assert (Hfr3 : ∀ t, t ∉ rp → t ∉ sp → cancelled W3 !! t = cancelled W !! t).
  { intros t ? ?. by rewrite Hf3, Hf2, Hcan1. }
  assert (Hrp3 : ∀ t, t ∈ rp → is_done W3 t).
  { intros t Ht. by apply (is_done_mono _ _ _ Hev3), Hd2. }
  assert (Hhung' : ∀ t, t ∈ elements hung ↔
            (t ∉ ignored) ∧ (t ∉ rp) ∧ (t ∉ sp) ∧ ¬ done_at W (now W3) t ∧
            ∃ s, scripts W !! t = Some s ∧ s_born s ≤ now W3).
  { intros t. rewrite elem_of_elements, Hhung. unfold is_born.
    rewrite (ev_scripts _ _ Hev03). split.
    - intros (Hi & Hnd & Hb).
      assert (t ∉ rp) by (intros ?; by apply Hnd, Hrp3).
      assert (t ∉ sp) by (intros ?; by apply Hnd, Hd3).
      assert (Heq : done_at W3 (now W3) t = done_at W (now W3) t).
      { apply done_at_frame; [apply (ev_scripts _ _ Hev03)|by apply Hfr3]. }
      split_and!; try done.
      + intros Hd. apply Hnd. unfold is_done. by rewrite Heq.
      + destruct (scripts W !! t) as [s|]; [|done].
        apply bool_decide_spec in Hb. eauto.
    - intros (Hi & Hr1 & Hs1 & Hnd & s & Hs & Hb).
      assert (Heq : done_at W3 (now W3) t = done_at W (now W3) t).
      { apply done_at_frame; [apply (ev_scripts _ _ Hev03)|by apply Hfr3]. }
      split_and!; try done.
      + intros Hd. apply Hnd. unfold is_done in Hd. by rewrite Heq in Hd.
      + rewrite Hs. by apply bool_decide_spec. }
  assert (Hd5 : ∀ t, t ∈ elements hung → is_done W5 t = done_at W (now W5) t).
  { intros t Ht. apply Hhung' in Ht as (_ & ? & ? & _). unfold is_done.
    apply done_at_frame; [apply (ev_scripts _ _ Hev05)|].
    rewrite Hcan5. by apply Hfr3. }
  assert (Hd5' : ∀ t, t ∈ elements hung →
                 is_done W5 t ↔ done_at W (now W3 + 5) t).
  { intros t Ht. rewrite (Hd5 t Ht). split.
    - apply done_at_mono. lia.
    - intros Hd. destruct Hall5 as [Hall|(d0 & ? & Hn5)].
      + rewrite <-(Hd5 t Ht). by apply Hall.
      + simplify_eq. by rewrite Hn5. }
  assert (Hhp : ∀ t, t ∈ elements hp ↔ t ∈ elements hung ∧ ¬ done_at W (now W3 + 5) t).
  { intros t. rewrite Hhp0. rewrite elem_of_elements, elem_of_list_to_set,
      list_elem_of_filter. split; intros [? ?]; split; try done.
    - by rewrite <-Hd5'.
    - by rewrite Hd5'. }
  exists (now W1), (now W3), rp, sp, (elements hung), (elements hp).
  split; try done.
  - simpl in Hcs5. congruence.
  - eexists (now W2), (now W5), _, _.
    split; [|split; [reflexivity|split; [reflexivity|split; [|split]]]].
    + rewrite Hlog6, Hlog5. simpl. rewrite Hlog3, Hlog2, Hlog1.
      repeat (rewrite <-?app_assoc; simpl). reflexivity.
    + intros t Ht. apply (done_at_stable W2); [|by apply Hd2].
      etrans; [exact Hev3|done].
    + intros t Ht. apply (done_at_stable W3); [done|by apply Hd3].
    + pose proof (ev_now _ _ Hev1). pose proof (ev_now _ _ Hev2).
      pose proof (ev_now _ _ Hev3). pose proof (ev_now _ _ Hev5).
      pose proof (ev_now _ _ Hev6). simpl in *. lia.
  - intros t Ht Hd. rewrite <-Hd1 in Hd. split.
    + by apply (is_done_mono _ _ _ Hev1').
    + rewrite (finish_stable _ _ _ Hev1' Hd).
      apply finish_ext; [apply (ev_scripts _ _ Hev1)|done].
  - intros t Ht Hd. apply (Hd5' t Ht) in Hd.
    rewrite (finish_stable _ _ _ Hev6 Hd).
    apply Hhung' in Ht as (_ & ? & ? & _).
    apply finish_frame; [apply (ev_scripts _ _ Hev05)|].
    rewrite Hcan5. by apply Hfr3.
  - intros t Ht. apply (is_done_mono W2); [|by apply Hd2].
    etrans; [exact Hev3|done].
  - intros t Ht. apply (is_done_mono _ _ _ Hev3'). by apply Hd3.
  - intros t Ht. destruct (is_done W5 t) eqn:Hd.
    + apply (is_done_mono _ _ _ Hev6). by rewrite Hd.
    + apply Hd6. apply Hhp. split; [done|].
      intros Hx. apply (Hd5' t Ht) in Hx. by rewrite Hd in Hx.
  - rewrite Hr. apply (f_equal (λ X : gset nat, reraise_list W' (elements X))).
    apply set_eq. intros t. rewrite Hhd.
    rewrite !elem_of_union, !elem_of_list_to_set, !list_elem_of_filter.
    rewrite Hd1. rewrite Hhp.
    split; intros [[[?|?]|[Hh Hx]]|[Hh Hx]]; try (by eauto 6).
    + left. right. split; [|done]. by apply (Hd5' t Hx).
    + left. right. split; [|done]. by apply (Hd5' t Hx).
Qed.

Lemma reraise_list_result (W : World) (ts : list nat) :
  reraise_list W ts ≠ Raise CancelledError ∧ reraise_list W ts ≠ Hang.
Proof.
  pose proof (reraise_list_spec W ts) as H.
  destruct (reraise_list W ts) as [[]|[|e]|]; done.
Qed.

(** When nobody cancels [run_tasks], every task of the loop unwinds once it
    is cancelled, and one of the given tasks finishes at some time, then
    [run_tasks] goes through the whole teardown. *)
Lemma run_tasks_progress (system_tasks root_tasks : list nat) (ignored : gset nat)
    (W : World) :
  cancels W = [] →
  unwinding W (system_tasks ++ root_tasks) ignored →
  (system_tasks ++ root_tasks = [] ∨
   is_Some (first_done W (system_tasks ++ root_tasks))) →
  ∃ r W', run_tasks system_tasks root_tasks ignored W = (r, W') ∧
          r ≠ Raise CancelledError ∧ r ≠ Hang.
Proof.
  intros Hcs [Hlisted Hswept] Hfirst.
  assert (Hco : ∀ W1 t, scripts W1 = scripts W → cooperative W t → cooperative W1 t).
  { intros W1 t HW1 (s & Hs & Hon). exists s. by rewrite HW1. }
  (* the first wait *)
  assert (∃ td tp W1, wait (system_tasks ++ root_tasks) None FIRST_COMPLETED W
                      = (Ok (td, tp), W1)) as (td & tp & W1 & E1).
  { destruct Hfirst as [Hnil|[w Hw]].
    - unfold wait. rewrite Hnil. rewrite decide_True by done. by eexists _, _, _.
    - destruct (wait_progress (system_tasks ++ root_tasks) None FIRST_COMPLETED W w Hcs)
        as (d & p & W1 & E & _); [done|]. by eexists _, _, _. }
  pose proof E1 as S1.
  apply wait_spec in S1 as (Hev1 & Hcan1 & Hlog1 & Htd & Htp & Hcs1 & _ & _ & _).
  (* the Root pass *)
  set (rp := filter (λ t, t ∉ system_tasks) (elements tp)).
  destruct (stop_progress rp "Root" false None W1) as (W2 & E2).
  { congruence. }
  { intros t Ht. apply Hco; [apply (ev_scripts _ _ Hev1)|]. apply Hlisted.
    subst rp. apply list_elem_of_filter in Ht as [_ Ht].
    rewrite elem_of_elements, Htp, elem_of_list_to_set, list_elem_of_filter in Ht.
    tauto. }
  pose proof E2 as S2.
  apply stop_spec in S2 as (Hev2 & tail2 & _ & _ & _ & _ & Hcs2 & _ & _).
  (* the System pass *)
  set (sp := filter (λ t, t ∉ root_tasks) (elements tp)).
  destruct (stop_progress sp "System" false None W2) as (W3 & E3).
  { congruence. }
  { intros t Ht. apply Hco.
    { by rewrite (ev_scripts _ _ Hev2), (ev_scripts _ _ Hev1). }
    apply Hlisted.
    subst sp. apply list_elem_of_filter in Ht as [_ Ht].
    rewrite elem_of_elements, Htp, elem_of_list_to_set, list_elem_of_filter in Ht.
    tauto. }
  pose proof E3 as S3.
  apply stop_spec in S3 as (Hev3 & tail3 & _ & _ & _ & _ & Hcs3 & _ & _).
  assert (Hs3 : scripts W3 = scripts W).
  { by rewrite (ev_scripts _ _ Hev3), (ev_scripts _ _ Hev2), (ev_scripts _ _ Hev1). }
  (* the sweep *)
  destruct (all_tasks_spec ignored W3) as (hung & Ea & Hhung).
  set (W4 := set_log (log W3 ++ [(now W3, EvAllTasks (elements hung))]) W3) in *.
  destruct (wait_progress (elements hung) (Some 5) ALL_COMPLETED W4
              (match all_done W4 (elements hung) with
               | Some w => w `min` (now W4 + 5)
               | None => now W4 + 5
               end))
    as (hd & hp & W5 & E5 & _).
  { simpl. congruence. }
  { unfold deadline. by destruct (all_done W4 (elements hung)). }
  pose proof E5 as S5.
  apply wait_spec in S5 as (Hev5 & _ & _ & _ & Hhp & Hcs5 & _ & _ & _).
  destruct (stop_progress (elements hp) "Hung" false (Some 1) W5) as (W6 & E6).
  { simpl in Hcs5. congruence. }
  { intros t Ht. apply Hco.
    { by rewrite (ev_scripts _ _ Hev5). }
    rewrite elem_of_elements, Hhp, elem_of_list_to_set, list_elem_of_filter,
      elem_of_elements, Hhung in Ht.
    destruct Ht as (_ & Hi & _ & Hb). apply Hswept; [done|].
    unfold is_born in Hb. rewrite Hs3 in Hb.
    by destruct (scripts W !! t). }
  eexists _, W6. split.
  - unfold run_tasks. rewrite bind_run, try_run, E1.
    rewrite bind_run. fold rp. rewrite E2.
    rewrite bind_run. fold sp. rewrite E3.
    rewrite bind_run, Ea. fold W4.
    rewrite bind_run, try_run, E5.
    rewrite bind_run, E6. reflexivity.
  - apply reraise_list_result.
Qed.

(** [task.cancel()] was called on the task in the course of the log. *)
Definition cancel_called (l : list (nat * event)) (t : nat) : bool :=
  bool_decide (t ∈ (passes l).*2).

(** The cancellations of a pass, as they appear in [passes]. *)
Definition pass (title : string) (ts : list nat) : list (string * nat) :=
  (λ t, (title, t)) <$> ts.

Lemma passes_app (l1 l2 : list (nat * event)) :
  passes (l1 ++ l2) = passes l1 ++ passes l2.
Proof. apply omap_app. Qed.

Lemma passes_cancel_log (T : nat) (title : string) (ts : list nat) :
  passes (cancel_log T title ts) = pass title ts.
Proof.
  unfold passes, cancel_log, pass. induction ts as [|t ts IH]; [done|].
  simpl. f_equal. exact IH.
Qed.

Lemma torn_down_log (system_tasks root_tasks : list nat) (ignored : gset nat)
    (W : World) (r : Res unit) (W' : World) (T0 T2 : nat) (rp sp hung hp : list nat) :
  torn_down system_tasks root_tasks ignored W r W' T0 T2 rp sp hung hp →
  ∃ l, log W' = log W ++ l ∧
       passes l = pass "Root" rp ++ pass "System" sp ++ pass "Hung" hp ∧
       (T2, EvAllTasks hung) ∈ l ∧
       (∀ T ts timeout rw, (T, EvWait ts timeout rw) ∈ l →
          timeout = None ∨ timeout = Some 5) ∧
       (∀ T title ts c i, (T, EvStop title ts c i) ∈ l →
          c = false ∧ (i = None ∨ title = "Hung" ∧ i = Some 1)).
Proof.
  intros H. destruct (td_log _ _ _ _ _ _ _ _ _ _ _ _ H)
    as (T1 & T5 & wl & hwl & Hlog & Hwl & Hhwl & _).
  eexists. split; [exact Hlog|].
  assert (Hpw : passes wl = []).
  { rewrite Hwl. by destruct (decide (system_tasks ++ root_tasks = [])). }
  assert (Hph : passes hwl = []).
  { rewrite Hhwl. by destruct (decide (hung = [])). }
  split_and!.
  - repeat (rewrite ?passes_app, ?passes_cancel_log; simpl;
            change (omap _ ?l) with (passes l)).
    rewrite Hpw, Hph. simpl. by rewrite app_nil_r.
  - set_solver.
  - intros T ts timeout rw Hin. rewrite Hwl, Hhwl in Hin. unfold cancel_log in Hin.
    destruct (decide (system_tasks ++ root_tasks = [])), (decide (hung = []));
      set_unfold in Hin; naive_solver.
  - intros T title ts c i Hin. rewrite Hwl, Hhwl in Hin. unfold cancel_log in Hin.
    destruct (decide (system_tasks ++ root_tasks = [])), (decide (hung = []));
      set_unfold in Hin; naive_solver.
Qed.

(** Every collected task is done, so that [reraise] finds an error exactly
    when one of them ended in error. *)
Lemma torn_down_result (system_tasks root_tasks : list nat) (ignored : gset nat)
    (W : World) (r : Res unit) (W' : World) (T0 T2 : nat) (rp sp hung hp : list nat) :
  torn_down system_tasks root_tasks ignored W r W' T0 T2 rp sp hung hp →
  let collected t :=
    (t ∈ system_tasks ++ root_tasks ∧ done_at W T0 t) ∨ t ∈ rp ∨ t ∈ sp ∨ t ∈ hung in
  (∀ t, collected t → is_done W' t) ∧
  match r with
  | Ok _ => ∀ t e, collected t → result_of W' t ≠ Some (Failed e)
  | Raise (Error e) => ∃ t, collected t ∧ result_of W' t = Some (Failed e)
  | Raise CancelledError | Hang => False
  end.
Proof.
  intros H collected.
  assert (Hdone : ∀ t, collected t → is_done W' t).
  { intros t [[Ht Hd]|[Ht|[Ht|Ht]]].
    - by apply (td_first_done _ _ _ _ _ _ _ _ _ _ _ _ H).
    - by apply (td_rp_done _ _ _ _ _ _ _ _ _ _ _ _ H).
    - by apply (td_sp_done _ _ _ _ _ _ _ _ _ _ _ _ H).
    - by apply (td_hung_done _ _ _ _ _ _ _ _ _ _ _ _ H). }
  split; [done|].
  assert (Hcol : ∀ t, t ∈ elements
             (list_to_set (filter (λ t, done_at W T0 t) (system_tasks ++ root_tasks))
              ∪ (list_to_set rp ∪ list_to_set sp)
              ∪ list_to_set (filter (λ t, done_at W (T2 + 5) t) hung)
              ∪ list_to_set hp : gset nat) ↔ collected t).
  { intros t. rewrite elem_of_elements, !elem_of_union, !elem_of_list_to_set,
      !list_elem_of_filter. unfold collected.
    rewrite (td_hp _ _ _ _ _ _ _ _ _ _ _ _ H).
    destruct (decide (done_at W (T2 + 5) t)); tauto. }
  rewrite (td_result _ _ _ _ _ _ _ _ _ _ _ _ H).
  pose proof (reraise_list_spec W' (elements
             (list_to_set (filter (λ t, done_at W T0 t) (system_tasks ++ root_tasks))
              ∪ (list_to_set rp ∪ list_to_set sp)
              ∪ list_to_set (filter (λ t, done_at W (T2 + 5) t) hung)
              ∪ list_to_set hp : gset nat))) as Hspec.
  destruct (reraise_list W' _) as [[]|[|e]|]; try done.
  - intros t e Ht Hf. apply Hcol in Ht. destruct (Hspec t Ht) as (o & Ho & Hne).
    rewrite Hf in Ho. simplify_eq. by apply (Hne e).
  - destruct Hspec as (t & Ht & [Hf|[Hf _]]).
    + exists t. split; [by apply Hcol|done].
    + apply Hcol, Hdone, result_of_done in Ht. rewrite Hf in Ht. by destruct Ht.
Qed.

(** * [run_tasks]: failures surface after the teardown *)

(** A world to try the claims on: the system task 1 fails at time 3 while the
    root tasks 2 and 3 run forever; the tasks 7 and 8 were spawned at time 1,
    7 returns by itself at time 5 and 8 runs until it is cancelled, and then
    takes 2 to unwind. *)
Definition quiet : Behaviour := mkBehaviour None (Some (0, Cancelled)).

Definition sample_env : Env :=
  mkEnv 77 100 true true
    (mkSettings (mkProcess None) (mkPeering false false "default" false 0))
    (λ _, quiet) (λ _, (2, None)) 1 [] (Some "1.36.2").

Definition sample_tasks : gmap nat Script :=
  list_to_map
    [(1, mkScript "system" 0 false false
           (mkBehaviour (Some (3, Failed (Exception "boom"))) (Some (0, Cancelled))));
     (2, mkScript "root a" 0 true false quiet);
     (3, mkScript "root b" 0 true false quiet);
     (7, mkScript "spawned a" 1 false false
           (mkBehaviour (Some (5, Returned)) (Some (0, Cancelled))));
     (8, mkScript "spawned b" 1 false false
           (mkBehaviour None (Some (2, Cancelled))))].

Definition sample_world : World :=
  mkWorld sample_env 0 sample_tasks ∅ [] None [] [] [] [] None [].

(** The same world, in which the root task 2 swallows its cancellation and
    carries on. *)
Definition stubborn_world : World :=
  set_scripts (<[2 := mkScript "root a" 0 true false (mkBehaviour None None)]> sample_tasks)
    sample_world.

(** The claim C1 as it is worded, in its two parts.  When [run_tasks] raises
    a failure, every root, system and hung task other than those that ended
    in error has been cancelled and is done. *)
Definition failure_after_cancelling_all (system_tasks root_tasks : list nat)
    (ignored : gset nat) (W : World) : Prop :=
  ∀ e W', run_tasks system_tasks root_tasks ignored W = (Raise (Error e), W') →
    ∃ l T2 hung,
      log W' = log W ++ l ∧ (T2, EvAllTasks hung) ∈ l ∧
      ∀ t, t ∈ system_tasks ++ root_tasks ∨ t ∈ hung →
           (∀ e', result_of W' t ≠ Some (Failed e')) →
           is_done W' t ∧ cancel_called l t.

(** And when one of the tasks is the first to finish, and fails, [run_tasks]
    raises a failure. *)
Definition failure_is_raised (system_tasks root_tasks : list nat)
    (ignored : gset nat) (W : World) : Prop :=
  ∀ t T e0, t ∈ system_tasks ++ root_tasks →
            finish W t = Some (T, Failed e0) →
            first_done W (system_tasks ++ root_tasks) = Some T →
            ∃ e W', run_tasks system_tasks root_tasks ignored W = (Raise (Error e), W').

Lemma sample_run_result :
  (run_tasks [1] [2; 3] ∅ sample_world).1 = Raise (Error (Exception "boom")).
Proof. vm_compute. exact eq_refl. Qed.

Lemma sample_run_log :
  log (run_tasks [1] [2; 3] ∅ sample_world).2 =
    [(0, EvWait [1; 2; 3] None FIRST_COMPLETED);
     (3, EvStop "Root" [2; 3] false None); (3, EvCancel "Root" 2);
     (3, EvCancel "Root" 3); (3, EvStopped "Root");
     (3, EvStop "System" [] false None); (3, EvStopped "System");
     (3, EvAllTasks [8; 7]); (3, EvWait [8; 7] (Some 5) ALL_COMPLETED);
     (8, EvStop "Hung" [8] false (Some 1)); (8, EvCancel "Hung" 8);
     (10, EvStopped "Hung")].
Proof. vm_compute. exact eq_refl. Qed.

Lemma sample_run_spawned_a :
  result_of (run_tasks [1] [2; 3] ∅ sample_world).2 7 = Some Returned.
Proof. vm_compute. exact eq_refl. Qed.

(** In the sample world the failure of task 1 is raised although the hung
    task 7, which returned by itself within the time given to hung tasks,
    was never cancelled. *)
Lemma hung_task_not_cancelled :
  ¬ failure_after_cancelling_all [1] [2; 3] ∅ sample_world.
Proof.
  intros H.
  destruct (H (Exception "boom") (run_tasks [1] [2; 3] ∅ sample_world).2)
    as (l & T2 & hung & Hl & Hin & Hall).
  { pose proof sample_run_result as Hr.
    destruct (run_tasks [1] [2; 3] ∅ sample_world) as [r W']. simpl in *.
    by rewrite Hr. }
  assert (Hl' : l = log (run_tasks [1] [2; 3] ∅ sample_world).2).
  { symmetry. exact Hl. }
  clear Hl. pose proof sample_run_log as Hlog.
  destruct (log (run_tasks [1] [2; 3] ∅ sample_world).2) eqn:E; [done|].
  clear E. subst l. injection Hlog as -> ->.
  assert (Hh : hung = [8; 7]).
  { clear -Hin. repeat (apply elem_of_cons in Hin as [Hin|Hin]; [by simplify_eq|]).
    by apply elem_of_nil in Hin. }
  subst hung.
  destruct (Hall 7) as [_ Hc].
  - right. apply elem_of_cons. right. apply elem_of_cons. by left.
  - intros e' He'. pose proof sample_run_spawned_a as H7.
    congruence.
  - by vm_compute in Hc.
Qed.

Lemma overlap_run_result :
  (run_tasks [1; 2] [2; 3] {[2]} sample_world).1 = Raise (Error (Exception "boom")).
Proof. vm_compute. exact eq_refl. Qed.

Lemma overlap_run_root_a :
  is_done (run_tasks [1; 2] [2; 3] {[2]} sample_world).2 2 = false ∧
  result_of (run_tasks [1; 2] [2; 3] {[2]} sample_world).2 2 = None.
Proof. split; vm_compute; exact eq_refl. Qed.

(** With the task 2 on both lists, and in the snapshot, the failure of task 1
    is raised while the task 2 still runs: no pass has cancelled it. *)
Lemma listed_twice_not_stopped :
  ¬ failure_after_cancelling_all [1; 2] [2; 3] {[2]} sample_world.
Proof.
  intros H.
  destruct (H (Exception "boom") (run_tasks [1; 2] [2; 3] {[2]} sample_world).2)
    as (l & T2 & hung & _ & _ & Hall).
  { pose proof overlap_run_result as Hr.
    destruct (run_tasks [1; 2] [2; 3] {[2]} sample_world) as [r W']. simpl in *.
    by rewrite Hr. }
  destruct overlap_run_root_a as [Hd Hr].
  destruct (Hall 2) as [Hdone _].
  - left. apply elem_of_cons. right. apply elem_of_cons. by left.
  - intros e'. rewrite Hr. done.
  - rewrite Hd in Hdone. done.
Qed.

Lemma stubborn_run_result :
  (run_tasks [1] [2; 3] ∅ stubborn_world).1 = Hang.
Proof. vm_compute. exact eq_refl. Qed.

Lemma interrupted_run_result :
  (run_tasks [1] [2; 3] ∅ (set_cancels [4] sample_world)).1 = Raise CancelledError.
Proof. vm_compute. exact eq_refl. Qed.

(** With a root task that swallows its cancellation, [run_tasks] waits for
    ever, and the failure of task 1 is never raised. *)
Lemma stubborn_task_hangs :
  ¬ failure_is_raised [1] [2; 3] ∅ stubborn_world.
Proof.
  intros H. destruct (H 1 3 (Exception "boom")) as (e & W' & Hrun).
  - apply elem_of_cons. by left.
  - vm_compute. exact eq_refl.
  - vm_compute. exact eq_refl.
  - pose proof stubborn_run_result as Hr. rewrite Hrun in Hr. done.
Qed.

(** Cancelled from outside at time 4, while it waits for the hung tasks,
    [run_tasks] raises the cancellation, not the failure of task 1. *)
Lemma interrupted_teardown_cancelled :
  ¬ failure_is_raised [1] [2; 3] ∅ (set_cancels [4] sample_world).
Proof.
  intros H. destruct (H 1 3 (Exception "boom")) as (e & W' & Hrun).
  - apply elem_of_cons. by left.
  - vm_compute. exact eq_refl.
  - vm_compute. exact eq_refl.
  - pose proof interrupted_run_result as Hr. rewrite Hrun in Hr. done.
Qed.

(** C1, as worded, fails, in four ways.  In the sample world the failure of
    task 1 is raised although the hung task 7, which returned by itself
    within the time given to hung tasks, was never cancelled.  A task that is
    on both lists, and in the snapshot, is cancelled by no pass and still
    runs when the failure is raised.  With a task that swallows its
    cancellation no failure is ever raised, [run_tasks] waits for ever; and
    cancelled from outside during the teardown, [run_tasks] raises the
    cancellation instead of the failure. *)
Lemma failure_after_cancelling_all_fails :
  ¬ failure_after_cancelling_all [1] [2; 3] ∅ sample_world ∧
  ¬ failure_after_cancelling_all [1; 2] [2; 3] {[2]} sample_world ∧
  ¬ failure_is_raised [1] [2; 3] ∅ stubborn_world ∧
  ¬ failure_is_raised [1] [2; 3] ∅ (set_cancels [4] sample_world).
Proof.
  split; [exact hung_task_not_cancelled|].
  split; [exact listed_twice_not_stopped|].
  split; [exact stubborn_task_hangs|exact interrupted_teardown_cancelled].
Qed.

Lemma result_of_finish (W : World) (t : nat) (f : nat) (o : outcome) :
  is_done W t → finish W t = Some (f, o) → result_of W t = Some o.
Proof.
  unfold is_done, done_at, result_of. intros Hd Hf. rewrite Hf in *.
  by destruct (bool_decide (f ≤ now W)).
Qed.

Lemma pass_tasks (title : string) (ts : list nat) : (pass title ts).*2 = ts.
Proof.
  induction ts as [|t ts IH]; [done|]. simpl. f_equal. exact IH.
Qed.

(** The tasks on which [task.cancel()] was called are those of the passes. *)
Lemma cancel_called_passes (l : list (nat * event)) (R S H : list nat) (t : nat) :
  passes l = pass "Root" R ++ pass "System" S ++ pass "Hung" H →
  cancel_called l t ↔ t ∈ R ∨ t ∈ S ∨ t ∈ H.
Proof.
  intros Hl. unfold cancel_called. rewrite bool_decide_spec, Hl, !fmap_app, !pass_tasks.
  by rewrite !elem_of_app.
Qed.

(** What a teardown amounts to for the tasks, when no task is on both
    lists: who was cancelled, who is a hung task, who is done. *)
Lemma torn_down_tasks (system_tasks root_tasks : list nat) (ignored : gset nat)
    (W : World) (r : Res unit) (W' : World) (T0 T2 : nat) (rp sp hung hp : list nat) :
  system_tasks ## root_tasks →
  torn_down system_tasks root_tasks ignored W r W' T0 T2 rp sp hung hp →
  T0 ≤ T2 ∧
  (∀ t, t ∈ system_tasks ++ root_tasks → (t ∈ rp ∨ t ∈ sp ↔ ¬ done_at W T0 t)) ∧
  (∀ t, t ∈ hp → t ∉ system_tasks ++ root_tasks) ∧
  (∀ t, t ∈ hung ↔
        (t ∉ ignored) ∧ (t ∉ system_tasks ++ root_tasks) ∧ ¬ done_at W T2 t ∧
        ∃ s, scripts W !! t = Some s ∧ s_born s ≤ T2) ∧
  (∀ t, (t ∈ system_tasks ++ root_tasks ∨ t ∈ hung) ↔
        ((t ∈ system_tasks ++ root_tasks ∧ done_at W T0 t) ∨
         t ∈ rp ∨ t ∈ sp ∨ t ∈ hung)).
Proof.
  intros Hdisj Htd.
  destruct (td_log _ _ _ _ _ _ _ _ _ _ _ _ Htd)
    as (T1 & T5 & wl & hwl & _ & _ & _ & _ & _ & _ & H01 & H12 & _).
  assert (H02 : T0 ≤ T2) by lia.
  assert (Hlisted : ∀ t, t ∈ system_tasks ++ root_tasks →
                         (t ∈ rp ∨ t ∈ sp ↔ ¬ done_at W T0 t)).
  { intros t Ht.
    rewrite (td_rp _ _ _ _ _ _ _ _ _ _ _ _ Htd), (td_sp _ _ _ _ _ _ _ _ _ _ _ _ Htd).
    apply elem_of_app in Ht. specialize (Hdisj t). tauto. }
  assert (Hhung : ∀ t, t ∈ hung ↔
        (t ∉ ignored) ∧ (t ∉ system_tasks ++ root_tasks) ∧ ¬ done_at W T2 t ∧
        ∃ s, scripts W !! t = Some s ∧ s_born s ≤ T2).
  { intros t. rewrite (td_hung _ _ _ _ _ _ _ _ _ _ _ _ Htd). split.
    - intros (Hi & Hr & Hs & Hnd & Hb). split_and!; try done.
      intros Ht. destruct (decide (done_at W T0 t)) as [Hd|Hd].
      + apply Hnd. by apply (done_at_mono W T0 T2).
      + apply (Hlisted t Ht) in Hd. tauto.
    - intros (Hi & Hnl & Hnd & Hb). split_and!; try done.
      + rewrite (td_rp _ _ _ _ _ _ _ _ _ _ _ _ Htd), elem_of_app in *. tauto.
      + rewrite (td_sp _ _ _ _ _ _ _ _ _ _ _ _ Htd), elem_of_app in *. tauto. }
  split_and!; try done.
  - intros t Ht. apply (td_hp _ _ _ _ _ _ _ _ _ _ _ _ Htd) in Ht as [Ht _].
    apply Hhung in Ht. tauto.
  - intros t. split.
    + intros [Ht|Ht]; [|tauto].
      destruct (decide (done_at W T0 t)) as [Hd|Hd]; [tauto|].
      apply (Hlisted t Ht) in Hd. tauto.
    + intros [[Ht _]|[Ht|[Ht|Ht]]]; [tauto| | |tauto].
      * apply (td_rp _ _ _ _ _ _ _ _ _ _ _ _ Htd) in Ht. left. apply elem_of_app. tauto.
      * apply (td_sp _ _ _ _ _ _ _ _ _ _ _ _ Htd) in Ht. left. apply elem_of_app. tauto.
Qed.

Lemma unwinding_intro (W : World) (tasks : list nat) (ignored : gset nat) :
  Forall (λ t, is_Some (scripts W !! t)) tasks →
  map_Forall (λ _ s, is_Some (s_on_cancel s)) (scripts W) →
  unwinding W tasks ignored.
Proof.
  intros Hknown Hall.
  assert (Hco : ∀ t, is_Some (scripts W !! t) → cooperative W t).
  { intros t [s Hs]. exists s. split; [done|]. by apply (Hall t s). }
  split.
  - intros t Ht. apply Hco. by apply (proj1 (Forall_forall _ _) Hknown).
  - intros t _. apply Hco.
Qed.

(** C1 (amended): for lists of system and root tasks without a common task,
    whenever [run_tasks] returns or raises a failure, the teardown is over.
    Every root and system task is done, and [task.cancel()] was called on it
    exactly if it had not finished by the time [T0] at which the first wait
    returned.  The hung tasks are the tasks of the loop outside the snapshot
    and the lists that are still running at the time [T2] of the sweep; each
    of them is done, and was cancelled exactly if it had not finished by
    itself within the 5 time units that hung tasks are given.  Nothing else
    was cancelled.  A failure raised is the error of one of these tasks, and
    [run_tasks] returns when none of them ended in error.  And when one of
    the listed tasks finishes at some time, nobody cancels [run_tasks], and
    the listed tasks and the tasks outside the snapshot unwind once
    cancelled, then [run_tasks] does return or raise a failure; it raises a
    failure when the first task to finish has failed. *)
Theorem run_tasks_failure_after_teardown (system_tasks root_tasks : list nat)
    (ignored : gset nat) (W : World) :
  system_tasks ## root_tasks →
  (∀ r W', run_tasks system_tasks root_tasks ignored W = (r, W') →
     r ≠ Raise CancelledError → r ≠ Hang →
     ∃ l T0 T2 hung,
       log W' = log W ++ l ∧
       (if decide (system_tasks ++ root_tasks = []) then T0 = now W
        else ∃ w, first_done W (system_tasks ++ root_tasks) = Some w ∧
                  T0 = now W `max` w) ∧
       (T2, EvAllTasks hung) ∈ l ∧ T0 ≤ T2 ∧
       (∀ t, t ∈ system_tasks ++ root_tasks →
             is_done W' t ∧ (cancel_called l t ↔ ¬ done_at W T0 t)) ∧
       (∀ t, t ∈ hung ↔
             (t ∉ ignored) ∧ (t ∉ system_tasks ++ root_tasks) ∧ ¬ done_at W T2 t ∧
             ∃ s, scripts W !! t = Some s ∧ s_born s ≤ T2) ∧
       (∀ t, t ∈ hung →
             is_done W' t ∧ (cancel_called l t ↔ ¬ done_at W (T2 + 5) t)) ∧
       (∀ t, cancel_called l t → t ∈ system_tasks ++ root_tasks ∨ t ∈ hung) ∧
       match r with
       | Raise (Error e) =>
           ∃ t, (t ∈ system_tasks ++ root_tasks ∨ t ∈ hung) ∧
                result_of W' t = Some (Failed e)
       | _ => ∀ t e, t ∈ system_tasks ++ root_tasks ∨ t ∈ hung →
                     result_of W' t ≠ Some (Failed e)
       end) ∧
  (cancels W = [] →
   unwinding W (system_tasks ++ root_tasks) ignored →
   is_Some (first_done W (system_tasks ++ root_tasks)) →
   ∃ r W', run_tasks system_tasks root_tasks ignored W = (r, W') ∧
           r ≠ Raise CancelledError ∧ r ≠ Hang ∧
           ∀ t T e0, t ∈ system_tasks ++ root_tasks →
                     finish W t = Some (T, Failed e0) →
                     first_done W (system_tasks ++ root_tasks) = Some T →
                     ∃ e, r = Raise (Error e)).
Proof.
  intros Hdisj.
  assert (Hfacts : ∀ r W', run_tasks system_tasks root_tasks ignored W = (r, W') →
     r ≠ Raise CancelledError → r ≠ Hang →
     ∃ T0 T2 rp sp hung hp,
       torn_down system_tasks root_tasks ignored W r W' T0 T2 rp sp hung hp).
  { intros r W' Hrun Hnc Hnh.
    exact (teardown_torn_down _ _ _ _ _ _ (run_tasks_teardown _ _ _ _ _ _ Hrun Hnc Hnh)). }
  split.
  - intros r W' Hrun Hnc Hnh.
    destruct (Hfacts r W' Hrun Hnc Hnh) as (T0 & T2 & rp & sp & hung & hp & Htd).
    destruct (torn_down_tasks _ _ _ _ _ _ _ _ _ _ _ _ Hdisj Htd)
      as (H02 & Hlisted & Hhp & Hhung & Hcol).
    destruct (torn_down_log _ _ _ _ _ _ _ _ _ _ _ _ Htd) as (l & Hl & Hp & Hin & _).
    destruct (torn_down_result _ _ _ _ _ _ _ _ _ _ _ _ Htd) as [Hdone Hres].
    pose proof (cancel_called_passes l rp sp hp) as Hcc.
    exists l, T0, T2, hung. split_and!; try done.
    + apply (td_T0 _ _ _ _ _ _ _ _ _ _ _ _ Htd).
    + intros t Ht. split; [apply Hdone, Hcol; by left|].
      rewrite (Hcc t Hp), <-(Hlisted t Ht). specialize (Hhp t). tauto.
    + intros t Ht. split; [apply Hdone, Hcol; by right|].
      rewrite (Hcc t Hp). pose proof (td_hp _ _ _ _ _ _ _ _ _ _ _ _ Htd t) as Hp'.
      apply (td_hung _ _ _ _ _ _ _ _ _ _ _ _ Htd) in Ht as Ht'. tauto.
    + intros t Hc. apply (Hcc t Hp) in Hc. apply Hcol.
      pose proof (td_hp _ _ _ _ _ _ _ _ _ _ _ _ Htd t) as Hp'. tauto.
    + destruct r as [[]|[|e]|]; try done.
      * intros t e Ht. apply Hres. by apply Hcol.
      * destruct Hres as (t & Ht & Hf). exists t. split; [by apply Hcol|done].
  - intros Hcs Hun Hfirst.
    destruct (run_tasks_progress system_tasks root_tasks ignored W Hcs Hun)
      as (r & W' & Hrun & Hnc & Hnh); [by right|].
    exists r, W'. split_and!; try done.
    intros t T e0 Ht Hfin HT.
    destruct (Hfacts r W' Hrun Hnc Hnh) as (T0 & T2 & rp & sp & hung & hp & Htd).
    destruct (torn_down_result _ _ _ _ _ _ _ _ _ _ _ _ Htd) as [Hdone Hres].
    assert (Hd0 : done_at W T0 t).
    { pose proof (td_T0 _ _ _ _ _ _ _ _ _ _ _ _ Htd) as HT0.
      destruct (decide (system_tasks ++ root_tasks = [])) as [Hnil|_].
      - rewrite Hnil in Ht. by apply elem_of_nil in Ht.
      - destruct HT0 as (w & Hw & ->). rewrite HT in Hw. simplify_eq.
        unfold done_at. rewrite Hfin. apply bool_decide_spec. lia. }
    destruct (td_first_done _ _ _ _ _ _ _ _ _ _ _ _ Htd t Ht Hd0) as [Hd' Hf'].
    assert (Hr' : result_of W' t = Some (Failed e0)).
    { apply (result_of_finish _ _ T); [done|by rewrite Hf']. }
    clear Hrun. destruct r as [[]|[|e]|]; try done.
    + exfalso. apply (Hres t e0); [by left|done].
    + by exists e.
Qed.

Lemma run_tasks_failure_after_teardown_witness :
  ∃ r W', run_tasks [1] [2; 3] ∅ sample_world = (r, W') ∧
          r ≠ Raise CancelledError ∧ r ≠ Hang ∧
          ∀ t T e0, t ∈ [1] ++ [2; 3] →
                    finish sample_world t = Some (T, Failed e0) →
                    first_done sample_world ([1] ++ [2; 3]) = Some T →
                    ∃ e, r = Raise (Error e).
Proof.
  assert (Hdisj : [1] ## [2; 3]).
  { intros x Hx Hy. apply list_elem_of_singleton in Hx. subst x.
    by vm_compute in Hy; repeat (apply elem_of_cons in Hy as [Hy|Hy]; [done|]);
       apply elem_of_nil in Hy. }
  apply (proj2 (run_tasks_failure_after_teardown [1] [2; 3] ∅ sample_world Hdisj)).
  - reflexivity.
  - apply unwinding_intro; apply (bool_decide_unpack _); vm_compute; exact I.
  - vm_compute. by eexists.
Defined.

(** * [run_tasks]: one root task finishes *)

Lemma first_done_is_Some (W : World) (ts : list nat) (t : nat) :
  t ∈ ts → is_Some (finish W t) → is_Some (first_done W ts).
Proof.
  induction ts as [|t0 ts IH]; intros Ht Hf; [by apply elem_of_nil in Ht|].
  simpl. unfold finish_time at 1. apply elem_of_cons in Ht as [->|Ht].
  - destruct Hf as [[f o] ->]. simpl. destruct (first_done W ts); eauto.
  - destruct (IH Ht Hf) as [b ->].
    destruct (finish W t0) as [[? ?]|]; simpl; eauto.
Qed.

Lemma first_done_alone (W : World) (ts : list nat) (t0 : nat) (T : nat) (o : outcome) :
  t0 ∈ ts → finish W t0 = Some (T, o) →
  (∀ t, t ∈ ts → t ≠ t0 → ¬ done_at W T t) →
  first_done W ts = Some T.
Proof.
  intros Ht0 Hf Hothers.
  destruct (first_done_is_Some W ts t0 Ht0) as [w Hw]; [by rewrite Hf|].
  destruct (first_done_bound W ts w Hw) as [(t & o' & Ht & Hft) Hmin].
  pose proof (Hmin t0 T o Ht0 Hf) as Hle.
  destruct (decide (t = t0)) as [->|Hne]; [congruence|].
  exfalso. apply (Hothers t Ht Hne). unfold done_at. rewrite Hft.
  by apply bool_decide_spec.
Qed.

(** The log of a teardown: the Root pass cancels [rp] at [T0] and has them
    all stopped at [T1]; the System pass then cancels [sp], and has them
    stopped at [T2]; the sweep then finds [hung], which are waited for, for
    5 time units at most; the Hung pass cancels [hp] at [T5], and has them
    stopped at [T6]. *)
Definition teardown_log (T0 T1 T2 T5 T6 : nat) (rp sp hung hp : list nat)
  : list (nat * event) :=
  (T0, EvStop "Root" rp false None) :: cancel_log T0 "Root" rp ++
  (T1, EvStopped "Root") ::
  (T1, EvStop "System" sp false None) :: cancel_log T1 "System" sp ++
  (T2, EvStopped "System") ::
  (T2, EvAllTasks hung) ::
  (if decide (hung = []) then [] else [(T2, EvWait hung (Some 5) ALL_COMPLETED)]) ++
  (T5, EvStop "Hung" hp false (Some 1)) :: cancel_log T5 "Hung" hp ++
  [(T6, EvStopped "Hung")].

(** A world to try the claim on: the system task 1 and the root tasks 2 and
    4 run until they are cancelled, the root task 3 returns at time 2; the
    system task takes 3 to unwind. *)
Definition trigger_world : World :=
  mkWorld sample_env 0
    (list_to_map
       [(1, mkScript "system" 0 false false (mkBehaviour None (Some (3, Cancelled))));
        (2, mkScript "root 1" 0 true false quiet);
        (3, mkScript "root 2" 0 true false (mkBehaviour (Some (2, Returned)) (Some (0, Cancelled))));
        (4, mkScript "root 3" 0 true false quiet)])
    ∅ [] None [] [] [] [] None [].

(** The same world, in which the root task 4 fails while it unwinds from its
    cancellation. *)
Definition late_world : World :=
  set_scripts
    (<[4 := mkScript "root 3" 0 true false
              (mkBehaviour None (Some (1, Failed (Exception "late"))))]>
       (scripts trigger_world))
    trigger_world.

(** The same world, in which the root task 2 swallows its cancellation. *)
Definition deaf_world : World :=
  set_scripts
    (<[2 := mkScript "root 1" 0 true false (mkBehaviour None None)]>
       (scripts trigger_world))
    trigger_world.

(** The claim C2 as it is worded: when one root task returns while the
    other root and system tasks are still pending, [run_tasks] returns, with
    all these pending tasks cancelled and done. *)
Definition single_trigger_returns (system_tasks root_tasks : list nat)
    (ignored : gset nat) (W : World) : Prop :=
  ∀ finished T,
    finished ∈ root_tasks →
    finish W finished = Some (T, Returned) →
    now W ≤ T →
    (∀ t, t ∈ system_tasks ++ root_tasks → t ≠ finished → ¬ done_at W T t) →
    ∃ W' l, run_tasks system_tasks root_tasks ignored W = (Ok tt, W') ∧
            log W' = log W ++ l ∧
            ∀ t, t ∈ system_tasks ++ root_tasks → t ≠ finished →
                 cancel_called l t ∧ is_done W' t.

Lemma late_run_result :
  (run_tasks [1] [2; 3; 4] ∅ late_world).1 = Raise (Error (Exception "late")).
Proof. vm_compute. exact eq_refl. Qed.

Lemma deaf_run_result :
  (run_tasks [1] [2; 3; 4] ∅ deaf_world).1 = Hang.
Proof. vm_compute. exact eq_refl. Qed.

Lemma interrupted_trigger_result :
  (run_tasks [1] [2; 3; 4] ∅ (set_cancels [4] trigger_world)).1 = Raise CancelledError.
Proof. vm_compute. exact eq_refl. Qed.

Lemma overlap_trigger_result :
  (run_tasks [1; 2] [2; 3; 4] {[2]} trigger_world).1 = Ok tt ∧
  cancel_called (log (run_tasks [1; 2] [2; 3; 4] {[2]} trigger_world).2) 2 = false.
Proof. split; vm_compute; exact eq_refl. Qed.

(** The scenario of the claim holds of the root task 3, at time 2. *)
Ltac trigger_scenario :=
  [> repeat (apply elem_of_cons; first [by left|right])
   | vm_compute; exact eq_refl
   | simpl; lia
   | let t := fresh "t" in let Ht := fresh "Ht" in
     let Hne := fresh "Hne" in let Hd := fresh "Hd" in
     intros t Ht Hne Hd;
     repeat (apply elem_of_cons in Ht as [->|Ht];
             [first [done | by vm_compute in Hd]|]);
     by apply elem_of_nil in Ht
   | .. ].

(** A task that fails while it unwinds from its cancellation makes
    [run_tasks] raise this error. *)
Lemma late_failure_raised :
  ¬ single_trigger_returns [1] [2; 3; 4] ∅ late_world.
Proof.
  intros H. destruct (H 3 2) as (W' & l & Hrun & _); trigger_scenario.
  pose proof late_run_result as Hr. rewrite Hrun in Hr. done.
Qed.

(** With a task that swallows its cancellation, [run_tasks] never returns. *)
Lemma deaf_task_hangs :
  ¬ single_trigger_returns [1] [2; 3; 4] ∅ deaf_world.
Proof.
  intros H. destruct (H 3 2) as (W' & l & Hrun & _); trigger_scenario.
  pose proof deaf_run_result as Hr. rewrite Hrun in Hr. done.
Qed.

(** Cancelled from outside at time 4, while the system task unwinds,
    [run_tasks] raises the cancellation. *)
Lemma interrupted_trigger_cancelled :
  ¬ single_trigger_returns [1] [2; 3; 4] ∅ (set_cancels [4] trigger_world).
Proof.
  intros H. destruct (H 3 2) as (W' & l & Hrun & _); trigger_scenario.
  pose proof interrupted_trigger_result as Hr. rewrite Hrun in Hr. done.
Qed.

(** The pending task 2, on both lists and in the snapshot, is never
    cancelled. *)
Lemma listed_twice_not_cancelled :
  ¬ single_trigger_returns [1; 2] [2; 3; 4] {[2]} trigger_world.
Proof.
  intros H. destruct (H 3 2) as (W' & l & Hrun & Hl & Hall); trigger_scenario.
  destruct overlap_trigger_result as [_ Hc]. rewrite Hrun in Hc. clear Hrun.
  simpl in Hc. change (log trigger_world) with (@nil (nat * event)) in Hl.
  simpl in Hl. rewrite Hl in Hc. destruct (Hall 2) as [Hcc _].
  - apply elem_of_cons. right. apply elem_of_cons. by left.
  - done.
  - rewrite Hc in Hcc. done.
Qed.

(** C2, as worded, fails, in four ways, each in the scenario of the claim:
    the root task 3 returns at time 2 while the other tasks are pending.  A
    cancelled task that fails while it unwinds makes [run_tasks] raise this
    error; with a task that swallows its cancellation, [run_tasks] never
    returns; cancelled from outside during the teardown, [run_tasks] raises
    the cancellation; and a pending task that is on both lists, and in the
    snapshot, is cancelled by no pass. *)
Lemma single_trigger_returns_fails :
  ¬ single_trigger_returns [1] [2; 3; 4] ∅ late_world ∧
  ¬ single_trigger_returns [1] [2; 3; 4] ∅ deaf_world ∧
  ¬ single_trigger_returns [1] [2; 3; 4] ∅ (set_cancels [4] trigger_world) ∧
  ¬ single_trigger_returns [1; 2] [2; 3; 4] {[2]} trigger_world.
Proof.
  split; [exact late_failure_raised|].
  split; [exact deaf_task_hangs|].
  split; [exact interrupted_trigger_cancelled|exact listed_twice_not_cancelled].
Qed.

(** C2 (amended): say that a root task returns at time [T] while the other
    root and system tasks are pending, and that no task is on both lists.
    Whenever [run_tasks] then returns or raises a failure, it has cancelled
    the pending root tasks at [T], then, at a time [T1] at which they all
    are done, the system tasks, and, at a time [T2] at which these are done
    too, it has swept the hung tasks, waited for them for 5 time units at
    most and cancelled those still running; every root, system and hung task
    is done.  It returns if none of the tasks that it has cancelled or
    swept ended in error, and else raises the error of one of them.  And it
    does return or raise a failure when nobody cancels [run_tasks] and the
    listed tasks and the tasks outside the snapshot unwind once cancelled. *)
Theorem run_tasks_single_trigger (system_tasks root_tasks : list nat)
    (ignored : gset nat) (W : World) (finished : nat) (T : nat) :
  system_tasks ## root_tasks →
  finished ∈ root_tasks →
  finish W finished = Some (T, Returned) →
  now W ≤ T →
  (∀ t, t ∈ system_tasks ++ root_tasks → t ≠ finished → ¬ done_at W T t) →
  (∀ r W', run_tasks system_tasks root_tasks ignored W = (r, W') →
     r ≠ Raise CancelledError → r ≠ Hang →
     ∃ T1 T2 T5 rp sp hung hp,
       log W' = log W ++
         (now W, EvWait (system_tasks ++ root_tasks) None FIRST_COMPLETED) ::
         teardown_log T T1 T2 T5 (now W') rp sp hung hp ∧
       T ≤ T1 ∧ T1 ≤ T2 ∧ T2 ≤ T5 ∧ T5 ≤ T2 + 5 ∧ T5 ≤ now W' ∧
       (∀ t, t ∈ rp ↔ t ∈ root_tasks ∧ t ≠ finished) ∧
       (∀ t, t ∈ sp ↔ t ∈ system_tasks) ∧
       (∀ t, t ∈ hung ↔
             (t ∉ ignored) ∧ (t ∉ system_tasks ++ root_tasks) ∧ ¬ done_at W T2 t ∧
             ∃ s, scripts W !! t = Some s ∧ s_born s ≤ T2) ∧
       (∀ t, t ∈ hp ↔ t ∈ hung ∧ ¬ done_at W (T2 + 5) t) ∧
       (∀ t, t ∈ rp → done_at W' T1 t) ∧
       (∀ t, t ∈ sp → done_at W' T2 t) ∧
       (∀ t, t ∈ system_tasks ++ root_tasks ∨ t ∈ hung → is_done W' t) ∧
       match r with
       | Raise (Error e) =>
           ∃ t, (t ∈ rp ∨ t ∈ sp ∨ t ∈ hung) ∧ result_of W' t = Some (Failed e)
       | _ => ∀ t e, t ∈ system_tasks ++ root_tasks ∨ t ∈ hung →
                     result_of W' t ≠ Some (Failed e)
       end) ∧
  (cancels W = [] →
   unwinding W (system_tasks ++ root_tasks) ignored →
   ∃ r W', run_tasks system_tasks root_tasks ignored W = (r, W') ∧
           r ≠ Raise CancelledError ∧ r ≠ Hang).
Proof.
  intros Hdisj Hfin Hfinish Hnow Hothers.
  assert (Hin : finished ∈ system_tasks ++ root_tasks) by (apply elem_of_app; by right).
  pose proof (first_done_alone W _ finished T Returned Hin Hfinish Hothers) as Hfirst.
  assert (Hne : system_tasks ++ root_tasks ≠ []).
  { intros Hnil. rewrite Hnil in Hin. by apply elem_of_nil in Hin. }
  split.
  - intros r W' Hrun Hnc Hnh.
    destruct (teardown_torn_down _ _ _ _ _ _ (run_tasks_teardown _ _ _ _ _ _ Hrun Hnc Hnh))
      as (T0 & T2 & rp & sp & hung & hp & Htd).
    clear Hrun.
    destruct (torn_down_tasks _ _ _ _ _ _ _ _ _ _ _ _ Hdisj Htd)
      as (H02 & Hlisted & Hhp & Hhung & Hcol).
    destruct (torn_down_result _ _ _ _ _ _ _ _ _ _ _ _ Htd) as [Hdone Hres].
    assert (HT0 : T0 = T).
    { pose proof (td_T0 _ _ _ _ _ _ _ _ _ _ _ _ Htd) as HT0.
      rewrite decide_False in HT0 by done.
      destruct HT0 as (w & Hw & ->). rewrite Hfirst in Hw. simplify_eq. lia. }
    subst T0.
    destruct (td_log _ _ _ _ _ _ _ _ _ _ _ _ Htd)
      as (T1 & T5 & wl & hwl & Hlog & Hwl & Hhwl & Hrpat & Hspat &
          _ & H01 & H12 & H25 & H5 & H5').
    rewrite decide_False in Hwl by done.
    assert (Hfd : done_at W T finished).
    { unfold done_at. rewrite Hfinish. by apply bool_decide_spec. }
    assert (Hrp : ∀ t, t ∈ rp ↔ t ∈ root_tasks ∧ t ≠ finished).
    { intros t. rewrite (td_rp _ _ _ _ _ _ _ _ _ _ _ _ Htd). split.
      - intros (Hr & _ & Hnd). split; [done|]. by intros ->.
      - intros [Hr Hne']. split_and!; [done|by intros ?; apply (Hdisj t)|].
        apply Hothers; [apply elem_of_app; by right|done]. }
    assert (Hsp : ∀ t, t ∈ sp ↔ t ∈ system_tasks).
    { intros t. rewrite (td_sp _ _ _ _ _ _ _ _ _ _ _ _ Htd). split; [by intros (? & _)|].
      intros Hs. assert (t ∉ root_tasks) by (by intros ?; apply (Hdisj t)).
      split_and!; try done.
      apply Hothers; [apply elem_of_app; by left|]. by intros ->. }
    exists T1, T2, T5, rp, sp, hung, hp. split_and!; try done.
    + rewrite Hlog, Hwl, Hhwl. reflexivity.
    + apply (td_hp _ _ _ _ _ _ _ _ _ _ _ _ Htd).
    + intros t Ht. apply Hdone. by apply Hcol.
    + destruct r as [[]|[|e]|]; try done.
      * intros t e Ht. apply Hres. by apply Hcol.
      * destruct Hres as (t & Ht & Hf). exists t. split; [|done].
        destruct Ht as [[Ht Hd]|Ht]; [|done]. exfalso.
        destruct (decide (t = finished)) as [->|Hne']; [|by apply (Hothers t Ht Hne')].
        destruct (td_first_done _ _ _ _ _ _ _ _ _ _ _ _ Htd finished Ht Hd) as [Hd' Hf'].
        rewrite (result_of_finish W' finished T Returned) in Hf; [done|done|].
        by rewrite Hf'.
  - intros Hcs Hun.
    apply (run_tasks_progress system_tasks root_tasks ignored W Hcs Hun).
    right. eauto.
Qed.

Lemma run_tasks_single_trigger_witness :
  ∃ r W', run_tasks [1] [2; 3; 4] ∅ trigger_world = (r, W') ∧
          r ≠ Raise CancelledError ∧ r ≠ Hang.
Proof.
  apply (proj2 (run_tasks_single_trigger [1] [2; 3; 4] ∅ trigger_world 3 2
                  ltac:(intros x Hx Hy; apply list_elem_of_singleton in Hx; subst x;
                        repeat (apply elem_of_cons in Hy as [Hy|Hy]; [done|]);
                        by apply elem_of_nil in Hy)
                  ltac:(repeat (apply elem_of_cons; first [by left|right]))
                  ltac:(vm_compute; exact eq_refl)
                  ltac:(simpl; lia)
                  ltac:(intros t Ht Hne Hd;
                        repeat (apply elem_of_cons in Ht as [->|Ht];
                                [first [done | by vm_compute in Hd]|]);
                        by apply elem_of_nil in Ht))).
  - reflexivity.
  - apply unwinding_intro; apply (bool_decide_unpack _); vm_compute; exact I.
Defined.

(** * [run_tasks]: the order of the passes, in every path *)

(** The timeouts and intervals that [run_tasks] passes to its helpers. *)
Definition fixed_params (ev : event) : bool :=
  match ev with
  | EvWait _ timeout rw =>
      match rw with
      | FIRST_COMPLETED => bool_decide (timeout = None)
      | ALL_COMPLETED => bool_decide (timeout = Some 5)
      end
  | EvStop title _ cancelled interval =>
      if bool_decide (title = "Hung") then bool_decide (interval = Some 1)
      else if cancelled then bool_decide (interval = Some 10)
      else bool_decide (interval = None)
  | _ => true
  end.

(** The log of [W] continues that of [W0] with the three passes, in their
    order, and with the fixed timeouts and intervals only. *)
Definition shaped (W0 W : World) (R S H : list nat) : Prop :=
  ∃ l, log W = log W0 ++ l ∧
       passes l = pass "Root" R ++ pass "System" S ++ pass "Hung" H ∧
       Forall (λ x, fixed_params x.2) l.

Lemma shaped_init (W : World) : shaped W W [] [] [].
Proof. exists []. by rewrite app_nil_r. Qed.

Lemma shaped_quiet (W0 W W' : World) (R S H : list nat) (l' : list (nat * event)) :
  shaped W0 W R S H → log W' = log W ++ l' → passes l' = [] →
  Forall (λ x, fixed_params x.2) l' → shaped W0 W' R S H.
Proof.
  intros (l & Hl & Hp & Hf) Hl' Hp' Hf'. exists (l ++ l'). split_and!.
  - by rewrite Hl', Hl, app_assoc.
  - by rewrite passes_app, Hp, Hp', app_nil_r.
  - by apply Forall_app.
Qed.

Lemma shaped_root (W0 W W' : World) (ts : list nat) (l' : list (nat * event)) :
  shaped W0 W [] [] [] → log W' = log W ++ l' → passes l' = pass "Root" ts →
  Forall (λ x, fixed_params x.2) l' → shaped W0 W' ts [] [].
Proof.
  intros (l & Hl & Hp & Hf) Hl' Hp' Hf'. exists (l ++ l'). split_and!.
  - by rewrite Hl', Hl, app_assoc.
  - rewrite passes_app, Hp, Hp'. simpl. by rewrite app_nil_r.
  - by apply Forall_app.
Qed.

Lemma shaped_system (W0 W W' : World) (R ts : list nat) (l' : list (nat * event)) :
  shaped W0 W R [] [] → log W' = log W ++ l' → passes l' = pass "System" ts →
  Forall (λ x, fixed_params x.2) l' → shaped W0 W' R ts [].
Proof.
  intros (l & Hl & Hp & Hf) Hl' Hp' Hf'. exists (l ++ l'). split_and!.
  - by rewrite Hl', Hl, app_assoc.
  - rewrite passes_app, Hp, Hp'. simpl. by rewrite !app_nil_r.
  - by apply Forall_app.
Qed.

Lemma shaped_hung (W0 W W' : World) (R S ts : list nat) (l' : list (nat * event)) :
  shaped W0 W R S [] → log W' = log W ++ l' → passes l' = pass "Hung" ts →
  Forall (λ x, fixed_params x.2) l' → shaped W0 W' R S ts.
Proof.
  intros (l & Hl & Hp & Hf) Hl' Hp' Hf'. exists (l ++ l'). split_and!.
  - by rewrite Hl', Hl, app_assoc.
  - rewrite passes_app, Hp, Hp'. simpl. by rewrite !app_nil_r, <-!app_assoc.
  - by apply Forall_app.
Qed.

Lemma stop_log (ts : list nat) (title : string) (c : bool) (i : option nat)
    (W : World) (r : Res (gset nat * gset nat)) (W' : World) :
  stop ts title c i W = (r, W') →
  fixed_params (EvStop title ts c i) →
  ∃ l, log W' = log W ++ l ∧ passes l = pass title ts ∧
       Forall (λ x, fixed_params x.2) l.
Proof.
  intros H Hfix. apply stop_spec in H as (_ & tail & Hl & Hr).
  eexists. split; [exact Hl|].
  assert (Htail : tail = [] ∨ ∃ T, tail = [(T, EvStopped title)]).
  { destruct r as [[d p]|e|]; [right|left|left]; naive_solver. }
  split.
  - change (passes (?x :: ?l)) with (passes ([x] ++ l)).
    rewrite !passes_app, passes_cancel_log.
    destruct Htail as [->|[T ->]]; simpl; by rewrite app_nil_r.
  - apply Forall_cons. split; [done|]. apply Forall_app. split.
    + unfold cancel_log. by apply Forall_fmap, Forall_true.
    + destruct Htail as [->|[T ->]]; [done|]. by apply Forall_singleton.
Qed.

Lemma wait_log (ts : list nat) (timeout : option nat) (rw : return_when)
    (W : World) (r : Res (gset nat * gset nat)) (W' : World) :
  wait ts timeout rw W = (r, W') →
  fixed_params (EvWait ts timeout rw) →
  ∃ l, log W' = log W ++ l ∧ passes l = [] ∧ Forall (λ x, fixed_params x.2) l.
Proof.
  intros H Hfix. apply wait_spec in H as (_ & _ & Hl & _).
  eexists. split; [exact Hl|]. destruct (decide (ts = [])); [done|].
  split; [done|]. by apply Forall_singleton.
Qed.

Ltac shaped_done H sh :=
  inversion H; subst;
  eexists _, _, _; split; [exact sh|];
  split_and!; intros ? Hside;
  first [by apply elem_of_nil in Hside | by auto].

(** In every path of [run_tasks], whatever its outcome, the cancellations
    come as a Root pass over root tasks, then a System pass over system
    tasks, then a Hung pass over tasks that are not in the snapshot; and the
    timeouts and intervals are the fixed ones. *)
Lemma run_tasks_shaped (system_tasks root_tasks : list nat) (ignored : gset nat)
    (W : World) (r : Res unit) (W' : World) :
  run_tasks system_tasks root_tasks ignored W = (r, W') →
  ∃ R S H, shaped W W' R S H ∧
           (∀ t, t ∈ R → t ∈ root_tasks) ∧
           (∀ t, t ∈ S → t ∈ system_tasks) ∧
           (∀ t, t ∈ H → t ∉ ignored).
Proof.
  unfold run_tasks. intros H. rewrite bind_run, try_run in H.
  destruct (wait (system_tasks ++ root_tasks) None FIRST_COMPLETED W)
    as [r1 W1] eqn:E1.
  destruct (wait_log _ _ _ _ _ _ E1 I) as (l1 & Hl1 & Hp1 & Hf1).
  pose proof (shaped_quiet W W W1 [] [] [] l1 (shaped_init W) Hl1 Hp1 Hf1) as sh1.
  destruct r1 as [[tasks_done tasks_pending]|[|e]|];
    [| |shaped_done H sh1|shaped_done H sh1].
  - (* something finished *)
    apply wait_spec in E1 as (_ & _ & _ & _ & Htp & _).
    set (rp := filter (λ t, t ∉ system_tasks) (elements tasks_pending)) in *.
    set (sp := filter (λ t, t ∉ root_tasks) (elements tasks_pending)) in *.
    assert (Hrp : ∀ t, t ∈ rp → t ∈ root_tasks).
    { intros t. unfold rp. rewrite list_elem_of_filter, elem_of_elements, Htp,
        elem_of_list_to_set, list_elem_of_filter, elem_of_app. tauto. }
    assert (Hsp : ∀ t, t ∈ sp → t ∈ system_tasks).
    { intros t. unfold sp. rewrite list_elem_of_filter, elem_of_elements, Htp,
        elem_of_list_to_set, list_elem_of_filter, elem_of_app. tauto. }
    rewrite bind_run in H.
    destruct (stop rp "Root" false None W1) as [r2 W2] eqn:E2.
    destruct (stop_log _ _ _ _ _ _ _ E2 I) as (l2 & Hl2 & Hp2 & Hf2).
    pose proof (shaped_root W W1 W2 rp l2 sh1 Hl2 Hp2 Hf2) as sh2.
    destruct r2 as [[root_cancelled ?]|?|];
      [|shaped_done H sh2|shaped_done H sh2].
    rewrite bind_run in H.
    destruct (stop sp "System" false None W2) as [r3 W3] eqn:E3.
    destruct (stop_log _ _ _ _ _ _ _ E3 I) as (l3 & Hl3 & Hp3 & Hf3).
    pose proof (shaped_system W W2 W3 rp sp l3 sh2 Hl3 Hp3 Hf3) as sh3.
    destruct r3 as [[system_cancelled ?]|?|];
      [|shaped_done H sh3|shaped_done H sh3].
    destruct (all_tasks_spec ignored W3) as (hung & Ea & Hhung).
    rewrite bind_run, Ea in H.
    set (W4 := set_log (log W3 ++ [(now W3, EvAllTasks (elements hung))]) W3) in *.
    assert (sh4 : shaped W W4 rp sp []).
    { by apply (shaped_quiet W W3 W4 rp sp [] [(now W3, EvAllTasks (elements hung))]);
        [| |  |apply Forall_singleton]. }
    assert (Hh : ∀ t, t ∈ elements hung → t ∉ ignored).
    { intros t Ht. apply elem_of_elements, Hhung in Ht. tauto. }
    rewrite bind_run, try_run in H.
    destruct (wait (elements hung) (Some 5) ALL_COMPLETED W4) as [r5 W5] eqn:E5.
    destruct (wait_log _ _ _ _ _ _ E5 I) as (l5 & Hl5 & Hp5 & Hf5).
    pose proof (shaped_quiet W W4 W5 rp sp [] l5 sh4 Hl5 Hp5 Hf5) as sh5.
    destruct r5 as [[hung_done hung_pending]|[|e]|];
      [| |shaped_done H sh5|shaped_done H sh5].
    + apply wait_spec in E5 as (_ & _ & _ & _ & Hhp & _).
      assert (Hhp' : ∀ t, t ∈ elements hung_pending → t ∉ ignored).
      { intros t. rewrite elem_of_elements, Hhp, elem_of_list_to_set,
          list_elem_of_filter. intros [_ Ht]. by apply Hh. }
      rewrite bind_run in H.
      destruct (stop (elements hung_pending) "Hung" false (Some 1) W5)
        as [r6 W6] eqn:E6.
      destruct (stop_log _ _ _ _ _ _ _ E6 I) as (l6 & Hl6 & Hp6 & Hf6).
      pose proof (shaped_hung W W5 W6 rp sp _ l6 sh5 Hl6 Hp6 Hf6) as sh6.
      destruct r6 as [[hung_cancelled ?]|?|];
        [|shaped_done H sh6|shaped_done H sh6].
      unfold reraise in H. shaped_done H sh6.
    + rewrite bind_run in H.
      destruct (stop (elements hung) "Hung" true (Some 1) W5) as [r6 W6] eqn:E6.
      destruct (stop_log _ _ _ _ _ _ _ E6 I) as (l6 & Hl6 & Hp6 & Hf6).
      pose proof (shaped_hung W W5 W6 rp sp _ l6 sh5 Hl6 Hp6 Hf6) as sh6.
      destruct r6 as [[? ?]|?|]; unfold raise in H; shaped_done H sh6.
  - (* the call itself is cancelled *)
    rewrite bind_run in H.
    destruct (stop root_tasks "Root" true (Some 10) W1) as [r2 W2] eqn:E2.
    destruct (stop_log _ _ _ _ _ _ _ E2 I) as (l2 & Hl2 & Hp2 & Hf2).
    pose proof (shaped_root W W1 W2 _ l2 sh1 Hl2 Hp2 Hf2) as sh2.
    destruct r2 as [[? ?]|?|]; [|shaped_done H sh2|shaped_done H sh2].
    rewrite bind_run in H.
    destruct (stop system_tasks "System" true (Some 10) W2) as [r3 W3] eqn:E3.
    destruct (stop_log _ _ _ _ _ _ _ E3 I) as (l3 & Hl3 & Hp3 & Hf3).
    pose proof (shaped_system W W2 W3 _ _ l3 sh2 Hl3 Hp3 Hf3) as sh3.
    destruct r3 as [[? ?]|?|]; [|shaped_done H sh3|shaped_done H sh3].
    destruct (all_tasks_spec ignored W3) as (hung & Ea & Hhung).
    rewrite bind_run, Ea in H.
    set (W4 := set_log (log W3 ++ [(now W3, EvAllTasks (elements hung))]) W3) in *.
    assert (sh4 : shaped W W4 root_tasks system_tasks []).
    { by apply (shaped_quiet W W3 W4 _ _ [] [(now W3, EvAllTasks (elements hung))]);
        [| |  |apply Forall_singleton]. }
    assert (Hh : ∀ t, t ∈ elements hung → t ∉ ignored).
    { intros t Ht. apply elem_of_elements, Hhung in Ht. tauto. }
    rewrite bind_run in H.
    destruct (stop (elements hung) "Hung" true (Some 1) W4) as [r6 W6] eqn:E6.
    destruct (stop_log _ _ _ _ _ _ _ E6 I) as (l6 & Hl6 & Hp6 & Hf6).
    pose proof (shaped_hung W W4 W6 _ _ _ l6 sh4 Hl6 Hp6 Hf6) as sh6.
    destruct r6 as [[? ?]|?|]; unfold raise in H; shaped_done H sh6.
Qed.

(** * [run_tasks]: cancelled from outside *)







(** * [_startup_cleanup_activities]: the runs *)

(** A step that cancels no task and leaves the started-flag alone. *)
Definition calm (W W' : World) : Prop :=
  evolves W W' ∧ cancelled W' = cancelled W ∧ started W' = started W.

Definition startup_warning : string :=
  "Startup activity is only partially executed due to cancellation.".
Definition waiting_warning : string :=
  "Cleanup activity is not executed at all due to cancellation.".
Definition cleanup_warning : string :=
  "Cleanup activity is only partially executed due to cancellation.".

Definition ready_log (ready_flag : option Flag) (T : nat) : list (nat * event) :=
  match ready_flag with
  | Some _ => [(T, EvReadyRaised)]
  | None => []
  end.

Definition is_wait (x : nat * event) : bool :=
  match x.2 with
  | EvWait _ _ _ => true
  | _ => false
  end.

(** How the run ends once the cleanup activity has begun, at [T4]. *)
Inductive cleanup_end (T4 : nat) : Res unit → list (nat * event) → Prop :=
| CleanupCancelled (Tc : nat) :
    cleanup_end T4 (Raise CancelledError) [(Tc, EvWarn cleanup_warning)]
| CleanupFailed (e : error) :
    cleanup_end T4 (Raise (Error e)) []
| VaultCancelled (T5 Tc : nat) :
    T4 ≤ T5 →
    cleanup_end T4 (Raise CancelledError)
      [(T5, EvActivityEnd CLEANUP); (Tc, EvWarn cleanup_warning)]
| CleanupDone (T5 T6 : nat) :
    T4 ≤ T5 → T5 ≤ T6 →
    cleanup_end T4 (Ok tt) [(T5, EvActivityEnd CLEANUP); (T6, EvVaultClosed)].

(** How the run goes on once the gate is open: it sleeps for ever; or it is
    woken by a cancellation and waits for the other tasks, where it is
    cancelled again, or waits for ever, or goes on to the cleanup at a time
    [T4] at which all the other root and system tasks are done. *)
Inductive after_gate (W : World) : Res unit → list (nat * event) → Prop :=
| Sleeping :
    after_gate W Hang []
| WaitCancelled (wl : list (nat * event)) (Tc : nat) :
    Forall (λ x, is_wait x) wl →
    after_gate W (Raise CancelledError) (wl ++ [(Tc, EvWarn waiting_warning)])
| WaitForever (wl : list (nat * event)) :
    Forall (λ x, is_wait x) wl →
    after_gate W Hang wl
| Cleanup (wl : list (nat * event)) (T4 : nat) (post : list (nat * event))
    (r : Res unit) :
    Forall (λ x, is_wait x) wl →
    (∀ t, t ∈ live_root W ++ live_system W → t ≠ self (env W) → done_at W T4 t) →
    cleanup_end T4 r post →
    after_gate W r (wl ++ (T4, EvActivityBegin CLEANUP) :: post).

(** The runs of [_startup_cleanup_activities]. *)
Inductive runner_run (ready_flag : option Flag) (W : World) (r : Res unit)
    (W' : World) : Prop :=
| StartupCancelled (Tc : nat) :
    r = Raise CancelledError →
    log W' = log W ++ [(now W, starting W);
                       (now W, EvActivityBegin STARTUP);
                       (Tc, EvWarn startup_warning)] →
    started W' = started W →
    runner_run ready_flag W r W'
| StartupFailed (e : error) :
    r = Raise (Error e) →
    (activities (env W) STARTUP).2 = Some e →
    log W' = log W ++ [(now W, starting W);
                       (now W, EvActivityBegin STARTUP)] →
    started W' = started W →
    runner_run ready_flag W r W'
| GateOpened (T1 : nat) (rest : list (nat * event)) :
    T1 = now W + (activities (env W) STARTUP).1 →
    (activities (env W) STARTUP).2 = None →
    log W' = log W ++ [(now W, starting W);
                       (now W, EvActivityBegin STARTUP);
                       (T1, EvActivityEnd STARTUP);
                       (T1, EvStartedSet)] ++ ready_log ready_flag T1 ++ rest →
    started W' = Some (match started W with Some s => s `min` T1 | None => T1 end) →
    after_gate W r rest →
    runner_run ready_flag W r W'.

#[global] Instance calm_refl : Reflexive calm.
Proof. intros W. by split. Qed.

#[global] Instance calm_trans : Transitive calm.
Proof.
  intros W1 W2 W3 (H1 & Hc1 & Hs1) (H2 & Hc2 & Hs2).
  split; [by etrans|]. split; congruence.
Qed.

Lemma suspend_calm (wake : option nat) (W : World) (r : Res unit) (W' : World) :
  suspend wake W = (r, W') → calm W W'.
Proof.
  intros H. pose proof H as H'. apply suspend_spec in H' as (Hev & Hc & _).
  split; [done|]. split; [done|]. unfold suspend in H.
  destruct (cancels W), wake; repeat case_bool_decide; by simplify_eq.
Qed.

Lemma emit_calm (ev : event) (W : World) :
  calm W (set_log (log W ++ [(now W, ev)]) W).
Proof. split; [apply emit_evolves|done]. Qed.

Lemma wait_calm (ts : list nat) (timeout : option nat) (rw : return_when)
    (W : World) (r : Res (gset nat * gset nat)) (W' : World) :
  wait ts timeout rw W = (r, W') → calm W W'.
Proof.
  intros H. pose proof H as H'. apply wait_spec in H' as (Hev & Hc & _).
  split; [done|]. split; [done|]. unfold wait in H.
  destruct (decide (ts = [])); [by inversion H|].
  rewrite bind_run, emit_run, bind_run in H. unfold get_world at 1 in H.
  rewrite bind_run in H.
  destruct (suspend _ _) as [[[]|e|] W2] eqn:E; apply suspend_calm in E as (_ & _ & Hs);
    [rewrite bind_run in H; unfold get_world in H| |]; by inversion H; subst.
Qed.

Lemma run_activity_spec (a : Activity) (W : World) (r : Res unit) (W' : World) :
  run_activity a W = (r, W') →
  calm W W' ∧
  match r with
  | Ok _ =>
      (activities (env W) a).2 = None ∧
      now W' = now W + (activities (env W) a).1 ∧
      log W' = log W ++ [(now W, EvActivityBegin a); (now W', EvActivityEnd a)]
  | Raise CancelledError =>
      log W' = log W ++ [(now W, EvActivityBegin a)]
  | Raise (Error e) =>
      (activities (env W) a).2 = Some e ∧
      log W' = log W ++ [(now W, EvActivityBegin a)]
  | Hang => False
  end.
Proof.
  unfold run_activity. intros H. rewrite bind_run, emit_run, bind_run in H.
  unfold get_world at 1 in H. rewrite bind_run in H.
  set (W1 := set_log (log W ++ [(now W, EvActivityBegin a)]) W) in *.
  assert (Hc1 : calm W W1) by apply emit_calm.
  destruct (suspend _ W1) as [[[]|e|] W2] eqn:E.
  - pose proof (suspend_calm _ _ _ _ E) as Hc2.
    apply suspend_spec in E as (_ & _ & Hl & w & Hw & Hn & _).
    simplify_eq. change (env W1) with (env W) in *. change (now W1) with (now W) in *.
    destruct (activities (env W) a).2 as [e|] eqn:Ha.
    + inversion H; subst. split; [by etrans|]. split; [done|]. by rewrite Hl.
    + rewrite emit_run in H. inversion H; subst. split.
      { etrans; [exact Hc1|]. etrans; [exact Hc2|]. apply emit_calm. }
      simpl. split; [done|]. split; [lia|]. rewrite Hl. simpl.
      by rewrite <-app_assoc.
  - pose proof (suspend_calm _ _ _ _ E) as Hc2.
    apply suspend_spec in E as (_ & _ & Hl & -> & _).
    inversion H; subst. split; [by etrans|]. by rewrite Hl.
  - apply suspend_spec in E as (_ & _ & _ & Hw & _). done.
Qed.

(** The try-blocks of [_startup_cleanup_activities], by name. *)
Definition wait_for_others : Coro unit :=
  current_task ← current_task;
  W ← get_world;
  let awaited_root_tasks : gset nat :=
    list_to_set (filter (λ task, task ≠ current_task) (live_root W)) in
  wait (elements awaited_root_tasks) None ALL_COMPLETED;;
  W ← get_world;
  let awaited_system_tasks : gset nat :=
    list_to_set (filter (λ task, task ≠ current_task) (live_system W)) in
  wait (elements awaited_system_tasks) None ALL_COMPLETED;;
  mret tt.

Definition cleanup_block : Coro unit :=
  try_except_cancelled
    (run_activity CLEANUP;;
     vault_close_)
    (emit (EvWarn cleanup_warning);;
     raise CancelledError).

Definition gate_onwards : Coro unit :=
  try_except_cancelled (suspend None) (mret tt);;
  try_except_cancelled
    wait_for_others
    (emit (EvWarn waiting_warning);;
     raise CancelledError);;
  cleanup_block.

Lemma runner_unfold (ready_flag : option Flag) :
  _startup_cleanup_activities ready_flag =
    ((W ← get_world; emit (starting W));;
     try_except_cancelled
       (run_activity STARTUP)
       (emit (EvWarn startup_warning);;
        raise CancelledError);;
     started_flag_set;;
     raise_flag ready_flag;;
     gate_onwards).
Proof. reflexivity. Qed.

Lemma wait_entry_is_wait (ts : list nat) (timeout : option nat) (rw : return_when)
    (T : nat) :
  Forall (λ x, is_wait x)
    (if decide (ts = []) then [] else [(T, EvWait ts timeout rw)]).
Proof. destruct (decide (ts = [])); [done|]. by apply Forall_singleton. Qed.

Lemma wait_for_others_spec (W : World) (r : Res unit) (W' : World) :
  wait_for_others W = (r, W') →
  calm W W' ∧
  ∃ wl, log W' = log W ++ wl ∧ Forall (λ x, is_wait x) wl ∧
    match r with
    | Ok _ => ∀ t, t ∈ live_root W ++ live_system W → t ≠ self (env W) →
                   is_done W' t
    | Raise e => e = CancelledError
    | Hang => True
    end.
Proof.
  unfold wait_for_others. intros H.
  rewrite bind_run in H. unfold current_task at 1 in H.
  rewrite bind_run in H. unfold get_world at 1 in H.
  run_bind H as [d1 p1] W1 E1.
  - pose proof (wait_calm _ _ _ _ _ _ E1) as Hc1.
    apply wait_spec in E1 as (Hev1 & _ & Hl1 & _ & _ & _ & _ & Hall1 & _).
    rewrite bind_run in H. unfold get_world at 1 in H.
    run_bind H as [d2 p2] W2 E2.
    + pose proof (wait_calm _ _ _ _ _ _ E2) as Hc2.
      apply wait_spec in E2 as (Hev2 & _ & Hl2 & _ & _ & _ & _ & Hall2 & _).
      inversion H; subst. split; [by etrans|].
      eexists. split; [by rewrite Hl2, Hl1, <-app_assoc|]. split.
      * apply Forall_app. split; apply wait_entry_is_wait.
      * intros t Ht Hne. apply elem_of_app in Ht as [Ht|Ht].
        -- apply (is_done_mono _ _ _ Hev2).
           destruct (Hall1 eq_refl) as [Hall|(? & ? & _)]; [|done].
           apply Hall. rewrite elem_of_elements, elem_of_list_to_set,
             list_elem_of_filter. done.
        -- destruct (Hall2 eq_refl) as [Hall|(? & ? & _)]; [|done].
           apply Hall. rewrite elem_of_elements, elem_of_list_to_set,
             list_elem_of_filter. rewrite (ev_live_system _ _ Hev1). done.
    + pose proof (wait_calm _ _ _ _ _ _ E2) as Hc2.
      apply wait_spec in E2 as (Hev2 & _ & Hl2 & -> ).
      inversion H; subst. split; [by etrans|].
      eexists. split; [by rewrite Hl2, Hl1, <-app_assoc|]. split; [|done].
      apply Forall_app. split; apply wait_entry_is_wait.
    + pose proof (wait_calm _ _ _ _ _ _ E2) as Hc2.
      apply wait_spec in E2 as (Hev2 & _ & Hl2 & _ ).
      inversion H; subst. split; [by etrans|].
      eexists. split; [by rewrite Hl2, Hl1, <-app_assoc|]. split; [|done].
      apply Forall_app. split; apply wait_entry_is_wait.
  - pose proof (wait_calm _ _ _ _ _ _ E1) as Hc1.
    apply wait_spec in E1 as (Hev1 & _ & Hl1 & ->).
    inversion H; subst. split; [done|].
    eexists. split; [exact Hl1|]. split; [|done].
    apply wait_entry_is_wait.
  - pose proof (wait_calm _ _ _ _ _ _ E1) as Hc1.
    apply wait_spec in E1 as (Hev1 & _ & Hl1 & _).
    inversion H; subst. split; [done|].
    eexists. split; [exact Hl1|]. split; [|done].
    apply wait_entry_is_wait.
Qed.

Lemma vault_close_spec (W : World) (r : Res unit) (W' : World) :
  vault_close_ W = (r, W') →
  calm W W' ∧
  match r with
  | Ok _ => log W' = log W ++ [(now W', EvVaultClosed)]
  | Raise e => e = CancelledError ∧ log W' = log W
  | Hang => False
  end.
Proof.
  unfold vault_close_. intros H. rewrite bind_run in H. unfold get_world in H.
  run_bind H as [] W1 E.
  - pose proof (suspend_calm _ _ _ _ E) as Hc.
    apply suspend_spec in E as (_ & _ & Hl & _).
    rewrite emit_run in H. inversion H; subst. split.
    + etrans; [exact Hc|apply emit_calm].
    + simpl. by rewrite Hl.
  - pose proof (suspend_calm _ _ _ _ E) as Hc.
    apply suspend_spec in E as (_ & _ & Hl & -> & _). by inversion H; subst.
  - by apply suspend_spec in E as (_ & _ & _ & ? & _).
Qed.

Lemma cleanup_block_spec (W : World) (r : Res unit) (W' : World) :
  cleanup_block W = (r, W') →
  calm W W' ∧
  ∃ post, log W' = log W ++ (now W, EvActivityBegin CLEANUP) :: post ∧
          cleanup_end (now W) r post.
Proof.
  unfold cleanup_block. intros H. rewrite try_run, bind_run in H.
  destruct (run_activity CLEANUP W) as [[[]|[|e]|] W1] eqn:E1;
    apply run_activity_spec in E1 as [Hc1 Hr1]; [| | |done].
  - destruct Hr1 as (_ & Hn1 & Hl1).
    destruct (vault_close_ W1) as [[[]|[|e]|] W2] eqn:E2;
      apply vault_close_spec in E2 as [Hc2 Hr2]; [| |by destruct Hr2|done].
    + inversion H; subst. split; [by etrans|].
      eexists. split; [by rewrite Hr2, Hl1, <-app_assoc|].
      apply CleanupDone; [lia|apply (ev_now _ _ (proj1 Hc2))].
    + destruct Hr2 as [_ Hl2]. rewrite bind_run, emit_run in H.
      inversion H; subst. split.
      { etrans; [exact Hc1|]. etrans; [exact Hc2|]. apply emit_calm. }
      eexists. split; [simpl; by rewrite Hl2, Hl1, <-app_assoc|].
      apply VaultCancelled. lia.
  - rewrite bind_run, emit_run in H. inversion H; subst. split.
    { etrans; [exact Hc1|]. apply emit_calm. }
    eexists. split; [simpl; by rewrite Hr1, <-app_assoc|].
    apply CleanupCancelled.
  - destruct Hr1 as [_ Hl1]. inversion H; subst. split; [done|].
    eexists. split; [by rewrite Hl1|]. apply CleanupFailed.
Qed.

Lemma gate_onwards_spec (W : World) (r : Res unit) (W' : World) :
  gate_onwards W = (r, W') →
  calm W W' ∧ ∃ rest, log W' = log W ++ rest ∧ after_gate W r rest.
Proof.
  unfold gate_onwards. intros H. rewrite bind_run, try_run in H.
  destruct (suspend None W) as [[[]|[|e]|] W1] eqn:E1.
  { by apply suspend_spec in E1 as (_ & _ & _ & ? & ? & _). }
  2:{ by apply suspend_spec in E1 as (_ & _ & _ & ? & _). }
  2:{ apply suspend_spec in E1 as (_ & _ & _ & _ & ->). inversion H; subst.
      split; [done|]. exists []. split; [by rewrite app_nil_r|]. apply Sleeping. }
  pose proof (suspend_calm _ _ _ _ E1) as Hc1.
  apply suspend_spec in E1 as (Hev1 & Hcan1 & Hl1 & _).
  change (@mret Coro Coro_ret unit tt W1) with (@Ok unit tt, W1) in H.
  cbv beta iota in H.
  rewrite bind_run, try_run in H.
  destruct (wait_for_others W1) as [rw W2] eqn:E2.
  apply wait_for_others_spec in E2 as (Hc2 & wl & Hl2 & Hwl & Hr2).
  assert (Hc02 : calm W W2) by (by etrans).
  destruct rw as [[]|e|].
  - destruct (cleanup_block W2) as [rc W3] eqn:E3.
    apply cleanup_block_spec in E3 as (Hc3 & post & Hl3 & Hend).
    inversion H; subst. split; [by etrans|].
    eexists. split; [by rewrite Hl3, Hl2, Hl1, <-app_assoc|].
    apply Cleanup; [done| |done].
    intros t Ht Hne. rewrite <-(ev_live_root _ _ Hev1), <-(ev_live_system _ _ Hev1),
      <-(ev_env _ _ Hev1) in *.
    specialize (Hr2 t Ht Hne). unfold is_done in Hr2.
    destruct Hc02 as (Hev02 & Hcan02 & _).
    by rewrite (done_at_frame W W2) in Hr2
      by (by rewrite ?(ev_scripts _ _ Hev02), ?Hcan02).
  - subst e. rewrite bind_run, emit_run in H. inversion H; subst. split.
    { etrans; [exact Hc02|]. apply emit_calm. }
    eexists. split; [simpl; by rewrite Hl2, Hl1, <-app_assoc|].
    by apply WaitCancelled.
  - inversion H; subst. split; [done|].
    eexists. split; [by rewrite Hl2, Hl1|]. by apply WaitForever.
Qed.

Lemma starting_run {A} (k : unit → Coro A) (W : World) :
  ((W ← get_world; emit (starting W)) ≫= k) W =
    k tt (set_log (log W ++ [(now W, starting W)]) W).
Proof. reflexivity. Qed.

(** Every run of [_startup_cleanup_activities] is one of [runner_run]. *)
Lemma runner_trace (ready_flag : option Flag) (W : World) (r : Res unit) (W' : World) :
  _startup_cleanup_activities ready_flag W = (r, W') →
  runner_run ready_flag W r W'.
Proof.
  rewrite runner_unfold. intros H. rewrite starting_run in H.
  set (W0 := set_log (log W ++ [(now W, starting W)]) W) in *.
  rewrite bind_run, try_run in H.
  destruct (run_activity STARTUP W0) as [[[]|[|e]|] W1] eqn:E1;
    apply run_activity_spec in E1 as [Hc1 Hr1]; [| | |done].
  - destruct Hr1 as (Hnone & Hn1 & Hl1).
    change (env W0) with (env W) in *. change (now W0) with (now W) in *.
    rewrite bind_run in H. unfold started_flag_set at 1 in H.
    set (T1 := now W1) in *.
    set (W2 := set_started _ _) in H.
    assert (∃ W3, raise_flag ready_flag W2 = (Ok tt, W3) ∧
                       log W3 = log W2 ++ ready_log ready_flag T1 ∧ calm W2 W3)
      as (W3 & E3 & Hl3 & Hc3).
    { destruct ready_flag; simpl.
      - eexists. split; [apply emit_run|]. split; [done|apply emit_calm].
      - eexists. split; [done|]. by rewrite app_nil_r. }
    rewrite bind_run, E3 in H.
    apply gate_onwards_spec in H as (Hc4 & rest & Hl4 & Hag).
    apply (GateOpened _ _ _ _ T1 rest); [by subst T1| done | | |].
    + rewrite Hl4, Hl3. simpl. rewrite Hl1. simpl.
      by repeat (rewrite <-?app_assoc; simpl).
    + destruct Hc4 as (_ & _ & ->). destruct Hc3 as (_ & _ & ->). simpl.
      destruct Hc1 as (_ & _ & ->). simpl. done.
    + assert (Hsame : ∀ t T, done_at W3 T t = done_at W T t).
      { intros t T. destruct Hc3 as (Hev3 & Hcan3 & _).
        destruct Hc1 as (Hev1 & Hcan1 & _).
        apply done_at_frame.
        - by rewrite (ev_scripts _ _ Hev3); simpl; rewrite (ev_scripts _ _ Hev1).
        - by rewrite Hcan3; simpl; rewrite Hcan1. }
      destruct Hc3 as (Hev3 & _). destruct Hc1 as (Hev1 & _).
      assert (Hlr : live_root W3 = live_root W).
      { by rewrite (ev_live_root _ _ Hev3); simpl; rewrite (ev_live_root _ _ Hev1). }
      assert (Hls : live_system W3 = live_system W).
      { by rewrite (ev_live_system _ _ Hev3); simpl; rewrite (ev_live_system _ _ Hev1). }
      assert (He : env W3 = env W).
      { by rewrite (ev_env _ _ Hev3); simpl; rewrite (ev_env _ _ Hev1). }
      destruct Hag as [|wl Tc Hwl|wl Hwl|wl T4 post r Hwl Hdone Hend].
      * apply Sleeping.
      * by apply WaitCancelled.
      * by apply WaitForever.
      * apply Cleanup; [done| |done]. intros t Ht Hne.
        rewrite <-Hsame. apply Hdone; [by rewrite Hlr, Hls|by rewrite He].
  - rewrite bind_run, emit_run in H. inversion H; subst.
    apply (StartupCancelled _ _ _ _ (now W1)); [done| |].
    + simpl. rewrite Hr1. simpl. by rewrite <-!app_assoc.
    + simpl. by destruct Hc1 as (_ & _ & ->).
  - destruct Hr1 as [He Hl1]. inversion H; subst.
    apply (StartupFailed _ _ _ _ e); [done|done| |].
    + rewrite Hl1. simpl. by rewrite <-!app_assoc.
    + by destruct Hc1 as (_ & _ & ->).
Qed.

Lemma guarded_spec (name : string) (body : Coro unit) (W : World) (r : Res unit)
    (W' : World) :
  guarded name body W = (r, W') →
  (∃ T1 Wb, started W = Some T1 ∧ T1 ≤ now Wb ∧
            log Wb = log W ++ [(now Wb, EvBody name)] ∧ body Wb = (r, W')) ∨
  ((r = Raise CancelledError ∨ r = Hang) ∧ log W' = log W).
Proof.
  unfold guarded. intros H. rewrite bind_run in H. unfold get_world in H.
  run_bind H as [] W1 E.
  - apply suspend_spec in E as (_ & _ & Hl & w & Hw & Hn & _).
    rewrite bind_run, emit_run in H. left.
    eexists w, _. split; [done|]. split; [|split; [|exact H]]; simpl; [lia|].
    by rewrite Hl.
  - apply suspend_spec in E as (_ & _ & Hl & -> & _). inversion H; subst.
    right. split; [by left|done].
  - apply suspend_spec in E as (_ & _ & Hl & _). inversion H; subst.
    right. split; [by right|done].
Qed.

Lemma is_wait_elem (wl : list (nat * event)) (x : nat * event) :
  Forall (λ x, is_wait x) wl → x ∈ wl → is_wait x.
Proof. intros H Hx. by apply (proj1 (Forall_forall _ _) H). Qed.

(** The events of the gate and of the startup do not come again. *)
Definition after_startup (ev : event) : Prop :=
  ev ≠ EvStartedSet ∧ ev ≠ EvReadyRaised ∧ ev ≠ EvActivityEnd STARTUP ∧
  ev ≠ EvActivityBegin STARTUP.

Lemma after_gate_quiet (W : World) (r : Res unit) (rest : list (nat * event)) :
  after_gate W r rest → Forall (λ x, after_startup x.2) rest.
Proof.
  assert (Hw : ∀ wl, Forall (λ x, is_wait x) wl →
                     Forall (λ x : nat * event, after_startup x.2) wl).
  { intros wl H. eapply Forall_impl; [exact H|]. intros [T ev] Hx. by destruct ev. }
  intros [|wl Tc Hwl|wl Hwl|wl T4 post r' Hwl _ Hend].
  - done.
  - apply Forall_app. split; [by apply Hw|]. by apply Forall_singleton.
  - by apply Hw.
  - apply Forall_app. split; [by apply Hw|]. apply Forall_cons. split; [done|].
    destruct Hend; repeat (apply Forall_cons; split; [done|]); done.
Qed.

Lemma cleanup_end_events (T4 : nat) (r : Res unit) (post : list (nat * event))
    (T : nat) (ev : event) :
  cleanup_end T4 r post → (T, ev) ∈ post →
  ev ≠ EvActivityBegin CLEANUP ∧ ev ≠ EvWarn waiting_warning ∧
  (ev = EvWarn cleanup_warning ∨ T4 ≤ T).
Proof.
  intros [] Hx;
    repeat (apply elem_of_cons in Hx as [Hx|Hx];
            [simplify_eq; split_and!; try done; (by left) || (right; lia)|]);
    by apply elem_of_nil in Hx.
Qed.

Lemma after_gate_cleanup (W : World) (r : Res unit) (rest : list (nat * event)) :
  after_gate W r rest →
  (∀ T, (T, EvActivityBegin CLEANUP) ∈ rest ∨ (T, EvActivityEnd CLEANUP) ∈ rest ∨
        (T, EvVaultClosed) ∈ rest →
        ∀ t, t ∈ live_root W ++ live_system W → t ≠ self (env W) → done_at W T t) ∧
  (∀ Tc, (Tc, EvWarn waiting_warning) ∈ rest →
         r = Raise CancelledError ∧
         ∀ T, ((T, EvActivityBegin CLEANUP) ∉ rest) ∧ ((T, EvVaultClosed) ∉ rest)).
Proof.
  intros [|wl Tc Hwl|wl Hwl|wl T4 post r' Hwl Hdone Hend].
  - split; [intros T [H|[H|H]]|intros T H]; by apply elem_of_nil in H.
  - split.
    + intros T H. exfalso.
      destruct H as [H|[H|H]]; apply elem_of_app in H as [H|H];
        try (by apply (is_wait_elem _ _ Hwl) in H);
        by apply list_elem_of_singleton in H.
    + intros _ _. split; [done|]. intros T.
      split; intros H; apply elem_of_app in H as [H|H];
        try (by apply (is_wait_elem _ _ Hwl) in H);
        by apply list_elem_of_singleton in H.
  - split.
    + intros T H. exfalso.
      destruct H as [H|[H|H]]; by apply (is_wait_elem _ _ Hwl) in H.
    + intros Tc H. by apply (is_wait_elem _ _ Hwl) in H.
  - split.
    + intros T H t Ht Hne. apply (done_at_mono W T4); [|by apply Hdone].
      destruct H as [H|[H|H]]; apply elem_of_app in H as [H|H];
        try (by apply (is_wait_elem _ _ Hwl) in H);
        apply elem_of_cons in H as [H|H]; simplify_eq; try done;
        by destruct (cleanup_end_events _ _ _ _ _ Hend H) as (? & ? & [?|?]).
    + intros Tc H. exfalso. apply elem_of_app in H as [H|H];
        [by apply (is_wait_elem _ _ Hwl) in H|].
      apply elem_of_cons in H as [H|H]; [done|].
      by destruct (cleanup_end_events _ _ _ _ _ Hend H) as (? & ? & _).
Qed.

(** * [_startup_cleanup_activities]: the gate opens after the startup *)

Lemma runner_startup_cancelled (ready_flag : option Flag) (W : World)
    (c : nat) (cs : list nat) :
  cancels W = c :: cs →
  c ≤ now W + (activities (env W) STARTUP).1 →
  _startup_cleanup_activities ready_flag W =
    (Raise CancelledError,
     set_log (log W ++ [(now W, starting W);
                        (now W, EvActivityBegin STARTUP);
                        (now W `max` c, EvWarn startup_warning)])
       (set_cancels cs (set_now (now W `max` c) W))).
Proof.
  intros Hcs Hc. rewrite runner_unfold. rewrite starting_run.
  rewrite bind_run, try_run. unfold run_activity.
  rewrite bind_run, emit_run, bind_run. unfold get_world at 1.
  rewrite bind_run. erewrite (suspend_reached _ c cs); [|done|simpl; lia].
  rewrite bind_run, emit_run. unfold raise, set_log, set_cancels, set_now. simpl.
  by rewrite <-!app_assoc.
Qed.

(** C4: the started-flag is set, and then the ready-flag raised, right
    after the startup activity has completed, and at no other point; a
    guarded task begins its body no earlier than that, and never when the
    gate was not opened; and a cancellation that comes by the time the
    startup activity would complete leaves the gate closed and is raised
    again. *)
Theorem gate_opens_after_startup (ready_flag : option Flag) (W : World) :
  started W = None →
  (∀ r W', _startup_cleanup_activities ready_flag W = (r, W') →
     (started W' = None ∧
      (r = Raise CancelledError ∨ ∃ e, r = Raise (Error e)) ∧
      ∃ l, log W' = log W ++ l ∧
           ∀ T, ((T, EvStartedSet) ∉ l) ∧ ((T, EvReadyRaised) ∉ l) ∧
                ((T, EvActivityEnd STARTUP) ∉ l)) ∨
     (∃ T1 rest,
        (activities (env W) STARTUP).2 = None ∧
        T1 = now W + (activities (env W) STARTUP).1 ∧
        started W' = Some T1 ∧
        log W' = log W ++ [(now W, starting W);
                           (now W, EvActivityBegin STARTUP);
                           (T1, EvActivityEnd STARTUP);
                           (T1, EvStartedSet)] ++ ready_log ready_flag T1 ++ rest ∧
        Forall (λ x, after_startup x.2) rest)) ∧
  (∀ c cs, cancels W = c :: cs →
           c ≤ now W + (activities (env W) STARTUP).1 →
           ∃ W' Tc, _startup_cleanup_activities ready_flag W = (Raise CancelledError, W') ∧
                    started W' = None ∧
                    log W' = log W ++ [(now W, starting W);
                                       (now W, EvActivityBegin STARTUP);
                                       (Tc, EvWarn startup_warning)]) ∧
  (∀ r W' name body Wg rg Wg',
     _startup_cleanup_activities ready_flag W = (r, W') →
     started Wg = started W' →
     guarded name body Wg = (rg, Wg') →
     ((rg = Raise CancelledError ∨ rg = Hang) ∧ log Wg' = log Wg) ∨
     (∃ T1 l Wb,
        log W' = log W ++ l ∧ (T1, EvActivityEnd STARTUP) ∈ l ∧
        T1 ≤ now Wb ∧
        log Wb = log Wg ++ [(now Wb, EvBody name)] ∧
        body Wb = (rg, Wg'))).
Proof.
  intros Hclosed.
  assert (Hruns : ∀ r W', _startup_cleanup_activities ready_flag W = (r, W') →
     (started W' = None ∧
      (r = Raise CancelledError ∨ ∃ e, r = Raise (Error e)) ∧
      ∃ l, log W' = log W ++ l ∧
           ∀ T, ((T, EvStartedSet) ∉ l) ∧ ((T, EvReadyRaised) ∉ l) ∧
                ((T, EvActivityEnd STARTUP) ∉ l)) ∨
     (∃ T1 rest,
        (activities (env W) STARTUP).2 = None ∧
        T1 = now W + (activities (env W) STARTUP).1 ∧
        started W' = Some T1 ∧
        log W' = log W ++ [(now W, starting W);
                           (now W, EvActivityBegin STARTUP);
                           (T1, EvActivityEnd STARTUP);
                           (T1, EvStartedSet)] ++ ready_log ready_flag T1 ++ rest ∧
        Forall (λ x, after_startup x.2) rest)).
  { intros r W' Hrun.
    destruct (runner_trace _ _ _ _ Hrun)
      as [Tc Hr Hl Hs|e Hr He Hl Hs|T1 rest HT1 Hnone Hl Hs Hag].
    - left. split; [congruence|]. split; [by left|]. eexists. split; [exact Hl|].
      intros T. split_and!; intros Hin;
        repeat (apply elem_of_cons in Hin as [Hin|Hin]; [done|]);
        by apply elem_of_nil in Hin.
    - left. split; [congruence|]. split; [right; eauto|]. eexists. split; [exact Hl|].
      intros T. split_and!; intros Hin;
        repeat (apply elem_of_cons in Hin as [Hin|Hin]; [done|]);
        by apply elem_of_nil in Hin.
    - right. exists T1, rest. rewrite Hclosed in Hs. split_and!; try done.
      by apply (after_gate_quiet W r). }
  split; [exact Hruns|]. split.
  - intros c cs Hcs Hc. eexists _, _. split; [by apply (runner_startup_cancelled _ _ c cs)|].
    by split.
  - intros r W' name body Wg rg Wg' Hrun Hgate Hg.
    destruct (guarded_spec _ _ _ _ _ Hg) as [(T1 & Wb & Hst & Hle & Hlb & Hbody)|?];
      [|by left].
    right. destruct (Hruns r W' Hrun) as [(Hnone & _)|(T1' & rest & _ & _ & Hs & Hl & _)].
    + congruence.
    + assert (T1' = T1) as -> by congruence.
      eexists T1, _, Wb. split; [exact Hl|]. split; [|done].
      do 2 right. by left.
Qed.

Lemma gate_opens_after_startup_witness :
  ∃ W' Tc,
    _startup_cleanup_activities None (set_cancels [1] sample_world)
      = (Raise CancelledError, W') ∧
    started W' = None ∧
    log W' = log (set_cancels [1] sample_world) ++
               [(now (set_cancels [1] sample_world), EvDebug "Starting Kopf 1.36.2.");
                (now (set_cancels [1] sample_world), EvActivityBegin STARTUP);
                (Tc, EvWarn startup_warning)].
Proof.
  apply (proj1 (proj2 (gate_opens_after_startup None (set_cancels [1] sample_world)
                         eq_refl)) 1 []).
  - reflexivity.
  - simpl. lia.
Defined.

(** * [_startup_cleanup_activities]: the cleanup comes after the others *)

Lemma suspend_late (w c : nat) (cs : list nat) (W : World) :
  cancels W = c :: cs → now W `max` w < c →
  suspend (Some w) W = (Ok tt, set_now (now W `max` w) W).
Proof. unfold suspend. intros -> Hw. by rewrite bool_decide_eq_false_2 by lia. Qed.

Lemma run_activity_late (a : Activity) (W : World) (c : nat) (cs : list nat) :
  cancels W = c :: cs →
  now W + (activities (env W) a).1 < c →
  (activities (env W) a).2 = None →
  ∃ W1, run_activity a W = (Ok tt, W1) ∧
        cancels W1 = c :: cs ∧ scripts W1 = scripts W ∧
        cancelled W1 = cancelled W ∧ live_root W1 = live_root W ∧
        env W1 = env W ∧ started W1 = started W ∧ prefix (log W) (log W1).
Proof.
  intros Hcs Hc Hnone. unfold run_activity.
  rewrite bind_run, emit_run. cbv beta iota zeta.
  rewrite bind_run. unfold get_world at 1. cbv beta iota zeta.
  rewrite bind_run. rewrite (suspend_late _ c cs) by (simpl; first [done|lia]).
  cbv beta iota zeta. change (env (set_log _ W)) with (env W). rewrite Hnone.
  rewrite emit_run. eexists. split; [reflexivity|]. simpl.
  split_and!; try done. rewrite <-app_assoc. by apply prefix_app_r.
Qed.

(** A cancellation that comes after the startup finds the runner asleep
    behind the open gate. *)
Lemma runner_reaches_gate (ready_flag : option Flag) (W : World) (c : nat)
    (cs : list nat) :
  cancels W = c :: cs →
  now W + (activities (env W) STARTUP).1 < c →
  (activities (env W) STARTUP).2 = None →
  ∃ W3, _startup_cleanup_activities ready_flag W = gate_onwards W3 ∧
        cancels W3 = c :: cs ∧ scripts W3 = scripts W ∧
        cancelled W3 = cancelled W ∧ live_root W3 = live_root W ∧
        env W3 = env W ∧ prefix (log W) (log W3).
Proof.
  intros Hcs Hc Hnone. rewrite runner_unfold. rewrite starting_run.
  cbv beta iota zeta. rewrite bind_run, try_run.
  destruct (run_activity_late STARTUP
              (set_log (log W ++ [(now W, starting W)]) W) c cs)
    as (W1 & -> & Hcs1 & Hs1 & Hcan1 & Hlr1 & He1 & _ & Hl1); [done..|].
  cbv beta iota zeta. rewrite bind_run. unfold started_flag_set at 1.
  cbv beta iota zeta. rewrite bind_run.
  assert (Hl : prefix (log W) (log W1)).
  { etrans; [|exact Hl1]. by apply prefix_app_r. }
  destruct ready_flag as [f|]; simpl raise_flag.
  - rewrite emit_run. eexists. split; [reflexivity|]. simpl.
    split_and!; try done. rewrite <-!app_assoc. by apply prefix_app_r.
  - eexists. split; [reflexivity|]. simpl.
    split_and!; try done. by apply prefix_app_r.
Qed.

(** Woken by a first cancellation, the runner waits for the other root
    tasks; a second cancellation that comes before they are all done ends
    the run there. *)
Lemma gate_onwards_wait_cancelled (W : World) (c1 c2 : nat) (cs : list nat) :
  cancels W = c1 :: c2 :: cs →
  filter (λ task, task ≠ self (env W)) (live_root W) ≠ [] →
  (∀ w, all_done W (elements (list_to_set (C := gset nat)
          (filter (λ task, task ≠ self (env W)) (live_root W)))) = Some w → c2 < w) →
  ∃ W' Tc l, gate_onwards W = (Raise CancelledError, W') ∧
             log W' = log W ++ l ++ [(Tc, EvWarn waiting_warning)].
Proof.
  intros Hcs Hne Hlate. unfold gate_onwards.
  rewrite bind_run, try_run. rewrite (suspend_cancelled None c1 (c2 :: cs)) by done.
  change (@mret Coro Coro_ret unit tt ?W1) with (@Ok unit tt, W1). cbv beta iota.
  rewrite bind_run, try_run. unfold wait_for_others.
  rewrite bind_run. unfold current_task at 1. rewrite bind_run.
  unfold get_world at 1. rewrite bind_run.
  set (W1 := set_cancels _ _).
  set (ts := elements _).
  assert (Hts : ts ≠ []).
  { subst ts. intros Hnil. apply elements_empty_inv in Hnil.
    destruct (filter _ (live_root W)) as [|t l] eqn:E; [done|].
    apply (not_elem_of_empty (C := gset nat) t). rewrite <-Hnil.
    change (live_root W1) with (live_root W). change (env W1) with (env W).
    rewrite E. apply elem_of_list_to_set. by left. }
  destruct (wait_cancelled ts None ALL_COMPLETED W1 c2 cs Hts eq_refl)
    as (W2 & E2 & _ & _).
  { unfold deadline. rewrite (all_done_ext W W1) by done.
    destruct (all_done W ts) as [w|] eqn:E; [|done]. by apply Hlate. }
  pose proof E2 as E2'. apply wait_spec in E2' as (_ & _ & Hl2 & _).
  rewrite E2, bind_run, emit_run. unfold raise.
  eexists _, _, _. split; [reflexivity|]. simpl. rewrite Hl2. simpl.
  by rewrite <-app_assoc.
Qed.

Definition runner_world : World :=
  mkWorld sample_env 0 sample_tasks ∅ [4; 6] None [] [] [1; 100] [2; 3; 100] None [].

(** C5: the cleanup activity and the closing of the vault happen only at
    times at which every root task and every system task other than the
    runner itself is done; a run whose wait for those tasks is cancelled
    raises the cancellation and never begins the cleanup activity nor
    closes the vault; and a second cancellation that comes while the other
    root tasks are still running does end the run in this way. *)
Theorem cleanup_after_others (ready_flag : option Flag) (W : World) :
  (∀ r W', _startup_cleanup_activities ready_flag W = (r, W') →
     ∃ l, log W' = log W ++ l ∧
          (∀ T, (T, EvActivityBegin CLEANUP) ∈ l ∨ (T, EvActivityEnd CLEANUP) ∈ l ∨
                (T, EvVaultClosed) ∈ l →
                ∀ t, t ∈ live_root W ++ live_system W → t ≠ self (env W) →
                     done_at W T t) ∧
          (∀ Tc, (Tc, EvWarn waiting_warning) ∈ l →
                 r = Raise CancelledError ∧
                 ∀ T, ((T, EvActivityBegin CLEANUP) ∉ l) ∧ ((T, EvVaultClosed) ∉ l))) ∧
  (∀ c1 c2 cs,
     cancels W = c1 :: c2 :: cs →
     now W + (activities (env W) STARTUP).1 < c1 →
     (activities (env W) STARTUP).2 = None →
     filter (λ task, task ≠ self (env W)) (live_root W) ≠ [] →
     (∀ w, all_done W (elements (list_to_set (C := gset nat)
             (filter (λ task, task ≠ self (env W)) (live_root W)))) = Some w → c2 < w) →
     ∃ W' l Tc,
       _startup_cleanup_activities ready_flag W = (Raise CancelledError, W') ∧
       log W' = log W ++ l ∧ (Tc, EvWarn waiting_warning) ∈ l ∧
       ∀ T, ((T, EvActivityBegin CLEANUP) ∉ l) ∧ ((T, EvVaultClosed) ∉ l)).
Proof.
  assert (Hruns : ∀ r W', _startup_cleanup_activities ready_flag W = (r, W') →
     ∃ l, log W' = log W ++ l ∧
          (∀ T, (T, EvActivityBegin CLEANUP) ∈ l ∨ (T, EvActivityEnd CLEANUP) ∈ l ∨
                (T, EvVaultClosed) ∈ l →
                ∀ t, t ∈ live_root W ++ live_system W → t ≠ self (env W) →
                     done_at W T t) ∧
          (∀ Tc, (Tc, EvWarn waiting_warning) ∈ l →
                 r = Raise CancelledError ∧
                 ∀ T, ((T, EvActivityBegin CLEANUP) ∉ l) ∧ ((T, EvVaultClosed) ∉ l))).
  { intros r W' Hrun.
    destruct (runner_trace _ _ _ _ Hrun)
      as [Tc Hr Hl Hs|e Hr He Hl Hs|T1 rest HT1 Hnone Hl Hs Hag].
    - eexists. split; [exact Hl|]. split.
      + intros T [Hin|[Hin|Hin]];
          repeat (apply elem_of_cons in Hin as [Hin|Hin]; [done|]);
          by apply elem_of_nil in Hin.
      + intros Tc' Hin.
        repeat (apply elem_of_cons in Hin as [Hin|Hin]; [done|]).
        by apply elem_of_nil in Hin.
    - eexists. split; [exact Hl|]. split.
      + intros T [Hin|[Hin|Hin]];
          repeat (apply elem_of_cons in Hin as [Hin|Hin]; [done|]);
          by apply elem_of_nil in Hin.
      + intros Tc' Hin.
        repeat (apply elem_of_cons in Hin as [Hin|Hin]; [done|]).
        by apply elem_of_nil in Hin.
    - destruct (after_gate_cleanup W r rest Hag) as [Hclean Hwarn].
      assert (Hrest : ∀ x, after_startup x.2 →
                x ∈ [(now W, starting W); (now W, EvActivityBegin STARTUP);
                     (T1, EvActivityEnd STARTUP); (T1, EvStartedSet)] ++
                    ready_log ready_flag T1 ++ rest →
                x.2 ≠ starting W → x ∈ rest).
      { intros x (Hx1 & Hx2 & Hx3 & Hx4) Hin Hx5.
        apply elem_of_app in Hin as [Hin|Hin].
        - repeat (apply elem_of_cons in Hin as [->|Hin]; [done|]).
          by apply elem_of_nil in Hin.
        - apply elem_of_app in Hin as [Hin|Hin]; [|done].
          destruct ready_flag; simpl in Hin.
          + apply elem_of_cons in Hin as [->|Hin]; [done|]. by apply elem_of_nil in Hin.
          + by apply elem_of_nil in Hin. }
      eexists. split; [exact Hl|]. split.
      + intros T Hin. apply Hclean.
        destruct Hin as [Hin|[Hin|Hin]]; [left|right; left|right; right];
          by apply Hrest in Hin.
      + intros Tc Hin. apply Hrest in Hin; [|done..].
        destruct (Hwarn Tc Hin) as [-> Hno]. split; [done|].
        intros T. destruct (Hno T) as [Hb Hv].
        split; intros Hin'; apply Hrest in Hin'; done. }
  split; [exact Hruns|].
  intros c1 c2 cs Hcs Hc1 Hnone Hne Hlate.
  destruct (runner_reaches_gate ready_flag W c1 (c2 :: cs) Hcs Hc1 Hnone)
    as (W3 & Heq & Hcs3 & Hs3 & Hcan3 & Hlr3 & He3 & l0 & Hl0).
  destruct (gate_onwards_wait_cancelled W3 c1 c2 cs Hcs3) as (W' & Tc & l3 & Hrun & Hl3).
  { by rewrite He3, Hlr3. }
  { intros w. rewrite He3, Hlr3, (all_done_ext W W3) by done. apply Hlate. }
  rewrite <-Heq in Hrun.
  destruct (Hruns _ _ Hrun) as (l & Hl & _ & Hwarn).
  assert (Hin : (Tc, EvWarn waiting_warning) ∈ l).
  { rewrite Hl3, Hl0, <-app_assoc in Hl. apply app_inv_head in Hl. subst l.
    rewrite !elem_of_app. do 2 right. by left. }
  exists W', l, Tc. split; [done|]. split; [done|]. split; [done|].
  by destruct (Hwarn Tc Hin).
Qed.

Lemma cleanup_after_others_witness :
  ∃ W' l Tc,
    _startup_cleanup_activities None runner_world = (Raise CancelledError, W') ∧
    log W' = log runner_world ++ l ∧ (Tc, EvWarn waiting_warning) ∈ l ∧
    ∀ T, ((T, EvActivityBegin CLEANUP) ∉ l) ∧ ((T, EvVaultClosed) ∉ l).
Proof.
  apply (proj2 (cleanup_after_others None runner_world) 4 6 []).
  - reflexivity.
  - simpl. lia.
  - reflexivity.
  - vm_compute. discriminate.
  - intros w Hw. vm_compute in Hw. discriminate.
Defined.

(** * [_ultimate_termination]: the stop-flag and the timeout *)

(** The world in which the handler of the watchdog runs, once the
    cancellation [c] is delivered. *)
Definition woken (c : nat) (cs : list nat) (W : World) : World :=
  set_cancels cs (set_now (now W `max` c) W).

(** The stop-flag is set by the time [T]. *)
Definition stop_flag_set (stop_flag : option Flag) (T : nat) : Prop :=
  ∃ f, stop_flag = Some f ∧ flag_is_set f T = true.

(** The claim C6 as it is worded: cancelled with the stop-flag set, the
    watchdog arms no timer; cancelled with the stop-flag not set, it arms a
    timer that delivers [SIGKILL] to its own thread. *)
Definition stop_flag_decides (settings : OperatorSettings) (stop_flag : option Flag)
    (W : World) : Prop :=
  ∀ c cs W', cancels W = c :: cs →
    _ultimate_termination settings stop_flag W = (Ok tt, W') →
    (stop_flag_set stop_flag (now W `max` c) → timers W' = timers W) ∧
    (¬ stop_flag_set stop_flag (now W `max` c) →
     ∃ delay, timers W' = timers W ++ [mkTimer (now W `max` c) delay (thread (env W)) SIGKILL]).

Definition no_timeout : OperatorSettings :=
  mkSettings (mkProcess None) (mkPeering false false "default" false 0).

Definition with_timeout (d : nat) : OperatorSettings :=
  mkSettings (mkProcess (Some d)) (mkPeering false false "default" false 0).

Lemma py_not_check (stop_flag : option Flag) (T : nat) :
  py_not ((λ f, flag_is_set f T) <$> stop_flag) = false ↔ stop_flag_set stop_flag T.
Proof.
  unfold stop_flag_set. destruct stop_flag as [f|]; simpl.
  - destruct (flag_is_set f T) eqn:E; split; try done.
    + intros _. by exists f.
    + intros (f' & Hf & Hs). congruence.
  - split; [done|]. by intros (f & ? & _).
Qed.

(** What the watchdog does, in each of its runs. *)
Lemma watchdog_run (settings : OperatorSettings) (stop_flag : option Flag) (W : World) :
  _ultimate_termination settings stop_flag W =
    match cancels W with
    | [] => (Hang, W)
    | c :: cs =>
        if py_not ((λ f, flag_is_set f (now W `max` c)) <$> stop_flag) then
          match ultimate_exiting_timeout (process settings) with
          | Some timeout =>
              (Ok tt,
               set_timers (timers W ++
                             [mkTimer (now W `max` c) timeout (thread (env W)) SIGKILL])
                 (set_log (log W ++
                             [(now W `max` c,
                               EvCallLater timeout (thread (env W)) SIGKILL)])
                    (woken c cs W)))
          | None => (Ok tt, woken c cs W)
          end
        else (Ok tt, woken c cs W)
    end.
Proof.
  unfold _ultimate_termination. rewrite try_run.
  destruct (cancels W) as [|c cs] eqn:Hcs.
  - unfold suspend. by rewrite Hcs.
  - rewrite (suspend_cancelled None c cs) by done.
    rewrite bind_run. unfold check_flag. cbv beta iota zeta.
    change (now (set_cancels cs (set_now (now W `max` c) W))) with (now W `max` c).
    destruct (py_not _); [|done].
    by destruct (ultimate_exiting_timeout (process settings)).
Qed.

Lemma killed_at_armed (W : World) (tm : Timer) (T : nat) :
  killed_at (set_timers (timers W ++ [tm]) W) T =
    killed_at W T || (bool_decide (tm_signal tm = SIGKILL) &&
                      bool_decide (tm_armed tm + tm_delay tm ≤ T)).
Proof. unfold killed_at. simpl. rewrite existsb_app. simpl. by rewrite orb_false_r. Qed.

(** C6, as worded, fails: with no ultimate-exiting timeout configured, a
    watchdog that is cancelled at time 1, while the stop-flag is there and
    is never set, arms no timer. *)
Lemma stop_flag_decides_fails :
  ¬ stop_flag_decides no_timeout (Some (mkFlag None None)) (set_cancels [1] sample_world).
Proof.
  intros H.
  destruct (H 1 [] _ eq_refl eq_refl) as [_ Harm].
  destruct Harm as [delay Harm].
  - intros (f & [= <-] & Hset). done.
  - apply (f_equal length) in Harm. simpl in Harm. lia.
Qed.

(** C6 (amended): a watchdog that is cancelled ends normally, at the time
    of the cancellation; if the stop-flag is set by then, it arms no timer
    and logs nothing; if the stop-flag is not set, or there is none, and a
    timeout is configured, it arms exactly one timer, which delivers
    [SIGKILL] to its own thread that timeout later, so that the process is
    killed from then on; with the timeout set to [None] it arms no timer
    either; and a watchdog that is not cancelled sleeps for ever and arms
    nothing. *)
Theorem watchdog_stop_flag_precedence (settings : OperatorSettings)
    (stop_flag : option Flag) (W : World) :
  (∀ c cs, cancels W = c :: cs →
     ∃ W', _ultimate_termination settings stop_flag W = (Ok tt, W') ∧
           now W' = now W `max` c ∧ cancels W' = cs ∧
           (stop_flag_set stop_flag (now W `max` c) →
            timers W' = timers W ∧ log W' = log W) ∧
           (¬ stop_flag_set stop_flag (now W `max` c) →
            ∀ timeout, ultimate_exiting_timeout (process settings) = Some timeout →
              timers W' = timers W ++
                [mkTimer (now W `max` c) timeout (thread (env W)) SIGKILL] ∧
              log W' = log W ++
                [(now W `max` c, EvCallLater timeout (thread (env W)) SIGKILL)] ∧
              ∀ T, killed_at W' T =
                   killed_at W T || bool_decide (now W `max` c + timeout ≤ T)) ∧
           (ultimate_exiting_timeout (process settings) = None →
            timers W' = timers W ∧ log W' = log W)) ∧
  (cancels W = [] → _ultimate_termination settings stop_flag W = (Hang, W)).
Proof.
  split.
  - intros c cs Hcs. rewrite watchdog_run, Hcs.
    destruct (py_not _) eqn:Hflag.
    + assert (Hunset : ¬ stop_flag_set stop_flag (now W `max` c)).
      { intros Hset. apply py_not_check in Hset. congruence. }
      destruct (ultimate_exiting_timeout (process settings)) as [d|] eqn:Hd.
      * eexists. split; [reflexivity|]. split; [done|]. split; [done|].
        split; [done|]. split; [|done]. intros _ timeout [= <-].
        split; [done|]. split; [done|].
        intros T. unfold killed_at. simpl. rewrite existsb_app. simpl.
        by rewrite orb_false_r.
      * eexists. split; [reflexivity|]. split; [done|]. split; [done|].
        split; [done|]. split; [|done]. by intros _ timeout [=].
    + apply py_not_check in Hflag. eexists. split; [reflexivity|].
      split; [done|]. split; [done|]. split; [done|]. split; [done|]. done.
  - intros Hcs. by rewrite watchdog_run, Hcs.
Qed.

Lemma watchdog_stop_flag_precedence_witness :
  ∃ W', _ultimate_termination (with_timeout 30) None (set_cancels [4] sample_world)
          = (Ok tt, W') ∧
        now W' = 4 ∧ cancels W' = [] ∧
        (stop_flag_set None 4 → timers W' = [] ∧ log W' = []) ∧
        (¬ stop_flag_set None 4 →
         ∀ timeout, Some 30 = Some timeout →
           timers W' = [mkTimer 4 timeout 77 SIGKILL] ∧
           log W' = [(4, EvCallLater timeout 77 SIGKILL)] ∧
           ∀ T, killed_at W' T = false || bool_decide (4 + timeout ≤ T)) ∧
        (Some 30 = None → timers W' = [] ∧ log W' = []).
Proof.
  apply (proj1 (watchdog_stop_flag_precedence (with_timeout 30) None
                  (set_cancels [4] sample_world)) 4 []).
  reflexivity.
Defined.

(** C10: with the ultimate-exiting timeout set to [None], no run of the
    watchdog arms a timer or logs anything, whether it is cancelled or not
    and whatever the stop-flag is; so the process is killed after it at
    exactly the times at which it would have been killed anyway, and with
    no timer armed before, at no time at all. *)
Theorem no_timeout_no_kill (settings : OperatorSettings) (stop_flag : option Flag)
    (W : World) :
  ultimate_exiting_timeout (process settings) = None →
  ∃ r W', _ultimate_termination settings stop_flag W = (r, W') ∧
          (r = Ok tt ∨ r = Hang) ∧
          (∀ c cs, cancels W = c :: cs → r = Ok tt ∧ now W' = now W `max` c) ∧
          timers W' = timers W ∧ log W' = log W ∧
          (∀ T, killed_at W' T = killed_at W T) ∧
          (timers W = [] → ∀ T, killed_at W' T = false).
Proof.
  intros Hnone. rewrite watchdog_run, Hnone.
  destruct (cancels W) as [|c cs] eqn:Hcs.
  - eexists _, _. split; [reflexivity|]. split; [by right|].
    split_and!; try done. intros Ht T. unfold killed_at. by rewrite Ht.
  - assert (Hk : ∀ T, killed_at (woken c cs W) T = killed_at W T) by done.
    destruct (py_not _).
    + eexists _, _. split; [reflexivity|]. split; [by left|].
      split_and!; try done.
      * by intros ?? [= <- <-].
      * intros Ht T. rewrite Hk. unfold killed_at. by rewrite Ht.
    + eexists _, _. split; [reflexivity|]. split; [by left|].
      split_and!; try done.
      * by intros ?? [= <- <-].
      * intros Ht T. rewrite Hk. unfold killed_at. by rewrite Ht.
Qed.

Lemma no_timeout_no_kill_witness :
  ∃ r W', _ultimate_termination no_timeout None (set_cancels [4] sample_world) = (r, W') ∧
          (r = Ok tt ∨ r = Hang) ∧
          (∀ c cs, [4] = c :: cs → r = Ok tt ∧ now W' = 0 `max` c) ∧
          timers W' = [] ∧ log W' = [] ∧
          (∀ T, killed_at W' T = killed_at (set_cancels [4] sample_world) T) ∧
          (timers (set_cancels [4] sample_world) = [] → ∀ T, killed_at W' T = false).
Proof.
  apply (no_timeout_no_kill no_timeout None (set_cancels [4] sample_world)).
  reflexivity.
Defined.

(** * The timeouts of the shutdown *)

(** The claim C9 as it is worded, for the time given to the hung tasks and
    for the logging intervals: some configuration makes [run_tasks] wait for
    the hung tasks with a timeout other than 5, or pass an interval other
    than the built-in ones to a cancellation pass. *)
Definition hung_timeout_configurable : Prop :=
  ∃ system_tasks root_tasks ignored W r W' l T ts d,
    run_tasks system_tasks root_tasks ignored W = (r, W') ∧
    log W' = log W ++ l ∧
    (T, EvWait ts (Some d) ALL_COMPLETED) ∈ l ∧ d ≠ 5.

Definition intervals_configurable : Prop :=
  ∃ system_tasks root_tasks ignored W r W' l T title ts c d,
    run_tasks system_tasks root_tasks ignored W = (r, W') ∧
    log W' = log W ++ l ∧
    (T, EvStop title ts c (Some d)) ∈ l ∧ d ≠ 10 ∧ d ≠ 1.

(** The timeouts and intervals of every run of [run_tasks], in whatever
    world, are the built-in ones. *)
Lemma run_tasks_fixed_params (system_tasks root_tasks : list nat) (ignored : gset nat)
    (W : World) (r : Res unit) (W' : World) (l : list (nat * event)) :
  run_tasks system_tasks root_tasks ignored W = (r, W') →
  log W' = log W ++ l →
  (∀ T ts timeout rw, (T, EvWait ts timeout rw) ∈ l →
     timeout = match rw with FIRST_COMPLETED => None | ALL_COMPLETED => Some 5 end) ∧
  (∀ T title ts c i, (T, EvStop title ts c i) ∈ l →
     i = if bool_decide (title = "Hung") then Some 1
         else if c then Some 10 else None).
Proof.
  intros Hrun Hl.
  destruct (run_tasks_shaped _ _ _ _ _ _ Hrun) as (R & S & H & (l' & Hl' & _ & Hf) & _).
  assert (l' = l) as -> by (rewrite Hl in Hl'; by apply app_inv_head in Hl').
  clear Hrun. split.
  - intros T ts timeout rw Hin.
    pose proof (proj1 (Forall_forall _ _) Hf _ Hin) as Hx. simpl in Hx.
    destruct rw; by apply bool_decide_unpack in Hx.
  - intros T title ts c i Hin.
    pose proof (proj1 (Forall_forall _ _) Hf _ Hin) as Hx. simpl in Hx.
    destruct (bool_decide (title = "Hung")); [by apply bool_decide_unpack in Hx|].
    destruct c; by apply bool_decide_unpack in Hx.
Qed.

(** C9, as worded, fails: [run_tasks] takes no settings, and in no world does
    it give the hung tasks another time than 5, or a cancellation pass
    another interval than 10 and 1 (or none). *)
Lemma shutdown_timeouts_configurable_fails :
  ¬ hung_timeout_configurable ∧ ¬ intervals_configurable.
Proof.
  split.
  - intros (st & rt & ignored & W & r & W' & l & T & ts & d & Hrun & Hl & Hin & Hd).
    destruct (run_tasks_fixed_params _ _ _ _ _ _ _ Hrun Hl) as [Hw _].
    clear Hrun. specialize (Hw _ _ _ _ Hin). simpl in Hw. congruence.
  - intros (st & rt & ignored & W & r & W' & l & T & title & ts & c & d &
            Hrun & Hl & Hin & Hd1 & Hd2).
    destruct (run_tasks_fixed_params _ _ _ _ _ _ _ Hrun Hl) as [_ Hs].
    clear Hrun. specialize (Hs _ _ _ _ _ Hin).
    destruct (bool_decide (title = "Hung")), c; congruence.
Qed.

(** C9 (amended): of the timeouts of the shutdown, the ultimate-exiting
    timeout alone is configurable: the timer that the cancelled watchdog
    arms has the delay that the settings give.  In every run of [run_tasks]
    the first wait has no timeout and the hung tasks are given 5; and the
    logging interval is 1 for the Hung pass and, for the Root and System
    passes, 10 under an outer cancellation and none otherwise. *)
Theorem shutdown_timeouts (system_tasks root_tasks : list nat) (ignored : gset nat)
    (settings : OperatorSettings) (stop_flag : option Flag) (W : World) :
  (∀ r W' l,
     run_tasks system_tasks root_tasks ignored W = (r, W') →
     log W' = log W ++ l →
     (∀ T ts timeout rw, (T, EvWait ts timeout rw) ∈ l →
        timeout = match rw with FIRST_COMPLETED => None | ALL_COMPLETED => Some 5 end) ∧
     (∀ T title ts c i, (T, EvStop title ts c i) ∈ l →
        i = if bool_decide (title = "Hung") then Some 1
            else if c then Some 10 else None)) ∧
  (∀ c cs timeout,
     cancels W = c :: cs →
     ¬ stop_flag_set stop_flag (now W `max` c) →
     ultimate_exiting_timeout (process settings) = Some timeout →
     ∃ W', _ultimate_termination settings stop_flag W = (Ok tt, W') ∧
           timers W' = timers W ++
             [mkTimer (now W `max` c) timeout (thread (env W)) SIGKILL]).
Proof.
  split.
  - intros r W' l Hrun Hl. by apply (run_tasks_fixed_params _ _ _ _ _ _ _ Hrun Hl).
  - intros c cs timeout Hcs Hunset Htimeout. rewrite watchdog_run, Hcs, Htimeout.
    destruct (py_not _) eqn:Hflag.
    + eexists. split; [reflexivity|done].
    + apply py_not_check in Hflag. done.
Qed.

Lemma shutdown_timeouts_witness :
  (∃ W', _ultimate_termination (with_timeout 30) None (set_cancels [4] sample_world)
           = (Ok tt, W') ∧
         timers W' = [mkTimer 4 30 77 SIGKILL]) ∧
  (∃ W', _ultimate_termination (with_timeout 7) None (set_cancels [4] sample_world)
           = (Ok tt, W') ∧
         timers W' = [mkTimer 4 7 77 SIGKILL]) ∧
  (∀ T ts timeout rw,
     (T, EvWait ts timeout rw) ∈ log (run_tasks [1] [2; 3] ∅ sample_world).2 →
     timeout = match rw with FIRST_COMPLETED => None | ALL_COMPLETED => Some 5 end).
Proof.
  split_and!.
  - apply (proj2 (shutdown_timeouts [] [] ∅ (with_timeout 30) None
                    (set_cancels [4] sample_world)) 4 [] 30);
      [reflexivity|by intros (f & ? & _)|reflexivity].
  - apply (proj2 (shutdown_timeouts [] [] ∅ (with_timeout 7) None
                    (set_cancels [4] sample_world)) 4 [] 7);
      [reflexivity|by intros (f & ? & _)|reflexivity].
  - apply (proj1 (shutdown_timeouts [1] [2; 3] ∅ no_timeout None sample_world)
             (run_tasks [1] [2; 3] ∅ sample_world).1
             (run_tasks [1] [2; 3] ∅ sample_world).2
             (log (run_tasks [1] [2; 3] ∅ sample_world).2)).
    + apply surjective_pairing.
    + reflexivity.
Defined.

(** * What a coroutine leaves alone *)

(** Every run of [m] takes a world to one that is [R]-related to it. *)
Definition respects (R : relation World) {A} (m : Coro A) : Prop :=
  ∀ W, R W (m W).2.

(** No run of [m] ends in an error. *)
Definition unfailing {A} (m : Coro A) : Prop :=
  ∀ W e, (m W).1 ≠ Raise (Error e).

Section respects.
Context (R : relation World) `{!Reflexive R, !Transitive R}.

Lemma respects_ret {A} (a : A) : respects R (mret a : Coro A).
Proof. intros W. simpl. reflexivity. Qed.

Lemma respects_raise {A} (e : exn) : respects R (raise e : Coro A).
Proof. intros W. simpl. reflexivity. Qed.

Lemma respects_hang {A} : respects R (hang : Coro A).
Proof. intros W. simpl. reflexivity. Qed.

Lemma respects_get_world : respects R get_world.
Proof. intros W. simpl. reflexivity. Qed.

Lemma respects_bind {A B} (m : Coro A) (f : A → Coro B) :
  respects R m → (∀ a, respects R (f a)) → respects R (m ≫= f).
Proof.
  intros Hm Hf W. rewrite bind_run. specialize (Hm W).
  destruct (m W) as [[a|e|] W1]; simpl in *; [|done..].
  etrans; [exact Hm|apply Hf].
Qed.

Lemma respects_try {A} (body handler : Coro A) :
  respects R body → respects R handler →
  respects R (try_except_cancelled body handler).
Proof.
  intros Hb Hh W. rewrite try_run. specialize (Hb W).
  destruct (body W) as [[a|[|e]|] W1]; simpl in *; [done| |done..].
  etrans; [exact Hb|apply Hh].
Qed.

Lemma respects_try_else {A B} (body : Coro A) (handler : Coro B)
    (orelse : A → Coro B) :
  respects R body → respects R handler → (∀ a, respects R (orelse a)) →
  respects R (try_except_cancelled_else body handler orelse).
Proof.
  intros Hb Hh Ho W. unfold try_except_cancelled_else. specialize (Hb W).
  destruct (body W) as [[a|[|e]|] W1]; simpl in *; [| |done..].
  - etrans; [exact Hb|apply Ho].
  - etrans; [exact Hb|apply Hh].
Qed.
End respects.

Lemma unfailing_ret {A} (a : A) : unfailing (mret a : Coro A).
Proof. by intros W e. Qed.

Lemma unfailing_bind {A B} (m : Coro A) (f : A → Coro B) :
  unfailing m → (∀ a, unfailing (f a)) → unfailing (m ≫= f).
Proof.
  intros Hm Hf W e. rewrite bind_run. specialize (Hm W).
  destruct (m W) as [[a|e'|] W1]; simpl in *; [apply Hf| |done].
  intros [= ->]. by apply (Hm e).
Qed.

(** * [spawn_tasks]: the scope of the operator *)

Definition both_namespaces_error : error :=
  TypeError "Either namespaces= or namespace= can be passed. Got both.".
Definition both_scopes_error : error :=
  TypeError "The operator can be either cluster-wide or namespaced, not both.".
Definition no_scope_warning : event :=
  EvWarnings "FutureWarning"
    ("Absence of either namespaces or cluster-wide flag will become an error soon." +:+
     " For now, switching to the cluster-wide mode for backward compatibility.").
Definition deprecated_warning : event :=
  EvWarnings "DeprecationWarning" "namespace= is deprecated; use namespaces=[...]".

(** What the rest of [spawn_tasks] leaves alone, once the settings are
    passed on. *)
Definition settled (W W' : World) : Prop :=
  settings_var W' = settings_var W ∧ log W `prefix_of` log W'.

(** The parts of [spawn_tasks], by name. *)
Definition select_namespaces (a : SpawnArgs) : Coro (list string) :=
  if nonempty (a_namespaces a) && truthy (a_namespace a) then
    raise (Error (TypeError "Either namespaces= or namespace= can be passed. Got both."))
  else if truthy (a_namespace a) then
    emit (EvWarnings "DeprecationWarning" "namespace= is deprecated; use namespaces=[...]");;
    mret (option_list (a_namespace a))
  else mret (a_namespaces a).

Definition check_scope (a : SpawnArgs) (namespaces : list string) : Coro unit :=
  if a_clusterwide a && nonempty namespaces then
    raise (Error (TypeError "The operator can be either cluster-wide or namespaced, not both."))
  else mret tt.

Definition default_scope (a : SpawnArgs) (namespaces : list string) : Coro bool :=
  if negb (a_clusterwide a) && negb (nonempty namespaces) then
    emit (EvWarnings "FutureWarning"
            ("Absence of either namespaces or cluster-wide flag will become an error soon." +:+
             " For now, switching to the cluster-wide mode for backward compatibility."));;
    mret true
  else mret (a_clusterwide a).

Definition mapped_settings (a : SpawnArgs) (clusterwide : bool)
    (settings : OperatorSettings) : OperatorSettings :=
  let settings := with_peering (λ p, mkPeering clusterwide (p_mandatory p)
                    (p_name p) (p_standalone p) (p_priority p)) settings in
  let settings :=
    match a_peering_name a with
    | Some peering_name =>
        with_peering (λ p, mkPeering (p_clusterwide p) true peering_name
                             (p_standalone p) (p_priority p)) settings
    | None => settings
    end in
  let settings :=
    match a_standalone a with
    | Some standalone =>
        with_peering (λ p, mkPeering (p_clusterwide p) (p_mandatory p) (p_name p)
                             standalone (p_priority p)) settings
    | None => settings
    end in
  match a_priority a with
  | Some priority =>
      with_peering (λ p, mkPeering (p_clusterwide p) (p_mandatory p) (p_name p)
                           (p_standalone p) priority) settings
  | None => settings
  end.

Definition register_handlers : Coro unit :=
  W ← get_world;
  if in_main_thread (env W) then
    if unix_signals (env W) then
      modify (λ W, set_handlers (handlers W ++ [SIGINT; SIGTERM]) W)
    else
      emit (EvWarn "OS signals are ignored: can't add signal handler in Windows.")
  else
    emit (EvWarn "OS signals are ignored: running not in the main thread.").

Definition spawn_all (a : SpawnArgs) : Coro (list nat * list nat) :=
  (spawn_named "stop-flag checker" false false ≫= append_system);;
  (spawn_named "ultimate termination" false false ≫= append_system);;
  (spawn_named "startup/cleanup activities" false false ≫= append_system);;
  (spawn_named "daemon killer" true false ≫= append_system);;
  (spawn_named "credentials retriever" true false ≫= append_system);;
  (spawn_named "poster of events" true false ≫= append_root);;
  (if truthy (a_liveness_endpoint a)
   then spawn_named "health reporter" true false ≫= append_root
   else mret tt);;
  (spawn_named "admission insights chain" true false ≫= append_root);;
  (spawn_named "admission validating configuration manager" true false ≫= append_root);;
  (spawn_named "admission mutating configuration manager" true false ≫= append_root);;
  (spawn_named "admission webhook server" true false ≫= append_root);;
  (spawn_named "resource observer" true false ≫= append_root);;
  (spawn_named "namespace observer" true false ≫= append_root);;
  match a_command a with
  | Some _command => create_task "the command" true true _command ≫= append_root
  | None => spawn_named "multidimensional multitasker" true false ≫= append_root
  end;;
  (W ← get_world; suspend (Some (now W)));;
  register_handlers;;
  W ← get_world;
  mret (live_system W, live_root W).

Lemma spawn_tasks_unfold (a : SpawnArgs) :
  spawn_tasks a =
    (namespaces ← select_namespaces a;
     check_scope a namespaces;;
     clusterwide ← default_scope a namespaces;
     W ← get_world;
     modify (λ W, set_started None (set_live_system [] (set_live_root [] W)));;
     modify (set_settings_var
               (Some (mapped_settings a clusterwide
                        (default (default_settings (env W)) (a_settings a)))));;
     spawn_all a).
Proof.
  unfold spawn_tasks, select_namespaces, check_scope, default_scope, mapped_settings,
    spawn_all, register_handlers.
  cbv beta zeta. reflexivity.
Qed.

Lemma mapped_settings_clusterwide (a : SpawnArgs) (clusterwide : bool)
    (settings : OperatorSettings) :
  p_clusterwide (peering (mapped_settings a clusterwide settings)) = clusterwide.
Proof.
  unfold mapped_settings.
  by destruct (a_peering_name a), (a_standalone a), (a_priority a).
Qed.

#[global] Instance settled_refl : Reflexive settled.
Proof. by intros W. Qed.

#[global] Instance settled_trans : Transitive settled.
Proof.
  intros W1 W2 W3 [Hs1 Hl1] [Hs2 Hl2]. split; [congruence|by etrans].
Qed.

Lemma emit_settled (ev : event) : respects settled (emit ev).
Proof. intros W. split; [done|]. by apply prefix_app_r. Qed.

Lemma suspend_settled (wake : option nat) : respects settled (suspend wake).
Proof.
  intros W. unfold suspend.
  destruct (cancels W) as [|c cs], wake as [w|]; try case_bool_decide; by split.
Qed.

Lemma modify_handlers_settled :
  respects settled (modify (λ W, set_handlers (handlers W ++ [SIGINT; SIGTERM]) W)).
Proof. by intros W. Qed.

Lemma create_task_settled (name : string) (guarded finishable : bool) (b : Behaviour) :
  respects settled (create_task name guarded finishable b).
Proof. intros W. split; [done|]. by apply prefix_app_r. Qed.

Lemma append_system_settled (t : nat) : respects settled (append_system t).
Proof. by intros W. Qed.

Lemma append_root_settled (t : nat) : respects settled (append_root t).
Proof. by intros W. Qed.

Lemma spawn_named_settled (name : string) (guarded finishable : bool) :
  respects settled (spawn_named name guarded finishable).
Proof.
  apply respects_bind; [apply _|apply respects_get_world, _|].
  intros W. apply create_task_settled.
Qed.

Create HintDb settled.
#[global] Hint Resolve emit_settled suspend_settled modify_handlers_settled
  create_task_settled append_system_settled append_root_settled
  spawn_named_settled : settled.

Ltac settled_step :=
  first [ apply (respects_bind settled); [|intros ?]
        | apply (respects_ret settled)
        | apply (respects_get_world settled)
        | solve [auto with settled] ].

Lemma register_handlers_settled : respects settled register_handlers.
Proof.
  unfold register_handlers. apply (respects_bind settled); [settled_step|].
  intros W. destruct (in_main_thread (env W)), (unix_signals (env W));
    auto with settled.
Qed.

Lemma spawn_all_settled (a : SpawnArgs) : respects settled (spawn_all a).
Proof.
  unfold spawn_all.
  repeat first
    [ apply register_handlers_settled
    | settled_step
    | match goal with
      | |- context [truthy (a_liveness_endpoint a)] =>
          destruct (truthy (a_liveness_endpoint a))
      | |- context [a_command a] => destruct (a_command a)
      end ].
Qed.

(** The rest of [spawn_tasks] cannot fail. *)
Lemma unfailing_total {A} (m : Coro A) :
  (∀ W, ∃ a W', m W = (Ok a, W')) → unfailing m.
Proof. intros H W e. destruct (H W) as (a & W' & ->). done. Qed.

Lemma suspend_unfailing (wake : option nat) : unfailing (suspend wake).
Proof.
  intros W e. unfold suspend.
  destruct (cancels W) as [|c cs], wake as [w|]; try case_bool_decide; done.
Qed.

Lemma spawn_named_unfailing (name : string) (guarded finishable : bool) :
  unfailing (spawn_named name guarded finishable).
Proof. by apply unfailing_total; intros W; eexists _, _. Qed.

Lemma register_handlers_unfailing : unfailing register_handlers.
Proof.
  apply unfailing_total. intros W. unfold register_handlers.
  rewrite bind_run. unfold get_world. cbv beta iota.
  destruct (in_main_thread (env W)), (unix_signals (env W)); by eexists _, _.
Qed.

Ltac unfailing_step :=
  first [ apply register_handlers_unfailing
        | apply spawn_named_unfailing
        | apply unfailing_bind; [|intros ?]
        | apply unfailing_ret
        | apply suspend_unfailing
        | by apply unfailing_total; intros ?; eexists _, _ ].

Lemma spawn_all_unfailing (a : SpawnArgs) : unfailing (spawn_all a).
Proof.
  unfold spawn_all.
  repeat first
    [ unfailing_step
    | match goal with
      | |- context [truthy (a_liveness_endpoint a)] =>
          destruct (truthy (a_liveness_endpoint a))
      | |- context [a_command a] => destruct (a_command a)
      end ].
Qed.

(** With no cancellation pending, [m] returns, and none is pending after. *)
Definition steady {A} (m : Coro A) : Prop :=
  ∀ W, cancels W = [] → ∃ a W', m W = (Ok a, W') ∧ cancels W' = [].

Lemma steady_bind {A B} (m : Coro A) (f : A → Coro B) :
  steady m → (∀ a, steady (f a)) → steady (m ≫= f).
Proof.
  intros Hm Hf W HW. rewrite bind_run.
  destruct (Hm W HW) as (a & W1 & -> & HW1). by apply Hf.
Qed.

Lemma steady_total {A} (m : Coro A) :
  (∀ W, ∃ a W', m W = (Ok a, W') ∧ cancels W' = cancels W) → steady m.
Proof.
  intros H W HW. destruct (H W) as (a & W' & -> & Hc). exists a, W'.
  split; [done|congruence].
Qed.

Lemma suspend_steady (w : nat) : steady (suspend (Some w)).
Proof. intros W HW. rewrite suspend_ok by done. by eexists _, _. Qed.

Lemma spawn_named_steady (name : string) (guarded finishable : bool) :
  steady (spawn_named name guarded finishable).
Proof. by apply steady_total; intros W; eexists _, _. Qed.

Lemma register_handlers_steady : steady register_handlers.
Proof.
  apply steady_total. intros W. unfold register_handlers.
  rewrite bind_run. unfold get_world. cbv beta iota.
  destruct (in_main_thread (env W)), (unix_signals (env W)); by eexists _, _.
Qed.

Ltac steady_step :=
  first [ apply register_handlers_steady
        | apply spawn_named_steady
        | apply suspend_steady
        | apply steady_bind; [|intros ?]
        | by apply steady_total; intros ?; eexists _, _ ].

Lemma spawn_all_steady (a : SpawnArgs) : steady (spawn_all a).
Proof.
  unfold spawn_all.
  repeat first
    [ steady_step
    | match goal with
      | |- context [truthy (a_liveness_endpoint a)] =>
          destruct (truthy (a_liveness_endpoint a))
      | |- context [a_command a] => destruct (a_command a)
      end ].
Qed.

Lemma select_namespaces_plain (a : SpawnArgs) (W : World) :
  truthy (a_namespace a) = false →
  select_namespaces a W = (Ok (a_namespaces a), W).
Proof. unfold select_namespaces. intros ->. by rewrite andb_false_r. Qed.

Lemma select_namespaces_deprecated (a : SpawnArgs) (W : World) :
  nonempty (a_namespaces a) = false → truthy (a_namespace a) = true →
  select_namespaces a W =
    (Ok (option_list (a_namespace a)),
     set_log (log W ++ [(now W, deprecated_warning)]) W).
Proof. unfold select_namespaces. by intros -> ->. Qed.

Lemma select_namespaces_both (a : SpawnArgs) (W : World) :
  nonempty (a_namespaces a) = true → truthy (a_namespace a) = true →
  select_namespaces a W = (Raise (Error both_namespaces_error), W).
Proof. unfold select_namespaces. by intros -> ->. Qed.

Lemma check_scope_both (a : SpawnArgs) (namespaces : list string) (W : World) :
  a_clusterwide a = true → nonempty namespaces = true →
  check_scope a namespaces W = (Raise (Error both_scopes_error), W).
Proof. unfold check_scope. by intros -> ->. Qed.

Lemma check_scope_ok (a : SpawnArgs) (namespaces : list string) (W : World) :
  a_clusterwide a && nonempty namespaces = false →
  check_scope a namespaces W = (Ok tt, W).
Proof. unfold check_scope. by intros ->. Qed.

Lemma default_scope_warns (a : SpawnArgs) (namespaces : list string) (W : World) :
  a_clusterwide a = false → nonempty namespaces = false →
  default_scope a namespaces W =
    (Ok true, set_log (log W ++ [(now W, no_scope_warning)]) W).
Proof. unfold default_scope. by intros -> ->. Qed.

(** The run of [spawn_tasks] when neither scope is given. *)
Lemma spawn_tasks_no_scope (a : SpawnArgs) (W : World) :
  a_clusterwide a = false → nonempty (a_namespaces a) = false →
  truthy (a_namespace a) = false →
  ∃ W1 s, spawn_tasks a W = spawn_all a W1 ∧
          settings_var W1 = Some s ∧ p_clusterwide (peering s) = true ∧
          log W1 = log W ++ [(now W, no_scope_warning)] ∧
          cancels W1 = cancels W.
Proof.
  intros Hcw Hns Hn. rewrite spawn_tasks_unfold.
  rewrite bind_run, select_namespaces_plain by done.
  rewrite bind_run, check_scope_ok by (by rewrite Hcw).
  rewrite bind_run, default_scope_warns by done.
  rewrite bind_run. unfold get_world at 1. cbv beta iota.
  rewrite bind_run. unfold modify at 1. cbv beta iota.
  rewrite bind_run. unfold modify at 1. cbv beta iota.
  eexists _, _. split; [reflexivity|]. simpl.
  split; [reflexivity|]. split; [apply mapped_settings_clusterwide|]. done.
Qed.

(** C7: [spawn_tasks] raises a [TypeError], with no task created and
    nothing else changed, when both [namespaces=] and the deprecated
    [namespace=] are given, and when the cluster-wide flag is given together
    with namespaces, in either way of giving them; when neither the flag nor
    any namespace is given, it warns, goes on in the cluster-wide mode and
    does not fail: with no cancellation pending it returns the tasks. *)
Theorem spawn_tasks_scope (a : SpawnArgs) (W : World) :
  (nonempty (a_namespaces a) = true → truthy (a_namespace a) = true →
   spawn_tasks a W = (Raise (Error both_namespaces_error), W)) ∧
  (a_clusterwide a = true →
   nonempty (a_namespaces a) = true ∨ truthy (a_namespace a) = true →
   ∃ msg W', spawn_tasks a W = (Raise (Error (TypeError msg)), W') ∧
             scripts W' = scripts W ∧ live_system W' = live_system W ∧
             live_root W' = live_root W ∧ settings_var W' = settings_var W ∧
             started W' = started W ∧ handlers W' = handlers W ∧
             (log W' = log W ∨ log W' = log W ++ [(now W, deprecated_warning)])) ∧
  (a_clusterwide a = false → nonempty (a_namespaces a) = false →
   truthy (a_namespace a) = false →
   (∀ r W', spawn_tasks a W = (r, W') →
      (∀ e, r ≠ Raise (Error e)) ∧
      (∃ l, log W' = log W ++ (now W, no_scope_warning) :: l) ∧
      (∃ s, settings_var W' = Some s ∧ p_clusterwide (peering s) = true)) ∧
   (cancels W = [] → ∃ system_tasks root_tasks W',
      spawn_tasks a W = (Ok (system_tasks, root_tasks), W'))).
Proof.
  split_and!.
  - intros Hns Hn. rewrite spawn_tasks_unfold, bind_run.
    by rewrite select_namespaces_both.
  - intros Hcw Hgiven. rewrite spawn_tasks_unfold, bind_run.
    destruct (nonempty (a_namespaces a)) eqn:Hns, (truthy (a_namespace a)) eqn:Hn.
    + rewrite select_namespaces_both by done. eexists _, _.
      split; [reflexivity|]. split_and!; try done. by left.
    + rewrite select_namespaces_plain by done.
      rewrite bind_run, check_scope_both by done. eexists _, _.
      split; [reflexivity|]. split_and!; try done. by left.
    + rewrite select_namespaces_deprecated by done.
      rewrite bind_run, check_scope_both; [|done|].
      * eexists _, _. split; [reflexivity|]. split_and!; try done. by right.
      * unfold truthy in Hn. by destruct (a_namespace a).
    + by destruct Hgiven.
  - intros Hcw Hns Hn.
    destruct (spawn_tasks_no_scope a W Hcw Hns Hn)
      as (W1 & s & -> & Hs & Hcl & Hl & Hc).
    split.
    + intros r W' Hrun. split_and!.
      * intros e ->. by apply (spawn_all_unfailing a W1 e); rewrite Hrun.
      * destruct (spawn_all_settled a W1) as [_ [l Hl']]. rewrite Hrun in Hl'.
        simpl in Hl'. exists l. by rewrite Hl', Hl, <-app_assoc.
      * destruct (spawn_all_settled a W1) as [Hs' _]. rewrite Hrun in Hs'.
        simpl in Hs'. exists s. split; [congruence|done].
    + intros Hcs. destruct (spawn_all_steady a W1) as ([st rt] & W' & -> & _);
        [congruence|]. by eexists _, _, _.
Qed.

Definition both_scopes_args : SpawnArgs :=
  mkArgs None None None None None true ["a"] None None None None.

Definition no_scope_args : SpawnArgs :=
  mkArgs None None None None None false [] None None None None.

Lemma spawn_tasks_scope_witness :
  (∃ msg W', spawn_tasks both_scopes_args sample_world
               = (Raise (Error (TypeError msg)), W') ∧
             scripts W' = scripts sample_world ∧
             live_system W' = live_system sample_world ∧
             live_root W' = live_root sample_world ∧
             settings_var W' = settings_var sample_world ∧
             started W' = started sample_world ∧
             handlers W' = handlers sample_world ∧
             (log W' = log sample_world ∨
              log W' = log sample_world ++ [(now sample_world, deprecated_warning)])) ∧
  (∃ system_tasks root_tasks W',
     spawn_tasks no_scope_args sample_world = (Ok (system_tasks, root_tasks), W')).
Proof.
  split.
  - apply (proj1 (proj2 (spawn_tasks_scope both_scopes_args sample_world))).
    + reflexivity.
    + left. reflexivity.
  - apply (proj2 (proj2 (spawn_tasks_scope no_scope_args sample_world))).
    + reflexivity.
    + reflexivity.
    + reflexivity.
    + reflexivity.
Defined.

(** * The signal-flag is resolved once *)

(** The same world, with other signals arriving. *)
Definition set_signals (sigs : list (nat * Signals)) (W : World) : World :=
  mkWorld
    (mkEnv (thread (env W)) (self (env W)) (in_main_thread (env W))
       (unix_signals (env W)) (default_settings (env W)) (workload (env W))
       (activities (env W)) (vault_close (env W)) sigs (version (env W)))
    (now W) (scripts W) (cancelled W) (cancels W) (started W)
    (timers W) (handlers W) (live_system W) (live_root W) (settings_var W) (log W).

(** Two worlds that [_stop_flag_checker] cannot tell apart: the same clock,
    tasks, cancellations and log, and the same signal-flag. *)
Definition alike (W1 W2 : World) : Prop :=
  now W1 = now W2 ∧ scripts W1 = scripts W2 ∧ cancelled W1 = cancelled W2 ∧
  cancels W1 = cancels W2 ∧ log W1 = log W2 ∧
  slot_future (signal_slot W1) = slot_future (signal_slot W2).

(** [m] does the same in worlds that are alike. *)
Definition blind {A} (m : Coro A) : Prop :=
  ∀ W1 W2, alike W1 W2 → (m W1).1 = (m W2).1 ∧ alike (m W1).2 (m W2).2.

Definition is_info (x : nat * event) : bool :=
  match x.2 with
  | EvInfo _ => true
  | _ => false
  end.

Lemma on_signal_finished (sl : Slot) (T : nat) (sig : Signals) (a : nat * Signals) :
  slot_future sl = Finished T sig →
  slot_future (on_signal sl a) = Finished T sig ∧
  slot_errors (on_signal sl a) = slot_errors sl ++ [(a.1, InvalidStateError)].
Proof. unfold on_signal. by intros ->. Qed.

Lemma deliver_finished (later : list (nat * Signals)) (sl : Slot) (T : nat)
    (sig : Signals) :
  slot_future sl = Finished T sig →
  slot_future (deliver later sl) = Finished T sig.
Proof.
  revert sl. induction later as [|a later IH]; intros sl Hsl; [done|].
  simpl. apply IH. by apply on_signal_finished.
Qed.

Lemma deliver_first (a : nat * Signals) (later : list (nat * Signals)) :
  slot_future (deliver (a :: later) (mkSlot Pending [])) = Finished a.1 a.2.
Proof. simpl. by apply deliver_finished. Qed.

Lemma signal_slot_first (W : World) (first : nat * Signals)
    (later : list (nat * Signals)) :
  first.2 ∈ handlers W →
  slot_future (signal_slot (set_signals (first :: later) W)) = Finished first.1 first.2.
Proof.
  intros Hin. unfold signal_slot. simpl. rewrite filter_cons_True by done.
  apply deliver_first.
Qed.

Lemma completion_alike (W1 W2 : World) (a : awaitable) :
  alike W1 W2 → completion W1 a = completion W2 a.
Proof.
  intros (_ & Hs & Hc & _ & _ & Hf). destruct a as [|t v]; simpl.
  - by rewrite Hf.
  - by rewrite (finish_ext W2 W1).
Qed.

Lemma first_completion_alike (W1 W2 : World) (flags : list awaitable) :
  alike W1 W2 → first_completion W1 flags = first_completion W2 flags.
Proof.
  intros H. induction flags as [|a flags IH]; [done|].
  simpl. by rewrite IH, (completion_alike W1 W2).
Qed.

Lemma suspend_blind (wake : option nat) : blind (suspend wake).
Proof.
  intros W1 W2 (Hn & Hs & Hc & Hcs & Hl & Hf). unfold suspend. rewrite Hcs, Hn.
  destruct (cancels W2) as [|c cs] eqn:E, wake as [w|]; try case_bool_decide;
    (split; [done|]); unfold alike; simpl; split_and!; first [done|congruence].
Qed.

Lemma emit_blind (ev : event) : blind (emit ev).
Proof.
  intros W1 W2 (Hn & Hs & Hc & Hcs & Hl & Hf). split; [done|].
  unfold emit, alike. simpl. by rewrite Hn, Hl.
Qed.

(** * [spawn_tasks]: the tasks it creates *)

(** [m] keeps the invariant [I]. *)
Definition keeps (I : World → Prop) {A} (m : Coro A) : Prop :=
  ∀ W, I W → I (m W).2.

(** The tasks on the shared lists are tasks of the loop, each listed once,
    that were not there in [W0]; the root tasks are guarded; and the tasks
    of [W0] are as they were. *)
Record listed (W0 W : World) : Prop := mkListed {
  li_nodup : NoDup (live_system W ++ live_root W);
  li_fresh : ∀ t, t ∈ live_system W ++ live_root W →
                  t ∈ dom (scripts W) ∧ t ∉ dom (scripts W0);
  li_guarded : ∀ t, t ∈ live_root W →
                    ∃ s, scripts W !! t = Some s ∧ s_guarded s = true;
  li_kept : ∀ t, t ∈ dom (scripts W0) → scripts W !! t = scripts W0 !! t;
  li_cancelled : cancelled W = cancelled W0;
}.

(** What a coroutine returns is what the shared lists hold. *)
Definition returns_lists (m : Coro (list nat * list nat)) : Prop :=
  ∀ W st rt W', m W = (Ok (st, rt), W') → st = live_system W' ∧ rt = live_root W'.

Lemma keeps_bind (I : World → Prop) {A B} (m : Coro A) (f : A → Coro B) :
  keeps I m → (∀ a, keeps I (f a)) → keeps I (m ≫= f).
Proof.
  intros Hm Hf W HW. rewrite bind_run. specialize (Hm W HW).
  destruct (m W) as [[a|e|] W1]; simpl in *; [|done..]. by apply Hf.
Qed.

Lemma keeps_ret (I : World → Prop) {A} (a : A) : keeps I (mret a : Coro A).
Proof. by intros W HW. Qed.

Lemma keeps_get_world (I : World → Prop) : keeps I get_world.
Proof. by intros W HW. Qed.

Lemma create_task_fresh (W : World) : fresh (dom (scripts W)) ∉ dom (scripts W).
Proof. apply is_fresh. Qed.

Lemma listed_create_system (W0 : World) (name : string) (guarded finishable : bool)
    (b : Behaviour) :
  keeps (listed W0) (create_task name guarded finishable b ≫= append_system).
Proof.
  intros W [Hnd Hfr Hg Hk Hc]. pose proof (create_task_fresh W) as Hnew.
  set (t := fresh (dom (scripts W))) in *.
  assert (Hold : ∀ t', t' ∈ live_system W ++ live_root W → t' ≠ t).
  { intros t' Ht' ->. by destruct (Hfr _ Ht'). }
  split; simpl; fold t.
  - rewrite <-app_assoc. apply NoDup_app in Hnd as (Hs & Hsr & Hr).
    apply NoDup_app. split_and!; [done| |].
    + intros x Hx Hx'. apply elem_of_cons in Hx' as [->|Hx']; [|by eapply Hsr].
      apply (Hold t); [|done]. apply elem_of_app. by left.
    + apply NoDup_cons. split; [|done]. intros Ht.
      apply (Hold t); [|done]. apply elem_of_app. by right.
  - intros t' Ht'. rewrite dom_insert, elem_of_union, elem_of_singleton.
    rewrite <-app_assoc, elem_of_app in Ht'. simpl in Ht'.
    rewrite elem_of_cons in Ht'. destruct Ht' as [Ht'|[->|Ht']].
    + destruct (Hfr t') as [? ?]; [apply elem_of_app; by left|]. by split; [right|].
    + split; [by left|]. intros Hin. apply Hnew. apply elem_of_dom.
      rewrite (Hk _ Hin). by apply elem_of_dom.
    + destruct (Hfr t') as [? ?]; [apply elem_of_app; by right|]. by split; [right|].
  - intros t' Ht'. destruct (Hg _ Ht') as (s & Hs & Hgs). exists s. split; [|done].
    rewrite lookup_insert_ne; [done|]. intros <-.
    apply (Hold t); [|done]. apply elem_of_app. by right.
  - intros t' Ht'. rewrite lookup_insert_ne; [by apply Hk|]. intros <-.
    apply Hnew. apply elem_of_dom. rewrite (Hk _ Ht'). by apply elem_of_dom.
  - done.
Qed.

Lemma listed_create_root (W0 : World) (name : string) (finishable : bool)
    (b : Behaviour) :
  keeps (listed W0) (create_task name true finishable b ≫= append_root).
Proof.
  intros W [Hnd Hfr Hg Hk Hc]. pose proof (create_task_fresh W) as Hnew.
  set (t := fresh (dom (scripts W))) in *.
  assert (Hold : ∀ t', t' ∈ live_system W ++ live_root W → t' ≠ t).
  { intros t' Ht' ->. by destruct (Hfr _ Ht'). }
  split; simpl; fold t.
  - rewrite app_assoc. apply NoDup_app. split_and!; [done| |apply NoDup_singleton].
    intros x Hx Hx'. apply list_elem_of_singleton in Hx' as ->. by apply (Hold t).
  - intros t' Ht'. rewrite dom_insert, elem_of_union, elem_of_singleton.
    rewrite app_assoc, elem_of_app, list_elem_of_singleton in Ht'.
    destruct Ht' as [Ht'| ->].
    + destruct (Hfr t' Ht') as [? ?]. by split; [right|].
    + split; [by left|]. intros Hin. apply Hnew. apply elem_of_dom.
      rewrite (Hk _ Hin). by apply elem_of_dom.
  - intros t' Ht'. rewrite elem_of_app, list_elem_of_singleton in Ht'.
    destruct Ht' as [Ht'| ->].
    + destruct (Hg _ Ht') as (s & Hs & Hgs). exists s. split; [|done].
      rewrite lookup_insert_ne; [done|]. intros <-.
      apply (Hold t); [|done]. apply elem_of_app. by right.
    + eexists. split; [apply lookup_insert_eq|done].
  - intros t' Ht'. rewrite lookup_insert_ne; [by apply Hk|]. intros <-.
    apply Hnew. apply elem_of_dom. rewrite (Hk _ Ht'). by apply elem_of_dom.
  - done.
Qed.

Lemma listed_spawn_system (W0 : World) (name : string) (guarded finishable : bool) :
  keeps (listed W0) (spawn_named name guarded finishable ≫= append_system).
Proof.
  intros W HW.
  exact (listed_create_system W0 name guarded finishable (workload (env W) name) W HW).
Qed.

Lemma listed_spawn_root (W0 : World) (name : string) (finishable : bool) :
  keeps (listed W0) (spawn_named name true finishable ≫= append_root).
Proof.
  intros W HW.
  exact (listed_create_root W0 name finishable (workload (env W) name) W HW).
Qed.

Lemma listed_suspend (W0 : World) (wake : option nat) :
  keeps (listed W0) (suspend wake).
Proof.
  intros W [Hnd Hfr Hg Hk Hc]. unfold suspend.
  destruct (cancels W) as [|c cs], wake as [w|]; try case_bool_decide; by split.
Qed.

Lemma listed_register_handlers (W0 : World) : keeps (listed W0) register_handlers.
Proof.
  intros W [Hnd Hfr Hg Hk Hc]. unfold register_handlers.
  rewrite bind_run. unfold get_world. cbv beta iota.
  destruct (in_main_thread (env W)), (unix_signals (env W)); by split.
Qed.

Lemma spawn_all_listed (W0 : World) (a : SpawnArgs) : keeps (listed W0) (spawn_all a).
Proof.
  unfold spawn_all.
  repeat match goal with
  | |- keeps _ (spawn_named _ _ _ ≫= append_system) => apply listed_spawn_system
  | |- keeps _ (spawn_named _ _ _ ≫= append_root) => apply listed_spawn_root
  | |- keeps _ (create_task _ _ _ _ ≫= append_root) => apply listed_create_root
  | |- keeps _ register_handlers => apply listed_register_handlers
  | |- keeps _ (suspend _) => apply listed_suspend
  | |- keeps _ (mret _) => apply keeps_ret
  | |- keeps _ get_world => apply keeps_get_world
  | |- keeps _ (if truthy (a_liveness_endpoint a) then _ else _) =>
      destruct (truthy (a_liveness_endpoint a))
  | |- keeps _ (match a_command a with Some _ => _ | None => _ end) =>
      destruct (a_command a)
  | |- keeps _ (_ ≫= _) => apply keeps_bind; [|intros ?]
  end.
Qed.

Lemma returns_lists_bind {A} (m : Coro A) (f : A → Coro (list nat * list nat)) :
  (∀ a, returns_lists (f a)) → returns_lists (m ≫= f).
Proof.
  intros Hf W st rt W' H. rewrite bind_run in H.
  destruct (m W) as [[a|e|] W1]; [by eapply Hf|done..].
Qed.

Lemma spawn_all_returns_lists (a : SpawnArgs) : returns_lists (spawn_all a).
Proof.
  unfold spawn_all. do 16 (apply returns_lists_bind; intros ?).
  intros W st rt W' H. by inversion H.
Qed.

Lemma default_scope_given (a : SpawnArgs) (namespaces : list string) (W : World) :
  a_clusterwide a || nonempty namespaces = true →
  default_scope a namespaces W = (Ok (a_clusterwide a), W).
Proof.
  unfold default_scope. intros H.
  by destruct (a_clusterwide a), (nonempty namespaces).
Qed.

(** The arguments name two scopes at once. *)
Definition conflicting (a : SpawnArgs) : Prop :=
  (nonempty (a_namespaces a) = true ∧ truthy (a_namespace a) = true) ∨
  (a_clusterwide a = true ∧
   (nonempty (a_namespaces a) = true ∨ truthy (a_namespace a) = true)).

(** Every run of [spawn_tasks] either ends in the validation of the scope,
    with a [TypeError] and nothing but warnings logged, or goes on to create
    the tasks, from a world with empty lists and the settings passed on. *)
Lemma spawn_tasks_cases (a : SpawnArgs) (W : World) :
  (∃ msg W', spawn_tasks a W = (Raise (Error (TypeError msg)), W') ∧
             (W' = W ∨ W' = set_log (log W ++ [(now W, deprecated_warning)]) W) ∧
             conflicting a) ∨
  (∃ W1 l clusterwide,
     spawn_tasks a W = spawn_all a W1 ∧
     env W1 = env W ∧ now W1 = now W ∧ scripts W1 = scripts W ∧
     cancelled W1 = cancelled W ∧ cancels W1 = cancels W ∧
     timers W1 = timers W ∧ handlers W1 = handlers W ∧
     live_system W1 = [] ∧ live_root W1 = [] ∧ started W1 = None ∧
     log W1 = log W ++ l ∧
     settings_var W1 =
       Some (mapped_settings a clusterwide
               (default (default_settings (env W)) (a_settings a))) ∧
     clusterwide = (a_clusterwide a ||
                    negb (nonempty (a_namespaces a) || truthy (a_namespace a))) ∧
     l = (if truthy (a_namespace a) then [(now W, deprecated_warning)] else []) ++
         (if clusterwide && negb (a_clusterwide a)
          then [(now W, no_scope_warning)] else [])).
Proof.
  rewrite spawn_tasks_unfold, bind_run.
  destruct (truthy (a_namespace a)) eqn:Hn.
  - destruct (nonempty (a_namespaces a)) eqn:Hns.
    { left. rewrite select_namespaces_both by done. eexists _, _.
      split; [reflexivity|]. split; [by left|]. left. by rewrite Hns, Hn. }
    rewrite select_namespaces_deprecated by done.
    assert (Hone : nonempty (option_list (a_namespace a)) = true).
    { unfold truthy in Hn. by destruct (a_namespace a). }
    rewrite bind_run. destruct (a_clusterwide a) eqn:Hcw.
    { left. rewrite check_scope_both by done. eexists _, _.
      split; [reflexivity|]. split; [by right|].
      right. rewrite Hcw, Hn. split; [done|by right]. }
    right. rewrite check_scope_ok by (by rewrite Hcw).
    rewrite bind_run, default_scope_given by (by rewrite Hcw, Hone).
    rewrite bind_run. unfold get_world at 1. cbv beta iota.
    rewrite bind_run. unfold modify at 1. cbv beta iota.
    rewrite bind_run. unfold modify at 1. cbv beta iota.
    eexists _, _, _. split; [reflexivity|]. simpl. rewrite ?Hcw.
      split_and!; try done; by rewrite ?app_nil_r.
  - rewrite select_namespaces_plain by done. rewrite bind_run.
    destruct (a_clusterwide a) eqn:Hcw, (nonempty (a_namespaces a)) eqn:Hns.
    + left. rewrite check_scope_both by done. eexists _, _.
      split; [reflexivity|]. split; [by left|].
      right. rewrite Hcw, Hns. split; [done|by left].
    + right. rewrite check_scope_ok by (by rewrite Hcw, Hns).
      rewrite bind_run, default_scope_given by (by rewrite Hcw).
      rewrite bind_run. unfold get_world at 1. cbv beta iota.
      rewrite bind_run. unfold modify at 1. cbv beta iota.
      rewrite bind_run. unfold modify at 1. cbv beta iota.
      eexists _, _, _. split; [reflexivity|]. simpl. rewrite ?Hcw.
      split_and!; try done; by rewrite ?app_nil_r.
    + right. rewrite check_scope_ok by (by rewrite Hcw).
      rewrite bind_run, default_scope_given by (by rewrite Hcw, Hns).
      rewrite bind_run. unfold get_world at 1. cbv beta iota.
      rewrite bind_run. unfold modify at 1. cbv beta iota.
      rewrite bind_run. unfold modify at 1. cbv beta iota.
      eexists _, _, _. split; [reflexivity|]. simpl. rewrite ?Hcw.
      split_and!; try done; by rewrite ?app_nil_r.
    + right. rewrite check_scope_ok by (by rewrite Hcw).
      rewrite bind_run, default_scope_warns by done.
      rewrite bind_run. unfold get_world at 1. cbv beta iota.
      rewrite bind_run. unfold modify at 1. cbv beta iota.
      rewrite bind_run. unfold modify at 1. cbv beta iota.
      eexists _, _, _. split; [reflexivity|]. simpl. rewrite ?Hcw.
      split_and!; try done; by rewrite ?app_nil_r.
Qed.

(** X1: [spawn_tasks] returns the two shared lists; the tasks on them are new
    tasks of the loop, each listed once and on one list only; every root
    task is a guarded one; and the tasks that were there before are as they
    were, none of them cancelled. *)
Theorem spawn_tasks_fresh_tasks (a : SpawnArgs) (W : World)
    (system_tasks root_tasks : list nat) (W' : World) :
  spawn_tasks a W = (Ok (system_tasks, root_tasks), W') →
  system_tasks = live_system W' ∧ root_tasks = live_root W' ∧
  NoDup (system_tasks ++ root_tasks) ∧ system_tasks ## root_tasks ∧
  (∀ t, t ∈ system_tasks ++ root_tasks →
        t ∈ dom (scripts W') ∧ t ∉ dom (scripts W)) ∧
  (∀ t, t ∈ root_tasks → ∃ s, scripts W' !! t = Some s ∧ s_guarded s = true) ∧
  (∀ t, t ∈ dom (scripts W) → scripts W' !! t = scripts W !! t) ∧
  cancelled W' = cancelled W.
Proof.
  intros Hrun.
  destruct (spawn_tasks_cases a W)
    as [(msg & Wx & Hx & _)|(W1 & l & cw & Heq & _ & _ & Hs & Hc & _ & _ & _ & Hls & Hlr & _)];
    [congruence|].
  rewrite Heq in Hrun. clear Heq.
  assert (H1 : listed W W1).
  { clear Hrun. split; rewrite ?Hls, ?Hlr; simpl.
    - apply NoDup_nil_2.
    - intros t Ht. by apply elem_of_nil in Ht.
    - intros t Ht. by apply elem_of_nil in Ht.
    - intros t _. by rewrite Hs.
    - exact Hc. }
  pose proof (spawn_all_listed W a W1 H1) as [Hnd Hfr Hg Hk Hcan].
  rewrite Hrun in Hnd, Hfr, Hg, Hk, Hcan.
  destruct (spawn_all_returns_lists a W1 _ _ _ Hrun) as [-> ->].
  clear Hrun H1. simpl in Hnd, Hfr, Hg, Hk, Hcan.
  split_and!; try done.
  apply NoDup_app in Hnd as (_ & Hdisj & _). intros t Hs' Hr'. by apply (Hdisj t).
Qed.

Lemma spawn_tasks_fresh_tasks_witness :
  ∃ system_tasks root_tasks W',
    spawn_tasks no_scope_args sample_world = (Ok (system_tasks, root_tasks), W') ∧
    NoDup (system_tasks ++ root_tasks) ∧ system_tasks ## root_tasks.
Proof.
  destruct (spawn_tasks no_scope_args sample_world) as [[[st rt]|e|] W'] eqn:E.
  - exists st, rt, W'. split; [reflexivity|].
    destruct (spawn_tasks_fresh_tasks no_scope_args sample_world st rt W' E)
      as (_ & _ & Hnd & Hdisj & _).
    clear E. split; [exact Hnd|exact Hdisj].
  - exfalso. vm_compute in E. discriminate.
  - exfalso. vm_compute in E. discriminate.
Defined.

(** X2: the settings that [spawn_tasks] passes on are those given, or the
    default ones, with the peering fields mapped from the arguments: the
    cluster-wide flag as given, or set when no scope is given at all; a
    peering name makes the peering mandatory; [standalone] and [priority]
    replace the settings' own only when they are given; the process settings
    are not touched. *)
Theorem spawn_tasks_settings (a : SpawnArgs) (W : World)
    (system_tasks root_tasks : list nat) (W' : World) :
  spawn_tasks a W = (Ok (system_tasks, root_tasks), W') →
  let given := default (default_settings (env W)) (a_settings a) in
  ∃ s, settings_var W' = Some s ∧
       process s = process given ∧
       p_clusterwide (peering s) =
         a_clusterwide a || negb (nonempty (a_namespaces a) || truthy (a_namespace a)) ∧
       p_mandatory (peering s) =
         match a_peering_name a with
         | Some _ => true
         | None => p_mandatory (peering given)
         end ∧
       p_name (peering s) = default (p_name (peering given)) (a_peering_name a) ∧
       p_standalone (peering s) =
         default (p_standalone (peering given)) (a_standalone a) ∧
       p_priority (peering s) = default (p_priority (peering given)) (a_priority a).
Proof.
  intros Hrun given.
  destruct (spawn_tasks_cases a W)
    as [(msg & Wx & Hx & _)|(W1 & l & cw & Heq & _ & _ & _ & _ & _ & _ & _ & _ & _ & _ & _
                              & Hsv & Hcw & _)];
    [congruence|].
  rewrite Heq in Hrun. clear Heq.
  destruct (spawn_all_settled a W1) as [Hs _]. rewrite Hrun in Hs. simpl in Hs.
  clear Hrun.
  eexists. split; [by rewrite Hs, Hsv|]. fold given. rewrite <-Hcw.
  unfold mapped_settings.
  by destruct (a_peering_name a), (a_standalone a), (a_priority a).
Qed.

Definition peered_args : SpawnArgs :=
  mkArgs None None (Some 7) (Some "team") None true [] None None None None.

Lemma spawn_tasks_settings_witness :
  ∃ system_tasks root_tasks W' s,
    spawn_tasks peered_args sample_world = (Ok (system_tasks, root_tasks), W') ∧
    settings_var W' = Some s ∧
    p_mandatory (peering s) = true ∧ p_name (peering s) = "team" ∧
    p_priority (peering s) = 7 ∧ p_standalone (peering s) = false.
Proof.
  destruct (spawn_tasks peered_args sample_world) as [[[st rt]|e|] W'] eqn:E.
  - destruct (spawn_tasks_settings peered_args sample_world st rt W' E)
      as (s & Hs & _ & _ & Hm & Hn & Hst & Hp).
    clear E. exists st, rt, W', s.
    split; [reflexivity|]. split; [exact Hs|]. split; [exact Hm|].
    split; [exact Hn|]. split; [exact Hp|exact Hst].
  - exfalso. vm_compute in E. discriminate.
  - exfalso. vm_compute in E. discriminate.
Defined.

(** * [_startup_cleanup_activities]: the vault, and the sleep *)

Definition cleanup_world : World :=
  mkWorld sample_env 0
    (list_to_map
       [(1, mkScript "system" 0 false false
              (mkBehaviour (Some (3, Returned)) (Some (0, Cancelled))));
        (2, mkScript "root" 0 true false
              (mkBehaviour (Some (1, Returned)) (Some (0, Cancelled))))])
    ∅ [4] None [] [] [1; 100] [2; 100] None [].

Lemma cleanup_end_vault (T4 : nat) (r : Res unit) (post : list (nat * event)) :
  cleanup_end T4 r post →
  (r = Ok tt ↔ ∃ T6, (T6, EvVaultClosed) ∈ post) ∧
  (∀ T6, (T6, EvVaultClosed) ∈ post →
         ∃ T5, T4 ≤ T5 ∧ T5 ≤ T6 ∧ (T5, EvActivityEnd CLEANUP) ∈ post).
Proof.
  intros [Tc|e|T5 Tc H45|T5 T6 H45 H56].
  - split; [split; [done|]|].
    + intros (T6 & Hin). apply list_elem_of_singleton in Hin. done.
    + intros T6 Hin. apply list_elem_of_singleton in Hin. done.
  - split; [split; [done|]|].
    + intros (T6 & Hin). by apply elem_of_nil in Hin.
    + intros T6 Hin. by apply elem_of_nil in Hin.
  - split; [split; [done|]|].
    + intros (T6 & Hin).
      repeat (apply elem_of_cons in Hin as [Hin|Hin]; [done|]).
      by apply elem_of_nil in Hin.
    + intros T6 Hin.
      repeat (apply elem_of_cons in Hin as [Hin|Hin]; [done|]).
      by apply elem_of_nil in Hin.
  - split; [split; [|done]|].
    + intros _. exists T6. right. by left.
    + intros T6' Hin. apply elem_of_cons in Hin as [Hin|Hin]; [done|].
      apply list_elem_of_singleton in Hin. injection Hin as ->.
      exists T5. split_and!; [done..|by left].
Qed.

Lemma is_wait_not_vault (wl : list (nat * event)) (T : nat) :
  Forall (λ x, is_wait x) wl → (T, EvVaultClosed) ∉ wl.
Proof.
  intros Hwl Hin. rewrite Forall_forall in Hwl. by apply Hwl in Hin.
Qed.

Lemma after_gate_vault (W : World) (r : Res unit) (rest : list (nat * event)) :
  after_gate W r rest →
  (r = Ok tt ↔ ∃ T6, (T6, EvVaultClosed) ∈ rest) ∧
  (∀ T6, (T6, EvVaultClosed) ∈ rest →
         ∃ T4 T5, T4 ≤ T5 ∧ T5 ≤ T6 ∧ (T4, EvActivityBegin CLEANUP) ∈ rest ∧
                  (T5, EvActivityEnd CLEANUP) ∈ rest).
Proof.
  intros [|wl Tc Hwl|wl Hwl|wl T4 post r' Hwl Hdone Hend].
  - split; [split; [done|]|].
    + intros (T6 & Hin). by apply elem_of_nil in Hin.
    + intros T6 Hin. by apply elem_of_nil in Hin.
  - assert (Hno : ∀ T6, (T6, EvVaultClosed) ∉ wl ++ [(Tc, EvWarn waiting_warning)]).
    { intros T6 Hin. apply elem_of_app in Hin as [Hin|Hin].
      - by apply (is_wait_not_vault wl T6).
      - apply list_elem_of_singleton in Hin. done. }
    split; [split; [done|]|].
    + intros (T6 & Hin). by apply Hno in Hin.
    + intros T6 Hin. by apply Hno in Hin.
  - split; [split; [done|]|].
    + intros (T6 & Hin). by apply (is_wait_not_vault wl T6) in Hin.
    + intros T6 Hin. by apply (is_wait_not_vault wl T6) in Hin.
  - destruct (cleanup_end_vault T4 r' post Hend) as [Hiff Hord].
    assert (Hpost : ∀ T6, (T6, EvVaultClosed) ∈ wl ++ (T4, EvActivityBegin CLEANUP) :: post →
                          (T6, EvVaultClosed) ∈ post).
    { intros T6 Hin. apply elem_of_app in Hin as [Hin|Hin].
      - by apply (is_wait_not_vault wl T6) in Hin.
      - by apply elem_of_cons in Hin as [Hin|Hin]. }
    split; [split|].
    + intros Hr. destruct (proj1 Hiff Hr) as (T6 & Hin). exists T6.
      apply elem_of_app. right. by right.
    + intros (T6 & Hin). apply Hiff. exists T6. by apply Hpost.
    + intros T6 Hin. destruct (Hord T6 (Hpost T6 Hin)) as (T5 & H45 & H56 & Hin5).
      exists T4, T5. split_and!; [done..| |].
      * apply elem_of_app. right. by left.
      * apply elem_of_app. right. by right.
Qed.

(** X3: [_startup_cleanup_activities] returns normally exactly when it has
    closed the vault; it closes the vault only after the cleanup activity
    has begun and ended, in this order; so a run that ends in an error, of
    the startup or of the cleanup activity, or in a cancellation, or that
    never ends, leaves the vault open. *)
Theorem vault_closed_after_cleanup (ready_flag : option Flag) (W : World) :
  ∃ l, log (_startup_cleanup_activities ready_flag W).2 = log W ++ l ∧
       ((_startup_cleanup_activities ready_flag W).1 = Ok tt ↔
        ∃ T6, (T6, EvVaultClosed) ∈ l) ∧
       (∀ T6, (T6, EvVaultClosed) ∈ l →
              ∃ T4 T5, T4 ≤ T5 ∧ T5 ≤ T6 ∧ (T4, EvActivityBegin CLEANUP) ∈ l ∧
                       (T5, EvActivityEnd CLEANUP) ∈ l).
Proof.
  destruct (_startup_cleanup_activities ready_flag W) as [r W'] eqn:Hrun.
  destruct (runner_trace _ _ _ _ Hrun)
    as [Tc Hr Hl Hs|e Hr He Hl Hs|T1 rest HT1 Hnone Hl Hs Hag]; clear Hrun; simpl.
  - eexists. split; [exact Hl|]. subst r. split; [split; [done|]|].
    + intros (T6 & Hin).
      repeat (apply elem_of_cons in Hin as [Hin|Hin]; [done|]).
      by apply elem_of_nil in Hin.
    + intros T6 Hin.
      repeat (apply elem_of_cons in Hin as [Hin|Hin]; [done|]).
      by apply elem_of_nil in Hin.
  - eexists. split; [exact Hl|]. subst r. split; [split; [done|]|].
    + intros (T6 & Hin).
      repeat (apply elem_of_cons in Hin as [Hin|Hin]; [done|]).
      by apply elem_of_nil in Hin.
    + intros T6 Hin.
      repeat (apply elem_of_cons in Hin as [Hin|Hin]; [done|]).
      by apply elem_of_nil in Hin.
  - destruct (after_gate_vault W r rest Hag) as [Hiff Hord].
    assert (Hrest : ∀ T6,
              (T6, EvVaultClosed) ∈
                [(now W, starting W); (now W, EvActivityBegin STARTUP);
                 (T1, EvActivityEnd STARTUP); (T1, EvStartedSet)] ++
                ready_log ready_flag T1 ++ rest →
              (T6, EvVaultClosed) ∈ rest).
    { intros T6 Hin. apply elem_of_app in Hin as [Hin|Hin].
      - repeat (apply elem_of_cons in Hin as [Hin|Hin]; [done|]).
        by apply elem_of_nil in Hin.
      - apply elem_of_app in Hin as [Hin|Hin]; [|done].
        destruct ready_flag; simpl in Hin.
        + apply list_elem_of_singleton in Hin. done.
        + by apply elem_of_nil in Hin. }
    assert (Hback : ∀ x, x ∈ rest →
              x ∈ [(now W, starting W); (now W, EvActivityBegin STARTUP);
                   (T1, EvActivityEnd STARTUP); (T1, EvStartedSet)] ++
                  ready_log ready_flag T1 ++ rest).
    { intros x Hx. apply elem_of_app. right. apply elem_of_app. by right. }
    eexists. split; [exact Hl|]. split; [split|].
    + intros Hr. destruct (proj1 Hiff Hr) as (T6 & Hin). exists T6. by apply Hback.
    + intros (T6 & Hin). apply Hiff. exists T6. by apply Hrest.
    + intros T6 Hin. destruct (Hord T6 (Hrest T6 Hin)) as (T4 & T5 & ? & ? & ? & ?).
      exists T4, T5. split_and!; [done..| |]; by apply Hback.
Qed.

Lemma vault_closed_after_cleanup_witness :
  ∃ l, log (_startup_cleanup_activities None cleanup_world).2 = log cleanup_world ++ l ∧
       (_startup_cleanup_activities None cleanup_world).1 = Ok tt ∧
       ∃ T4 T5 T6, T4 ≤ T5 ∧ T5 ≤ T6 ∧ (T6, EvVaultClosed) ∈ l ∧
                   (T4, EvActivityBegin CLEANUP) ∈ l ∧ (T5, EvActivityEnd CLEANUP) ∈ l.
Proof.
  destruct (vault_closed_after_cleanup None cleanup_world) as (l & Hl & Hiff & Hord).
  assert (Hok : (_startup_cleanup_activities None cleanup_world).1 = Ok tt).
  { vm_compute. exact eq_refl. }
  exists l. split; [exact Hl|]. split; [exact Hok|].
  destruct (proj1 Hiff Hok) as (T6 & Hin).
  destruct (Hord T6 Hin) as (T4 & T5 & H45 & H56 & Hb & He).
  exists T4, T5, T6. split; [exact H45|]. split; [exact H56|].
  split; [exact Hin|]. split; [exact Hb|exact He].
Defined.

Lemma run_activity_uncancelled (a : Activity) (W : World) :
  cancels W = [] →
  let T := now W + (activities (env W) a).1 in
  let W1 := set_now T (set_log (log W ++ [(now W, EvActivityBegin a)]) W) in
  run_activity a W =
    match (activities (env W) a).2 with
    | Some e => (Raise (Error e), W1)
    | None => (Ok tt, set_log (log W1 ++ [(T, EvActivityEnd a)]) W1)
    end.
Proof.
  intros Hcs T W1. unfold run_activity.
  rewrite bind_run, emit_run. cbv beta iota zeta.
  rewrite bind_run. unfold get_world at 1. cbv beta iota zeta.
  rewrite bind_run, suspend_ok by done. cbv beta iota zeta.
  change (env (set_log _ W)) with (env W). change (now (set_log _ W)) with (now W).
  replace (now W `max` (now W + (activities (env W) a).1)) with T by (subst T; lia).
  by destruct ((activities (env W) a).2).
Qed.

(** X4: a run of [_startup_cleanup_activities] that is never cancelled
    logs that Kopf is starting, with the version of the package or
    [(unknown version)], and ends with the startup activity: in its error,
    if it fails, with the gate left closed; and else in the sleep behind the
    opened gate, from which it never wakes.  So the cleanup activity never
    begins, and the vault is never closed, unless the runner is cancelled. *)
Theorem runner_sleeps_until_cancelled (ready_flag : option Flag) (W : World) :
  cancels W = [] →
  let T1 := now W + (activities (env W) STARTUP).1 in
  ∃ W' l, log W' = log W ++ l ∧
    (∀ T, ((T, EvActivityBegin CLEANUP) ∉ l) ∧ ((T, EvVaultClosed) ∉ l)) ∧
    match (activities (env W) STARTUP).2 with
    | Some e =>
        _startup_cleanup_activities ready_flag W = (Raise (Error e), W') ∧
        started W' = started W ∧
        l = [(now W, starting W); (now W, EvActivityBegin STARTUP)]
    | None =>
        _startup_cleanup_activities ready_flag W = (Hang, W') ∧
        is_Some (started W') ∧
        l = [(now W, starting W); (now W, EvActivityBegin STARTUP);
             (T1, EvActivityEnd STARTUP); (T1, EvStartedSet)] ++ ready_log ready_flag T1
    end.
Proof.
  intros Hcs T1.
  assert (Hrun : _startup_cleanup_activities ready_flag W =
            match run_activity STARTUP
                    (set_log (log W ++ [(now W, starting W)]) W) with
            | (Ok _, W1) =>
                (started_flag_set ≫= λ _, raise_flag ready_flag ≫= λ _, gate_onwards) W1
            | (Raise CancelledError, W1) =>
                (emit (EvWarn startup_warning) ≫= λ _, raise CancelledError) W1
            | (Raise e, W1) => (Raise e, W1)
            | (Hang, W1) => (Hang, W1)
            end).
  { rewrite runner_unfold, starting_run. cbv beta iota zeta.
    rewrite bind_run, try_run.
    by destruct (run_activity STARTUP _) as [[[]|[|e]|] W1]. }
  rewrite Hrun, run_activity_uncancelled by done. clear Hrun.
  change (env (set_log _ W)) with (env W). change (now (set_log _ W)) with (now W).
  fold T1.
  destruct ((activities (env W) STARTUP).2) as [e|] eqn:He.
  - eexists _, _. split; [|split; [|split; [reflexivity|split; [|reflexivity]]]].
    + simpl. by rewrite <-app_assoc.
    + intros T. split; intros Hin;
        repeat (apply elem_of_cons in Hin as [Hin|Hin]; [done|]);
        by apply elem_of_nil in Hin.
    + done.
  - rewrite bind_run. unfold started_flag_set at 1. cbv beta iota zeta.
    rewrite bind_run.
    assert (Hno : ∀ T, ((T, EvActivityBegin CLEANUP) ∉
                [(now W, starting W); (now W, EvActivityBegin STARTUP);
                 (T1, EvActivityEnd STARTUP); (T1, EvStartedSet)] ++
                ready_log ready_flag T1) ∧
              ((T, EvVaultClosed) ∉
                [(now W, starting W); (now W, EvActivityBegin STARTUP);
                 (T1, EvActivityEnd STARTUP); (T1, EvStartedSet)] ++
                ready_log ready_flag T1)).
    { intros T. split; intros Hin; apply elem_of_app in Hin as [Hin|Hin];
        try (repeat (apply elem_of_cons in Hin as [Hin|Hin]; [done|]);
             by apply elem_of_nil in Hin);
        destruct ready_flag; simpl in Hin;
        try (by apply elem_of_nil in Hin);
        apply list_elem_of_singleton in Hin; done. }
    destruct ready_flag as [f|]; simpl raise_flag.
    + rewrite emit_run. cbv beta iota zeta. unfold gate_onwards.
      rewrite bind_run, try_run. unfold suspend at 1. simpl cancels. rewrite Hcs.
      eexists _, _. split; [|split; [exact Hno|split; [reflexivity|split; [|reflexivity]]]].
      * simpl. by rewrite <-!app_assoc.
      * simpl. by destruct (started W).
    + change (@mret Coro Coro_ret unit tt ?W1) with (@Ok unit tt, W1).
      cbv beta iota zeta. unfold gate_onwards.
      rewrite bind_run, try_run. unfold suspend at 1. simpl cancels. rewrite Hcs.
      eexists _, _. split; [|split; [exact Hno|split; [reflexivity|split; [|reflexivity]]]].
      * simpl. by rewrite <-!app_assoc.
      * simpl. by destruct (started W).
Qed.

(** A world in which the version of the package is not known. *)
Definition unversioned_world : World :=
  mkWorld (mkEnv 77 100 true true
             (mkSettings (mkProcess None) (mkPeering false false "default" false 0))
             (λ _, quiet) (λ _, (2, None)) 1 [] None)
    0 ∅ ∅ [] None [] [] [] [] None [].

Lemma runner_sleeps_until_cancelled_witness :
  (∃ W' l, log W' = log sample_world ++ l ∧
     (∀ T, ((T, EvActivityBegin CLEANUP) ∉ l) ∧ ((T, EvVaultClosed) ∉ l)) ∧
     _startup_cleanup_activities None sample_world = (Hang, W') ∧
     is_Some (started W') ∧
     l = [(0, EvDebug "Starting Kopf 1.36.2."); (0, EvActivityBegin STARTUP);
          (2, EvActivityEnd STARTUP); (2, EvStartedSet)]) ∧
  (∃ W' l, log W' = log unversioned_world ++ l ∧
     (∀ T, ((T, EvActivityBegin CLEANUP) ∉ l) ∧ ((T, EvVaultClosed) ∉ l)) ∧
     _startup_cleanup_activities None unversioned_world = (Hang, W') ∧
     is_Some (started W') ∧
     l = [(0, EvDebug "Starting Kopf (unknown version)."); (0, EvActivityBegin STARTUP);
          (2, EvActivityEnd STARTUP); (2, EvStartedSet)]).
Proof.
  split.
  - exact (runner_sleeps_until_cancelled None sample_world eq_refl).
  - exact (runner_sleeps_until_cancelled None unversioned_world eq_refl).
Defined.

(** * [spawn_tasks]: the signal handlers *)

(** A step that registers no signal handler. *)
Definition untouched (W W' : World) : Prop :=
  env W' = env W ∧ handlers W' = handlers W ∧ log W `prefix_of` log W'.

(** Why the signals of the OS are ignored, when they are. *)
Definition signal_warning (e : Env) : option string :=
  if in_main_thread e then
    if unix_signals e then None
    else Some "OS signals are ignored: can't add signal handler in Windows."
  else Some "OS signals are ignored: running not in the main thread.".

(** What a run has done about the signal handlers. *)
Definition registered {A} (W : World) (r : Res A) (W' : World) : Prop :=
  env W' = env W ∧
  match r with
  | Ok _ =>
      match signal_warning (env W) with
      | None => handlers W' = handlers W ++ [SIGINT; SIGTERM]
      | Some msg =>
          handlers W' = handlers W ∧
          ∃ l, log W' = log W ++ l ++ [(now W', EvWarn msg)]
      end
  | _ => handlers W' = handlers W
  end.

Definition registers {A} (m : Coro A) : Prop :=
  ∀ W, registered W (m W).1 (m W).2.

#[global] Instance untouched_refl : Reflexive untouched.
Proof. by intros W. Qed.

#[global] Instance untouched_trans : Transitive untouched.
Proof.
  intros W1 W2 W3 (He1 & Hh1 & Hl1) (He2 & Hh2 & Hl2).
  split_and!; [congruence..|by etrans].
Qed.

Lemma registers_bind {A B} (m : Coro A) (f : A → Coro B) :
  respects untouched m → (∀ a, registers (f a)) → registers (m ≫= f).
Proof.
  intros Hm Hf W. rewrite bind_run. destruct (Hm W) as (He & Hh & l1 & Hl).
  destruct (m W) as [[a|e|] W1]; simpl in *; [|by split..].
  destruct (Hf a W1) as [He' Hr]. split; [congruence|].
  destruct (f a W1) as [[b|e|] W2]; simpl in *; [|congruence..].
  rewrite He, Hh in Hr. destruct (signal_warning (env W)) as [msg|]; [|done].
  destruct Hr as [Hh' (l2 & Hl2)]. split; [done|].
  exists (l1 ++ l2). by rewrite Hl2, Hl, <-!app_assoc.
Qed.

Lemma spawn_system_untouched (name : string) (guarded finishable : bool) :
  respects untouched (spawn_named name guarded finishable ≫= append_system).
Proof. intros W. split_and!; [done..|]. by apply prefix_app_r. Qed.

Lemma spawn_root_untouched (name : string) (guarded finishable : bool) :
  respects untouched (spawn_named name guarded finishable ≫= append_root).
Proof. intros W. split_and!; [done..|]. by apply prefix_app_r. Qed.

Lemma create_root_untouched (name : string) (guarded finishable : bool) (b : Behaviour) :
  respects untouched (create_task name guarded finishable b ≫= append_root).
Proof. intros W. split_and!; [done..|]. by apply prefix_app_r. Qed.

Lemma yield_untouched : respects untouched (W ← get_world; suspend (Some (now W))).
Proof.
  intros W. rewrite bind_run. unfold get_world. cbv beta iota. unfold suspend.
  destruct (cancels W) as [|c cs]; try case_bool_decide; by split_and!.
Qed.

Lemma register_handlers_registers :
  registers (register_handlers;; W ← get_world; mret (live_system W, live_root W)).
Proof.
  intros [[th sf mt us ds wl ac vc sg vn] n sc ca cs st tm h ls lr sv l].
  unfold registered, signal_warning.
  destruct mt, us; (split; [reflexivity|]); simpl; try reflexivity;
    (split; [reflexivity|]); by exists [].
Qed.

Lemma spawn_all_registers (a : SpawnArgs) : registers (spawn_all a).
Proof.
  unfold spawn_all.
  repeat match goal with
  | |- registers (register_handlers ≫= _) => apply register_handlers_registers
  | |- registers (_ ≫= _) => apply registers_bind; [|intros ?]
  | |- respects _ (spawn_named _ _ _ ≫= append_system) => apply spawn_system_untouched
  | |- respects _ (spawn_named _ _ _ ≫= append_root) => apply spawn_root_untouched
  | |- respects _ (create_task _ _ _ _ ≫= append_root) => apply create_root_untouched
  | |- respects _ (get_world ≫= _) => apply yield_untouched
  | |- respects _ (mret _) => apply (respects_ret untouched)
  | |- respects _ (if truthy (a_liveness_endpoint a) then _ else _) =>
      destruct (truthy (a_liveness_endpoint a))
  | |- respects _ (match a_command a with Some _ => _ | None => _ end) =>
      destruct (a_command a)
  end.
Qed.

Lemma deliver_nothing (W : World) :
  handlers W = [] → signal_slot W = mkSlot Pending [].
Proof.
  intros Hh. unfold signal_slot. rewrite Hh.
  induction (signals (env W)) as [|x sigs IH]; [done|].
  rewrite filter_cons_False; [done|]. apply not_elem_of_nil.
Qed.

(** X5: when [spawn_tasks] returns, it has registered the handlers of
    [SIGINT] and [SIGTERM], in this order, if it runs in the main thread and
    the loop implements signal handlers; otherwise it has registered none
    and its last log entry is the warning that says why, and if no handler
    was registered before either, no signal of the OS will ever resolve the
    signal-flag. *)
Theorem spawn_tasks_signal_handlers (a : SpawnArgs) (W : World)
    (system_tasks root_tasks : list nat) (W' : World) :
  spawn_tasks a W = (Ok (system_tasks, root_tasks), W') →
  env W' = env W ∧
  match signal_warning (env W) with
  | None => handlers W' = handlers W ++ [SIGINT; SIGTERM]
  | Some msg =>
      handlers W' = handlers W ∧
      (∃ l, log W' = log W ++ l ++ [(now W', EvWarn msg)]) ∧
      (handlers W = [] → signal_slot W' = mkSlot Pending [])
  end.
Proof.
  intros Hrun.
  destruct (spawn_tasks_cases a W)
    as [(msg & Wx & Hx & _)|(W1 & l & cw & Heq & He & _ & _ & _ & _ & _ & Hh & _ & _ & _
                              & Hl & _)];
    [congruence|].
  rewrite Heq in Hrun. clear Heq.
  pose proof (spawn_all_registers a W1) as [He' Hr]. rewrite Hrun in He', Hr.
  clear Hrun. simpl in He', Hr. rewrite He, Hh in Hr. split; [congruence|].
  destruct (signal_warning (env W)) as [msg|]; [|exact Hr].
  destruct Hr as [Hh' (l' & Hl')]. split; [exact Hh'|]. split.
  - exists (l ++ l'). by rewrite Hl', Hl, <-!app_assoc.
  - intros Hnone. apply deliver_nothing. congruence.
Qed.

Definition threaded_world : World :=
  mkWorld (mkEnv 77 100 false true
             (mkSettings (mkProcess None) (mkPeering false false "default" false 0))
             (λ _, quiet) (λ _, (2, None)) 1 [(3, SIGTERM)] None)
    0 ∅ ∅ [] None [] [] [] [] None [].

Lemma spawn_tasks_signal_handlers_witness :
  ∃ system_tasks root_tasks W',
    spawn_tasks no_scope_args threaded_world = (Ok (system_tasks, root_tasks), W') ∧
    handlers W' = [] ∧ signal_slot W' = mkSlot Pending [].
Proof.
  destruct (spawn_tasks no_scope_args threaded_world) as [[[st rt]|e|] W'] eqn:E.
  - destruct (spawn_tasks_signal_handlers no_scope_args threaded_world st rt W' E)
      as (_ & Hh & _ & Hslot).
    clear E. exists st, rt, W'.
    split; [reflexivity|]. split; [exact Hh|exact (Hslot eq_refl)].
  - exfalso. vm_compute in E. discriminate.
  - exfalso. vm_compute in E. discriminate.
Defined.

(** * [_stop_flag_checker]: what it does and what it leaves alone *)

Lemma wait_first_flag_empty (W : World) :
  ∃ msg, wait_first_flag [] W = (Raise (Error (ValueError msg)), W).
Proof. by eexists. Qed.

Lemma wait_first_flag_frame (flags : list awaitable) (W : World)
    (r : Res flag_result) (W' : World) :
  wait_first_flag flags W = (r, W') →
  cancelled W' = cancelled W ∧ scripts W' = scripts W ∧ log W' = log W ∧
  timers W' = timers W.
Proof.
  unfold wait_first_flag. destruct (decide (flags = [])) as [->|Hne].
  { by intros [= <- <-]. }
  intros H. rewrite bind_run in H. unfold get_world at 1 in H.
  assert (Ht : ∀ r2 W2, suspend (first_completion W flags) W = (r2, W2) →
                        timers W2 = timers W).
  { intros r2 W2 E. unfold suspend in E.
    destruct (cancels W) as [|c cs], (first_completion W flags) as [w|];
      try case_bool_decide; by inversion E. }
  run_bind H as [] W2 E.
  - pose proof (Ht _ _ eq_refl) as Ht2.
    apply suspend_spec in E as (Hev & Hc & Hl & _).
    rewrite bind_run in H. unfold get_world at 1 in H.
    destruct (omap _ flags) as [|[r0|e|] rest]; inversion H; subst;
      by rewrite (ev_scripts _ _ Hev).
  - pose proof (Ht _ _ eq_refl) as Ht2.
    apply suspend_spec in E as (Hev & Hc & Hl & _).
    inversion H; subst. by rewrite (ev_scripts _ _ Hev).
  - pose proof (Ht _ _ eq_refl) as Ht2.
    apply suspend_spec in E as (Hev & Hc & Hl & _).
    inversion H; subst. by rewrite (ev_scripts _ _ Hev).
Qed.

Definition info_message (result : flag_result) : string :=
  match result with
  | RNone => "Stop-flag is raised. Operator is stopping."
  | RSignal sig => "Signal " +:+ signal_name sig +:+ " is received. Operator is stopping."
  | _ => "Stop-flag is set to " +:+ repr result +:+ ". Operator is stopping."
  end.

(** What [_stop_flag_checker] does once it has its flags. *)
Definition await_flags (flags : list awaitable) : Coro unit :=
  try_except_cancelled_else
    (wait_first_flag flags)
    (mret tt)
    (λ result,
       match result with
       | RNone => emit (EvInfo "Stop-flag is raised. Operator is stopping.")
       | RSignal sig =>
           emit (EvInfo ("Signal " +:+ signal_name sig +:+ " is received. Operator is stopping."))
       | _ =>
           emit (EvInfo ("Stop-flag is set to " +:+ repr result +:+ ". Operator is stopping."))
       end).

Lemma stop_flag_checker_unfold (signal_flag : option awaitable) (stop_flag : option Flag) :
  _stop_flag_checker signal_flag stop_flag =
    (flags ←
       match stop_flag with
       | Some flag =>
           t ← create_task "stop-flag waiter" false false (wait_flag flag);
           mret (match signal_flag with Some f => [f] | None => [] end ++
                 [Waiter t (awaited flag)])
       | None => mret (match signal_flag with Some f => [f] | None => [] end)
       end;
     await_flags flags).
Proof. reflexivity. Qed.

Lemma await_flags_spec (flags : list awaitable) (W : World) (r : Res unit) (W' : World) :
  await_flags flags W = (r, W') →
  r ≠ Raise CancelledError ∧
  cancelled W' = cancelled W ∧ scripts W' = scripts W ∧ timers W' = timers W ∧
  (log W' = log W ∨
   r = Ok tt ∧
   ∃ result, (wait_first_flag flags W).1 = Ok result ∧
             log W' = log W ++ [(now W', EvInfo (info_message result))]) ∧
  ((wait_first_flag flags W).1 = Raise CancelledError → r = Ok tt ∧ log W' = log W) ∧
  (flags = [] → ∃ msg, r = Raise (Error (ValueError msg)) ∧ W' = W).
Proof.
  unfold await_flags, try_except_cancelled_else. intros H.
  destruct (wait_first_flag flags W) as [r0 W2] eqn:E.
  assert (Hnil : flags = [] → ∃ msg, r0 = Raise (Error (ValueError msg)) ∧ W2 = W).
  { intros ->. destruct (wait_first_flag_empty W) as (msg & Hmsg).
    rewrite Hmsg in E. inversion E. by exists msg. }
  apply wait_first_flag_frame in E as (Hc & Hs & Hl & Ht).
  destruct r0 as [result|[|e]|]; simpl in *.
  - assert (H' : r = Ok tt ∧
                 W' = set_log (log W2 ++ [(now W2, EvInfo (info_message result))]) W2).
    { destruct result; by inversion H. }
    destruct H' as [-> ->]. simpl. split_and!; try done.
    + right. split; [done|]. exists result. by rewrite Hl.
    + intros Hf. by destruct (Hnil Hf) as (msg & ? & _).
  - inversion H; subst. split_and!; try done; [by left|].
    intros Hf. by destruct (Hnil Hf) as (msg & ? & _).
  - inversion H; subst. split_and!; try done; [by left|].
    intros Hf. destruct (Hnil Hf) as (msg & [= ->] & ->). by exists msg.
  - inversion H; subst. split_and!; try done; [by left|].
    intros Hf. by destruct (Hnil Hf) as (msg & ? & _).
Qed.

(** X6: [_stop_flag_checker] never raises the cancellation it is given, it
    swallows it; it cancels no task and arms no timer; the only task it
    creates is the stop-flag waiter, when there is a stop-flag, and it
    leaves this task as it is, running or not, when it ends; it logs one
    message at most, and only as it returns; and with neither a signal-flag
    nor a stop-flag it fails with a [ValueError], for the empty set that it
    waits for. *)
Theorem stop_flag_checker_frame (signal_flag : option awaitable)
    (stop_flag : option Flag) (W : World) (r : Res unit) (W' : World) :
  _stop_flag_checker signal_flag stop_flag W = (r, W') →
  r ≠ Raise CancelledError ∧
  cancelled W' = cancelled W ∧ timers W' = timers W ∧
  scripts W' =
    match stop_flag with
    | Some flag =>
        <[fresh (dom (scripts W)) :=
            mkScript "stop-flag waiter" (now W) false false (wait_flag flag)]> (scripts W)
    | None => scripts W
    end ∧
  (∃ post,
     log W' = log W ++
       match stop_flag with
       | Some _ => [(now W, EvCreateTask "stop-flag waiter" (fresh (dom (scripts W))))]
       | None => []
       end ++ post ∧
     (post = [] ∨
      r = Ok tt ∧ ∃ result, post = [(now W', EvInfo (info_message result))])) ∧
  (signal_flag = None → stop_flag = None →
   ∃ msg, r = Raise (Error (ValueError msg)) ∧ W' = W).
Proof.
  rewrite stop_flag_checker_unfold. intros H. rewrite bind_run in H.
  destruct stop_flag as [flag|].
  - rewrite bind_run in H. unfold create_task at 1 in H. cbv beta iota zeta in H.
    change (@mret Coro Coro_ret _ ?x ?W1) with (@Ok _ x, W1) in H. cbv beta iota in H.
    apply await_flags_spec in H as (Hnc & Hc & Hs & Ht & Hl & _ & _).
    simpl in Hc, Hs, Ht, Hl. split_and!; try done.
    destruct Hl as [Hl|(-> & result & _ & Hl)].
    + exists []. split; [by rewrite Hl|by left].
    + eexists. split; [by rewrite Hl, <-app_assoc|]. right. split; [done|]. by exists result.
  - change (@mret Coro Coro_ret _ ?x ?W1) with (@Ok _ x, W1) in H. cbv beta iota in H.
    apply await_flags_spec in H as (Hnc & Hc & Hs & Ht & Hl & _ & Hnil).
    split_and!; try done.
    + destruct Hl as [Hl|(-> & result & _ & Hl)].
      * exists []. split; [by rewrite Hl, app_nil_r|by left].
      * eexists. split; [by rewrite Hl|]. right. split; [done|]. by exists result.
    + intros -> _. by apply Hnil.
Qed.

Definition flagged_world : World :=
  mkWorld sample_env 0 ∅ ∅ [] None [] [] [] [] None [].

Lemma stop_flag_checker_frame_witness :
  ∃ W', _stop_flag_checker None (Some (mkFlag (Some 3) None)) flagged_world = (Ok tt, W') ∧
        cancelled W' = ∅ ∧
        ∃ post, log W' = [(0, EvCreateTask "stop-flag waiter" (fresh (dom (scripts flagged_world))))]
                          ++ post ∧
                (post = [] ∨ ∃ result, post = [(now W', EvInfo (info_message result))]).
Proof.
  destruct (_stop_flag_checker None (Some (mkFlag (Some 3) None)) flagged_world)
    as [r W'] eqn:E.
  assert (Hr : r = Ok tt).
  { apply (f_equal fst) in E. vm_compute in E. by subst r. }
  destruct (stop_flag_checker_frame _ _ _ _ _ E) as (_ & Hc & _ & _ & (post & Hl & Hp) & _).
  clear E. subst r. exists W'. split; [reflexivity|]. split; [exact Hc|].
  exists post. split; [exact Hl|]. destruct Hp as [Hp|[_ Hp]]; [by left|by right].
Defined.

Lemma checker_signal_unfold (W : World) :
  _stop_flag_checker (Some SignalFlag) None W =
    match suspend match slot_future (signal_slot W) with
                  | Finished T _ => Some T
                  | Pending => None
                  end W with
    | (Ok _, W2) =>
        match omap (λ a, match completion W2 a with
                         | Some (T, r) => if bool_decide (T ≤ now W2) then Some r else None
                         | None => None
                         end) [SignalFlag] with
        | Ok result :: _ =>
            (Ok tt, set_log (log W2 ++ [(now W2, EvInfo (info_message result))]) W2)
        | Raise CancelledError :: _ => (Ok tt, W2)
        | Raise e :: _ => (Raise e, W2)
        | Hang :: _ | [] => (Hang, W2)
        end
    | (Raise CancelledError, W2) => (Ok tt, W2)
    | (Raise e, W2) => (Raise e, W2)
    | (Hang, W2) => (Hang, W2)
    end.
Proof.
  assert (Hfc : first_completion W [SignalFlag] =
                  match slot_future (signal_slot W) with
                  | Finished T _ => Some T
                  | Pending => None
                  end).
  { simpl. by destruct (slot_future (signal_slot W)). }
  rewrite <-Hfc. clear Hfc.
  change (_stop_flag_checker (Some SignalFlag) None W)
    with (await_flags [SignalFlag] W).
  unfold await_flags, try_except_cancelled_else, wait_first_flag.
  destruct (decide ([SignalFlag] = [])) as [?|_]; [done|].
  rewrite bind_run. unfold get_world at 1. cbv beta iota. rewrite bind_run.
  destruct (suspend (first_completion W [SignalFlag]) W) as [[[]|[|e]|] W2]; try done.
  rewrite bind_run. unfold get_world at 1. cbv beta iota.
  destruct (omap _ [SignalFlag]) as [|[result|[|e]|] rest]; try done.
  by destruct result.
Qed.

Lemma checker_signal_returns (W : World) (T : nat) (sig : Signals) :
  slot_future (signal_slot W) = Finished T sig → cancels W = [] →
  ∃ W', _stop_flag_checker (Some SignalFlag) None W = (Ok tt, W') ∧
        now W' = now W `max` T ∧
        log W' = log W ++
          [(now W `max` T,
            EvInfo ("Signal " +:+ signal_name sig +:+ " is received. Operator is stopping."))].
Proof.
  intros Hf Hcs. rewrite checker_signal_unfold, Hf.
  rewrite suspend_ok by done.
  assert (Hslot : signal_slot (set_now (now W `max` T) W) = signal_slot W) by done.
  simpl omap. rewrite Hslot, Hf. simpl now.
  rewrite bool_decide_eq_true_2 by lia.
  eexists. split; [reflexivity|]. by split.
Qed.

(** X7: with the signal-flag alone to wait for and no cancellation pending,
    [_stop_flag_checker] returns when the signal-flag is resolved, with the
    message that names the signal; cancelled before that, it returns at the
    time of the cancellation and logs nothing; and with the signal-flag never
    resolved and no cancellation it waits for ever. *)
Theorem stop_flag_checker_on_signal (W : World) :
  (∀ T sig, slot_future (signal_slot W) = Finished T sig → cancels W = [] →
     ∃ W', _stop_flag_checker (Some SignalFlag) None W = (Ok tt, W') ∧
           now W' = now W `max` T ∧
           log W' = log W ++
             [(now W `max` T,
               EvInfo ("Signal " +:+ signal_name sig +:+ " is received. Operator is stopping."))]) ∧
  (∀ c cs, cancels W = c :: cs →
     match slot_future (signal_slot W) with
     | Finished T _ => c < T
     | Pending => True
     end →
     ∃ W', _stop_flag_checker (Some SignalFlag) None W = (Ok tt, W') ∧
           now W' = now W `max` c ∧ cancels W' = cs ∧ log W' = log W) ∧
  (slot_future (signal_slot W) = Pending → cancels W = [] →
   _stop_flag_checker (Some SignalFlag) None W = (Hang, W)).
Proof.
  split_and!.
  - intros T sig Hf Hcs. by apply checker_signal_returns.
  - intros c cs Hcs Hlt. rewrite checker_signal_unfold.
    rewrite (suspend_cancelled _ c cs); [|done|by destruct (slot_future (signal_slot W))].
    eexists. split; [reflexivity|]. by split_and!.
  - intros Hf Hcs. rewrite checker_signal_unfold, Hf. unfold suspend. by rewrite Hcs.
Qed.

Definition signalled_world : World :=
  mkWorld (mkEnv 77 100 true true
             (mkSettings (mkProcess None) (mkPeering false false "default" false 0))
             (λ _, quiet) (λ _, (2, None)) 1 [(3, SIGTERM); (4, SIGINT)] None)
    0 ∅ ∅ [] None [] [SIGINT; SIGTERM] [] [] None [].

Lemma stop_flag_checker_on_signal_witness :
  ∃ W', _stop_flag_checker (Some SignalFlag) None signalled_world = (Ok tt, W') ∧
        now W' = 3 ∧
        log W' = [(3, EvInfo "Signal SIGTERM is received. Operator is stopping.")].
Proof.
  apply (proj1 (stop_flag_checker_on_signal signalled_world) 3 SIGTERM).
  - vm_compute. exact eq_refl.
  - reflexivity.
Defined.

(** * The signal-flag is resolved once: the checker *)

Lemma blind_ret {A} (a : A) : blind (mret a : Coro A).
Proof. by intros W1 W2 Ha. Qed.

Lemma blind_raise {A} (e : exn) : blind (raise e : Coro A).
Proof. by intros W1 W2 Ha. Qed.

Lemma blind_bind {A B} (m : Coro A) (f : A → Coro B) :
  blind m → (∀ a, blind (f a)) → blind (m ≫= f).
Proof.
  intros Hm Hf W1 W2 Ha. rewrite !bind_run. destruct (Hm W1 W2 Ha) as [Hr Ha'].
  destruct (m W1) as [[a|e|] W1'], (m W2) as [[a2|e2|] W2'];
    simpl in *; simplify_eq; try done.
  by apply Hf.
Qed.

Lemma blind_try_else {A B} (body : Coro A) (handler : Coro B) (orelse : A → Coro B) :
  blind body → blind handler → (∀ a, blind (orelse a)) →
  blind (try_except_cancelled_else body handler orelse).
Proof.
  intros Hb Hh Ho W1 W2 Ha. unfold try_except_cancelled_else.
  destruct (Hb W1 W2 Ha) as [Hr Ha'].
  destruct (body W1) as [[a|[|e]|] W1'], (body W2) as [[a2|[|e2]|] W2'];
    simpl in *; simplify_eq; try done.
  - by apply Ho.
  - by apply Hh.
Qed.

Lemma create_task_blind (name : string) (guarded finishable : bool) (b : Behaviour) :
  blind (create_task name guarded finishable b).
Proof.
  intros W1 W2 (Hn & Hs & Hc & Hcs & Hl & Hf). unfold create_task. simpl.
  rewrite Hs, Hn, Hl. split; [done|]. unfold alike. simpl. by split_and!.
Qed.

(** What [wait_first_flag] finds done in a world. *)
Definition done_flags (flags : list awaitable) (W : World) : list (Res flag_result) :=
  omap (λ a, match completion W a with
             | Some (T, r) => if bool_decide (T ≤ now W) then Some r else None
             | None => None
             end) flags.

Lemma wait_first_flag_run (flags : list awaitable) (W : World) :
  flags ≠ [] →
  wait_first_flag flags W =
    match suspend (first_completion W flags) W with
    | (Ok _, W2) =>
        match done_flags flags W2 with
        | Ok r :: _ => (Ok r, W2)
        | Raise e :: _ => (Raise e, W2)
        | Hang :: _ | [] => (Hang, W2)
        end
    | (Raise e, W2) => (Raise e, W2)
    | (Hang, W2) => (Hang, W2)
    end.
Proof.
  intros Hne. unfold wait_first_flag, done_flags.
  destruct (decide (flags = [])); [done|].
  rewrite bind_run. unfold get_world at 1. cbv beta iota. rewrite bind_run.
  destruct (suspend (first_completion W flags) W) as [[[]|e|] W2]; try done.
  rewrite bind_run. unfold get_world at 1. cbv beta iota.
  by destruct (omap _ flags) as [|[r|e|] rest].
Qed.

Lemma done_flags_alike (flags : list awaitable) (W1 W2 : World) :
  alike W1 W2 → done_flags flags W1 = done_flags flags W2.
Proof.
  intros Ha. assert (Hn : now W1 = now W2) by apply Ha. unfold done_flags.
  induction flags as [|a flags IH]; [done|].
  csimpl. by rewrite IH, (completion_alike W1 W2 a Ha), Hn.
Qed.

Lemma wait_first_flag_blind (flags : list awaitable) : blind (wait_first_flag flags).
Proof.
  intros W1 W2 Ha. destruct (decide (flags = [])) as [->|Hne].
  { by apply blind_raise. }
  rewrite !wait_first_flag_run by done.
  rewrite (first_completion_alike W1 W2 flags Ha).
  destruct (suspend_blind (first_completion W2 flags) W1 W2 Ha) as [Hr Ha'].
  destruct (suspend (first_completion W2 flags) W1) as [[[]|e|] W1'],
           (suspend (first_completion W2 flags) W2) as [[[]|e2|] W2'];
    simpl in *; simplify_eq; try done.
  rewrite (done_flags_alike flags W1' W2' Ha').
  by destruct (done_flags flags W2') as [|[result|e|] rest].
Qed.

(** [_stop_flag_checker] does the same in worlds that are alike. *)
Lemma stop_flag_checker_blind (signal_flag : option awaitable) (stop_flag : option Flag) :
  blind (_stop_flag_checker signal_flag stop_flag).
Proof.
  unfold _stop_flag_checker. apply blind_bind.
  - destruct stop_flag as [flag|]; [|apply blind_ret].
    apply blind_bind; [apply create_task_blind|intros t; apply blind_ret].
  - intros flags. apply blind_try_else;
      [apply wait_first_flag_blind|apply blind_ret|].
    intros result. destruct result; apply emit_blind.
Qed.

(** The signals that come after the first make no difference to what the
    checker can see. *)
Lemma later_signals_alike (W : World) (first : nat * Signals)
    (later : list (nat * Signals)) :
  first.2 ∈ handlers W →
  alike (set_signals (first :: later) W) (set_signals [first] W).
Proof.
  intros Hin. unfold alike. split_and!; try done.
  by rewrite !signal_slot_first.
Qed.

Lemma deliver_errors (later : list (nat * Signals)) (sl : Slot) (T : nat)
    (sig : Signals) :
  slot_future sl = Finished T sig →
  slot_errors (deliver later sl) =
    slot_errors sl ++ ((λ a, (a.1, InvalidStateError)) <$> later).
Proof.
  revert sl. induction later as [|a later IH]; intros sl Hsl.
  - simpl. by rewrite app_nil_r.
  - destruct (on_signal_finished sl T sig a Hsl) as [Hf He].
    simpl. rewrite (IH _ Hf), He, <-app_assoc. done.
Qed.

(** The claim C8 as it is worded: a signal that comes after the first
    leaves the signal-flag, and what the loop was given with it, as the
    first signal left them. *)
Definition second_resolution_idle (first second : nat * Signals) : Prop :=
  deliver [first; second] (mkSlot Pending []) = deliver [first] (mkSlot Pending []).

(** C8, as worded, fails: [set_result] on the signal-flag that [SIGTERM] has
    resolved at time 3 raises [InvalidStateError] when [SIGINT] comes at time
    4, and the loop's exception handler is given this error. *)
Lemma second_resolution_idle_fails :
  ¬ second_resolution_idle (3, SIGTERM) (4, SIGINT).
Proof.
  intros H. apply (f_equal slot_errors) in H. vm_compute in H. discriminate.
Qed.

(** C8 (amended): say that a signal with a handler has arrived.  Then the
    signal-flag holds this first signal whatever signals come later; each
    later signal with a handler makes [set_result] raise
    [InvalidStateError], which the loop's exception handler is given and no
    task sees; [_stop_flag_checker] does the same, and logs the same,
    whatever signals come later; and with the signal-flag alone to wait for
    and no cancellation it returns once, at the time of the first signal,
    with the one message that names the first signal. *)
Theorem signal_resolved_once (W : World) (first : nat * Signals)
    (later : list (nat * Signals)) (stop_flag : option Flag) :
  first.2 ∈ handlers W →
  let W1 := set_signals (first :: later) W in
  slot_future (signal_slot W1) = Finished first.1 first.2 ∧
  slot_errors (signal_slot W1) =
    (λ a, (a.1, InvalidStateError)) <$> filter (λ a, a.2 ∈ handlers W) later ∧
  (_stop_flag_checker (Some SignalFlag) stop_flag W1).1 =
    (_stop_flag_checker (Some SignalFlag) stop_flag (set_signals [first] W)).1 ∧
  log (_stop_flag_checker (Some SignalFlag) stop_flag W1).2 =
    log (_stop_flag_checker (Some SignalFlag) stop_flag (set_signals [first] W)).2 ∧
  (cancels W = [] →
   ∃ W', _stop_flag_checker (Some SignalFlag) None W1 = (Ok tt, W') ∧
         now W' = now W `max` first.1 ∧
         log W' = log W ++
           [(now W `max` first.1,
             EvInfo ("Signal " +:+ signal_name first.2 +:+
                     " is received. Operator is stopping."))]).
Proof.
  intros Hin W1.
  assert (Hslot : slot_future (signal_slot W1) = Finished first.1 first.2).
  { by apply signal_slot_first. }
  destruct (stop_flag_checker_blind (Some SignalFlag) stop_flag W1
              (set_signals [first] W) (later_signals_alike W first later Hin))
    as [Hr (_ & _ & _ & _ & Hl & _)].
  split_and!; try done.
  - unfold signal_slot, W1. simpl. rewrite filter_cons_True by done. simpl.
    by rewrite (deliver_errors _ _ first.1 first.2).
  - intros Hcs. by apply (checker_signal_returns W1).
Qed.

Lemma signal_resolved_once_witness :
  slot_future (signal_slot signalled_world) = Finished 3 SIGTERM ∧
  slot_errors (signal_slot signalled_world) = [(4, InvalidStateError)] ∧
  ∃ W', _stop_flag_checker (Some SignalFlag) None signalled_world = (Ok tt, W') ∧
        now W' = 3 ∧
        log W' = [(3, EvInfo "Signal SIGTERM is received. Operator is stopping.")].
Proof.
  destruct (signal_resolved_once signalled_world (3, SIGTERM) [(4, SIGINT)] None)
    as (Hf & He & _ & _ & Hrun).
  { simpl. apply elem_of_cons. right. apply elem_of_cons. by left. }
  split; [exact Hf|]. split; [exact He|]. exact (Hrun eq_refl).
Defined.

(** * [operator] and [run] *)

(** The log has grown by entries that all satisfy [P]. *)
Definition logs (P : event → bool) (W W' : World) : Prop :=
  ∃ l, log W' = log W ++ l ∧ Forall (λ x, P x.2) l.

Definition not_cancel (ev : event) : bool :=
  match ev with
  | EvCancel _ _ => false
  | _ => true
  end.

#[global] Instance logs_refl (P : event → bool) : Reflexive (logs P).
Proof. intros W. exists []. by rewrite app_nil_r. Qed.

#[global] Instance logs_trans (P : event → bool) : Transitive (logs P).
Proof.
  intros W1 W2 W3 (l1 & Hl1 & Hf1) (l2 & Hl2 & Hf2). exists (l1 ++ l2).
  split; [by rewrite Hl2, Hl1, app_assoc|]. by apply Forall_app.
Qed.

Lemma logs_one (P : event → bool) (W W' : World) (T : nat) (ev : event) :
  log W' = log W ++ [(T, ev)] → P ev → logs P W W'.
Proof. intros Hl HP. exists [(T, ev)]. split; [done|]. by apply Forall_singleton. Qed.

Lemma logs_none (P : event → bool) (W W' : World) :
  log W' = log W → logs P W W'.
Proof. intros Hl. exists []. by rewrite app_nil_r. Qed.

Lemma not_cancel_passes (l : list (nat * event)) :
  Forall (λ x, not_cancel x.2) l → passes l = [].
Proof.
  induction 1 as [|[T ev] l Hx _ IH]; [done|].
  unfold passes. simpl. by destruct ev.
Qed.

(** The proofs that [spawn_all] respects a relation, step by step. *)
Ltac spawn_respects R lsys lroot lcreate lreg lsusp :=
  repeat match goal with
  | |- respects _ (spawn_named _ _ _ ≫= append_system) => apply lsys
  | |- respects _ (spawn_named _ _ _ ≫= append_root) => apply lroot
  | |- respects _ (create_task _ _ _ _ ≫= append_root) => apply lcreate
  | |- respects _ register_handlers => apply lreg
  | |- respects _ (suspend _) => apply lsusp
  | |- respects _ (mret _) => apply (respects_ret R)
  | |- respects _ get_world => apply (respects_get_world R)
  | |- respects _ (if truthy (a_liveness_endpoint ?a) then _ else _) =>
      destruct (truthy (a_liveness_endpoint a))
  | |- respects _ (match a_command ?a with Some _ => _ | None => _ end) =>
      destruct (a_command a)
  | |- respects _ (_ ≫= _) => apply (respects_bind R); [|intros ?]
  end.

Lemma spawn_system_quiet (name : string) (guarded finishable : bool) :
  respects (logs not_cancel) (spawn_named name guarded finishable ≫= append_system).
Proof. intros W. by eapply logs_one. Qed.

Lemma spawn_root_quiet (name : string) (guarded finishable : bool) :
  respects (logs not_cancel) (spawn_named name guarded finishable ≫= append_root).
Proof. intros W. by eapply logs_one. Qed.

Lemma create_root_quiet (name : string) (guarded finishable : bool) (b : Behaviour) :
  respects (logs not_cancel) (create_task name guarded finishable b ≫= append_root).
Proof. intros W. by eapply logs_one. Qed.

Lemma register_handlers_quiet : respects (logs not_cancel) register_handlers.
Proof.
  intros [[th sf mt us ds wl ac vc sg vn] n sc ca cs st tm h ls lr sv l].
  destruct mt, us; [by apply logs_none|by eapply logs_one..].
Qed.

Lemma suspend_quiet (wake : option nat) : respects (logs not_cancel) (suspend wake).
Proof.
  intros W. apply logs_none. unfold suspend.
  destruct (cancels W) as [|c cs], wake as [w|]; try case_bool_decide; done.
Qed.

Lemma spawn_all_quiet (a : SpawnArgs) : respects (logs not_cancel) (spawn_all a).
Proof.
  unfold spawn_all.
  spawn_respects (logs not_cancel) spawn_system_quiet spawn_root_quiet
    create_root_quiet register_handlers_quiet suspend_quiet.
Qed.

Lemma spawn_tasks_quiet (a : SpawnArgs) (W : World) :
  ∃ l, log (spawn_tasks a W).2 = log W ++ l ∧ passes l = [].
Proof.
  destruct (spawn_tasks_cases a W)
    as [(msg & W' & -> & [->| ->] & _)|(W1 & l & cw & -> & _ & _ & _ & _ & _ & _ & _ & _ & _
                                        & _ & Hl & _ & _ & Hl')].
  - exists []. by rewrite app_nil_r.
  - by eexists.
  - destruct (spawn_all_quiet a W1) as (l2 & Hl2 & Hf2).
    exists (l ++ l2). split; [by rewrite Hl2, Hl, app_assoc|].
    rewrite passes_app, (not_cancel_passes l2 Hf2), app_nil_r. subst l.
    rewrite passes_app.
    by destruct (truthy (a_namespace a)), (cw && negb (a_clusterwide a)).
Qed.

(** A task of the loop that is running at the time of [W]. *)
Definition running (W : World) (t : nat) : Prop :=
  t ∈ dom (scripts W) ∧ is_born W t ∧ ¬ is_done W t.

(** X8: [operator] never cancels a task that was running when it was
    called: whatever its run, and however it ends, every [task.cancel()] of
    its log goes to a task that it has spawned itself or that has come up
    after its snapshot of the loop. *)
Theorem operator_spares_existing (a : SpawnArgs) (W : World) :
  ∃ l, log (operator a W).2 = log W ++ l ∧
       ∀ title t, (title, t) ∈ passes l → ¬ running W t.
Proof.
  unfold operator. rewrite bind_run.
  destruct (all_tasks_spec ∅ W) as (existing & -> & Hex).
  set (W0 := set_log _ W).
  rewrite bind_run. destruct (spawn_tasks_quiet a W0) as (l1 & Hl1 & Hp1).
  destruct (spawn_tasks a W0) as [[[st rt]|e|] W1] eqn:Hspawn; simpl in Hl1.
  2,3: (eexists; split; [simpl; rewrite Hl1; subst W0; simpl;
                         by rewrite <-app_assoc|];
        intros title t Hin; rewrite passes_app, Hp1 in Hin;
        by apply elem_of_nil in Hin).
  destruct (spawn_tasks_fresh_tasks a W0 st rt W1 Hspawn) as (_ & _ & _ & _ & Hfresh & _).
  clear Hspawn.
  destruct (run_tasks st rt existing W1) as [r W'] eqn:Hrun.
  destruct (run_tasks_shaped _ _ _ _ _ _ Hrun)
    as (R & S & H & (l2 & Hl2 & Hp2 & _) & HR & HS & HH).
  clear Hrun. simpl.
  eexists. split.
  { rewrite Hl2, Hl1. subst W0. simpl. by rewrite <-!app_assoc. }
  intros title t Hin (Hdom & Hborn & Hnd).
  rewrite !passes_app, Hp1, Hp2 in Hin. simpl in Hin.
  unfold pass in Hin. rewrite !elem_of_app, !list_elem_of_fmap in Hin.
  destruct Hin as [(t' & [= _ <-] & Hin)|[(t' & [= _ <-] & Hin)|(t' & [= _ <-] & Hin)]].
  - destruct (Hfresh t) as [_ Hnew]; [apply elem_of_app; right; by apply HR|].
    by apply Hnew.
  - destruct (Hfresh t) as [_ Hnew]; [apply elem_of_app; left; by apply HS|].
    by apply Hnew.
  - apply (HH t Hin). apply Hex. split_and!; [set_solver|done|done].
Qed.

Definition busy_world : World :=
  mkWorld (mkEnv 77 100 true true
             (mkSettings (mkProcess None) (mkPeering false false "default" false 0))
             (λ name, if String.eqb name "poster of events"
                      then mkBehaviour (Some (5, Returned)) (Some (0, Cancelled))
                      else quiet)
             (λ _, (2, None)) 1 [] None)
    0 (list_to_map [(1, mkScript "somebody else's" 0 false false quiet)])
    ∅ [] None [] [] [] [] None [].

Lemma busy_world_passes :
  length (passes (log (operator no_scope_args busy_world).2)) = 12.
Proof. vm_compute. exact eq_refl. Qed.

Lemma operator_spares_existing_witness :
  running busy_world 1 ∧
  ∃ l, log (operator no_scope_args busy_world).2 = log busy_world ++ l ∧
       length (passes l) = 12 ∧ ∀ title, (title, 1) ∉ passes l.
Proof.
  assert (Hrun : running busy_world 1).
  { split_and!; vm_compute; [exact eq_refl|exact I|intros H; exact H]. }
  split; [exact Hrun|].
  destruct (operator_spares_existing no_scope_args busy_world) as (l & Hl & Hspare).
  exists l. split; [exact Hl|]. split.
  - pose proof busy_world_passes as Hn. rewrite Hl in Hn. exact Hn.
  - intros title Hin. exact (Hspare title 1 Hin Hrun).
Defined.

Lemma spawn_tasks_conflict (a : SpawnArgs) (W : World) :
  conflicting a →
  ∃ msg W', spawn_tasks a W = (Raise (Error (TypeError msg)), W') ∧
            (W' = W ∨ W' = set_log (log W ++ [(now W, deprecated_warning)]) W).
Proof.
  intros Hc. unfold conflicting in Hc. rewrite spawn_tasks_unfold, bind_run.
  destruct (nonempty (a_namespaces a)) eqn:Hns, (truthy (a_namespace a)) eqn:Hn.
  - rewrite select_namespaces_both by done. eexists _, _. split; [reflexivity|by left].
  - destruct Hc as [[_ ?]|[Hcw _]]; [done|].
    rewrite select_namespaces_plain by done.
    rewrite bind_run, check_scope_both by done.
    eexists _, _. split; [reflexivity|by left].
  - destruct Hc as [[? _]|[Hcw _]]; [done|].
    rewrite select_namespaces_deprecated by done.
    rewrite bind_run, check_scope_both; [|done|].
    + eexists _, _. split; [reflexivity|by right].
    + unfold truthy in Hn. by destruct (a_namespace a).
  - by destruct Hc as [[? _]|[_ [?|?]]].
Qed.

(** X9: [run] passes on what [operator] does, but for the cancellation,
    which it swallows: it never raises [CancelledError], and returns normally
    when the operator is cancelled.  An error is not swallowed: with
    arguments that name two scopes at once, [run] raises the [TypeError] of
    [spawn_tasks], after the snapshot of the loop and at most the
    deprecation warning, with no task created and none cancelled. *)
Theorem run_swallows_cancellation_only (a : SpawnArgs) (W : World) :
  (run a W).2 = (operator a W).2 ∧
  (run a W).1 = match (operator a W).1 with
                | Raise CancelledError => Ok tt
                | r => r
                end ∧
  (run a W).1 ≠ Raise CancelledError ∧
  (conflicting a →
   ∃ msg W' found l,
     run a W = (Raise (Error (TypeError msg)), W') ∧
     scripts W' = scripts W ∧ cancelled W' = cancelled W ∧
     live_root W' = live_root W ∧ live_system W' = live_system W ∧
     log W' = log W ++ (now W, EvAllTasks found) :: l ∧
     (l = [] ∨ l = [(now W, deprecated_warning)])).
Proof.
  unfold run. rewrite try_run. split_and!.
  - by destruct (operator a W) as [[[]|[|e]|] W1].
  - by destruct (operator a W) as [[[]|[|e]|] W1].
  - by destruct (operator a W) as [[[]|[|e]|] W1].
  - intros Hc. unfold operator. rewrite bind_run.
    destruct (all_tasks_spec ∅ W) as (existing & -> & _).
    rewrite bind_run.
    destruct (spawn_tasks_conflict a
                (set_log (log W ++ [(now W, EvAllTasks (elements existing))]) W) Hc)
      as (msg & W' & -> & HW').
    exists msg, W', (elements existing).
    destruct HW' as [-> | ->].
    + exists []. split_and!; try done. by left.
    + eexists. split_and!; try done; [|by right]. simpl. by rewrite <-app_assoc.
Qed.

Lemma run_swallows_cancellation_only_witness :
  ∃ msg W' found l,
    run both_scopes_args sample_world = (Raise (Error (TypeError msg)), W') ∧
    scripts W' = scripts sample_world ∧ cancelled W' = cancelled sample_world ∧
    live_root W' = live_root sample_world ∧ live_system W' = live_system sample_world ∧
    log W' = log sample_world ++ (now sample_world, EvAllTasks found) :: l ∧
    (l = [] ∨ l = [(now sample_world, deprecated_warning)]).
Proof.
  apply (proj2 (proj2 (proj2 (run_swallows_cancellation_only both_scopes_args sample_world)))).
  right. split; [reflexivity|]. left. reflexivity.
Defined.

(** * What [run_tasks] and the activity runner leave alone *)

(** Nothing but the clock, the cancellations and the log has changed. *)
Definition kept (W W' : World) : Prop :=
  env W' = env W ∧ scripts W' = scripts W ∧ timers W' = timers W ∧
  handlers W' = handlers W ∧ started W' = started W ∧
  settings_var W' = settings_var W ∧
  live_root W' = live_root W ∧ live_system W' = live_system W.

(** And no task has been cancelled either, nor a cancellation consumed
    unnoticed: only the clock and the log have changed, and the started
    flag may have been set. *)
Definition hands_off (W W' : World) : Prop :=
  env W' = env W ∧ scripts W' = scripts W ∧ timers W' = timers W ∧
  handlers W' = handlers W ∧ cancelled W' = cancelled W ∧
  settings_var W' = settings_var W ∧
  live_root W' = live_root W ∧ live_system W' = live_system W.

#[global] Instance kept_refl : Reflexive kept.
Proof. by intros W. Qed.

#[global] Instance kept_trans : Transitive kept.
Proof.
  intros W1 W2 W3 (? & ? & ? & ? & ? & ? & ? & ?) (? & ? & ? & ? & ? & ? & ? & ?).
  split_and!; congruence.
Qed.

#[global] Instance hands_off_refl : Reflexive hands_off.
Proof. by intros W. Qed.

#[global] Instance hands_off_trans : Transitive hands_off.
Proof.
  intros W1 W2 W3 (? & ? & ? & ? & ? & ? & ? & ?) (? & ? & ? & ? & ? & ? & ? & ?).
  split_and!; congruence.
Qed.

Lemma emit_kept (ev : event) : respects kept (emit ev).
Proof. by intros W. Qed.

Lemma suspend_kept (wake : option nat) : respects kept (suspend wake).
Proof.
  intros W. unfold suspend.
  destruct (cancels W) as [|c cs], wake as [w|]; try case_bool_decide; done.
Qed.

Lemma wait_kept (ts : list nat) (timeout : option nat) (rw : return_when) :
  respects kept (wait ts timeout rw).
Proof.
  unfold wait. destruct (decide (ts = [])); [apply (respects_ret kept)|].
  apply (respects_bind kept); [apply emit_kept|intros _].
  apply (respects_bind kept); [apply (respects_get_world kept)|intros W1].
  apply (respects_bind kept); [apply suspend_kept|intros _].
  apply (respects_bind kept); [apply (respects_get_world kept)|intros W2].
  apply (respects_ret kept).
Qed.

Lemma cancel_task_kept (title : string) (t : nat) : respects kept (cancel_task title t).
Proof.
  intros W. unfold cancel_task.
  by destruct (is_done W t || bool_decide (is_Some (cancelled W !! t))).
Qed.

Lemma cancel_all_kept (title : string) (ts : list nat) : respects kept (cancel_all title ts).
Proof.
  induction ts as [|t ts IH]; [apply (respects_ret kept)|].
  simpl. apply (respects_bind kept); [apply cancel_task_kept|by intros _].
Qed.

Lemma stop_kept (ts : list nat) (title : string) (c : bool) (i : option nat) :
  respects kept (stop ts title c i).
Proof.
  unfold stop.
  apply (respects_bind kept); [apply emit_kept|intros _].
  apply (respects_bind kept); [apply cancel_all_kept|intros _].
  apply (respects_bind kept).
  { unfold await_all. destruct (decide (ts = [])); [apply (respects_ret kept)|].
    apply (respects_bind kept); [apply (respects_get_world kept)|intros W1].
    apply suspend_kept. }
  intros _.
  apply (respects_bind kept); [apply emit_kept|intros _].
  apply (respects_ret kept).
Qed.

Lemma all_tasks_kept (ignored : gset nat) : respects kept (all_tasks ignored).
Proof. by intros W. Qed.

Lemma reraise_kept (ts : gset nat) : respects kept (reraise ts).
Proof. by intros W. Qed.

Lemma run_tasks_kept (system_tasks root_tasks : list nat) (ignored : gset nat) :
  respects kept (run_tasks system_tasks root_tasks ignored).
Proof.
  unfold run_tasks.
  repeat match goal with
  | |- respects _ (try_except_cancelled _ _) => apply (respects_try kept)
  | |- respects _ (wait _ _ _) => apply wait_kept
  | |- respects _ (stop _ _ _ _) => apply stop_kept
  | |- respects _ (all_tasks _) => apply all_tasks_kept
  | |- respects _ (reraise _) => apply reraise_kept
  | |- respects _ (raise _) => apply (respects_raise kept)
  | |- respects _ (_ ≫= _) => apply (respects_bind kept); [|intros ?]
  | |- respects _ (let '(_, _) := ?p in _) => destruct p
  end.
Qed.

Lemma emit_hands_off (ev : event) : respects hands_off (emit ev).
Proof. by intros W. Qed.

Lemma suspend_hands_off (wake : option nat) : respects hands_off (suspend wake).
Proof.
  intros W. unfold suspend.
  destruct (cancels W) as [|c cs], wake as [w|]; try case_bool_decide; done.
Qed.

Lemma wait_hands_off (ts : list nat) (timeout : option nat) (rw : return_when) :
  respects hands_off (wait ts timeout rw).
Proof.
  unfold wait. destruct (decide (ts = [])); [apply (respects_ret hands_off)|].
  apply (respects_bind hands_off); [apply emit_hands_off|intros _].
  apply (respects_bind hands_off); [apply (respects_get_world hands_off)|intros W1].
  apply (respects_bind hands_off); [apply suspend_hands_off|intros _].
  apply (respects_bind hands_off); [apply (respects_get_world hands_off)|intros W2].
  apply (respects_ret hands_off).
Qed.

Lemma run_activity_hands_off (a : Activity) : respects hands_off (run_activity a).
Proof.
  unfold run_activity.
  apply (respects_bind hands_off); [apply emit_hands_off|intros _].
  apply (respects_bind hands_off); [apply (respects_get_world hands_off)|intros W1].
  apply (respects_bind hands_off); [apply suspend_hands_off|intros _].
  destruct ((activities (env W1) a).2);
    [apply (respects_raise hands_off)|apply emit_hands_off].
Qed.

Lemma vault_close_hands_off : respects hands_off vault_close_.
Proof.
  unfold vault_close_.
  apply (respects_bind hands_off); [apply (respects_get_world hands_off)|intros W1].
  apply (respects_bind hands_off); [apply suspend_hands_off|intros _].
  apply emit_hands_off.
Qed.

Lemma started_flag_set_hands_off : respects hands_off started_flag_set.
Proof. by intros W. Qed.

Lemma raise_flag_hands_off (flag : option Flag) : respects hands_off (raise_flag flag).
Proof. destruct flag; [apply emit_hands_off|apply (respects_ret hands_off)]. Qed.

Lemma current_task_hands_off : respects hands_off current_task.
Proof. by intros W. Qed.

Lemma runner_hands_off (ready_flag : option Flag) :
  respects hands_off (_startup_cleanup_activities ready_flag).
Proof.
  unfold _startup_cleanup_activities.
  repeat match goal with
  | |- respects _ (try_except_cancelled _ _) => apply (respects_try hands_off)
  | |- respects _ (emit _) => apply emit_hands_off
  | |- respects _ (run_activity _) => apply run_activity_hands_off
  | |- respects _ started_flag_set => apply started_flag_set_hands_off
  | |- respects _ (raise_flag _) => apply raise_flag_hands_off
  | |- respects _ (suspend _) => apply suspend_hands_off
  | |- respects _ (wait _ _ _) => apply wait_hands_off
  | |- respects _ vault_close_ => apply vault_close_hands_off
  | |- respects _ current_task => apply current_task_hands_off
  | |- respects _ get_world => apply (respects_get_world hands_off)
  | |- respects _ (mret _) => apply (respects_ret hands_off)
  | |- respects _ (raise _) => apply (respects_raise hands_off)
  | |- respects _ (_ ≫= _) => apply (respects_bind hands_off); [|intros ?]
  end.
Qed.

(** X10: whatever its run, [run_tasks] changes nothing but the clock, the
    cancellations and the log: it creates no task and removes none, arms no
    timer, so that the process is killed after it exactly when it would have
    been killed anyway, registers no signal handler, and leaves the started
    flag, the published settings and the two task lists as they are. *)
Theorem run_tasks_footprint (system_tasks root_tasks : list nat) (ignored : gset nat)
    (W : World) :
  let W' := (run_tasks system_tasks root_tasks ignored W).2 in
  scripts W' = scripts W ∧ timers W' = timers W ∧
  (∀ T, killed_at W' T = killed_at W T) ∧
  handlers W' = handlers W ∧ started W' = started W ∧
  settings_var W' = settings_var W ∧
  live_root W' = live_root W ∧ live_system W' = live_system W.
Proof.
  destruct (run_tasks_kept system_tasks root_tasks ignored W)
    as (He & Hs & Ht & Hh & Hst & Hsv & Hlr & Hls).
  simpl. split_and!; try done. intros T. unfold killed_at. by rewrite Ht.
Qed.

(** X11: whatever its run, [_startup_cleanup_activities] cancels no task:
    it only waits for the others; it creates no task either, arms no timer
    and registers no signal handler, and leaves the settings and the task
    lists as they are. *)
Theorem runner_cancels_nothing (ready_flag : option Flag) (W : World) :
  let W' := (_startup_cleanup_activities ready_flag W).2 in
  cancelled W' = cancelled W ∧ scripts W' = scripts W ∧ timers W' = timers W ∧
  handlers W' = handlers W ∧ settings_var W' = settings_var W ∧
  live_root W' = live_root W ∧ live_system W' = live_system W.
Proof.
  destruct (runner_hands_off ready_flag W) as (He & Hs & Ht & Hh & Hc & Hsv & Hlr & Hls).
  simpl. by split_and!.
Qed.

(** * Only its own cancellation makes a coroutine raise [CancelledError] *)

(** With no cancellation pending, [m] does not raise [CancelledError], and
    none is pending after it. *)
Definition uncancelled {A} (m : Coro A) : Prop :=
  ∀ W, cancels W = [] → (m W).1 ≠ Raise CancelledError ∧ cancels (m W).2 = [].

Lemma uncancelled_bind {A B} (m : Coro A) (f : A → Coro B) :
  uncancelled m → (∀ a, uncancelled (f a)) → uncancelled (m ≫= f).
Proof.
  intros Hm Hf W HW. rewrite bind_run. destruct (Hm W HW) as [Hr Hc].
  destruct (m W) as [[a|e|] W1]; simpl in *; [by apply Hf| |done].
  split; [|done]. by intros [= ->].
Qed.

Lemma uncancelled_try {A} (body handler : Coro A) :
  uncancelled body → uncancelled (try_except_cancelled body handler).
Proof.
  intros Hb W HW. rewrite try_run. destruct (Hb W HW) as [Hr Hc].
  by destruct (body W) as [[a|[|e]|] W1].
Qed.

Lemma uncancelled_total {A} (m : Coro A) :
  (∀ W, (m W).1 ≠ Raise CancelledError ∧ cancels (m W).2 = cancels W) → uncancelled m.
Proof. intros H W HW. destruct (H W) as [? Hc]. split; [done|congruence]. Qed.

Lemma uncancelled_ret {A} (a : A) : uncancelled (mret a : Coro A).
Proof. by apply uncancelled_total. Qed.

Lemma emit_uncancelled (ev : event) : uncancelled (emit ev).
Proof. by apply uncancelled_total. Qed.

Lemma get_world_uncancelled : uncancelled get_world.
Proof. by apply uncancelled_total. Qed.

Lemma suspend_uncancelled (wake : option nat) : uncancelled (suspend wake).
Proof. intros W HW. unfold suspend. rewrite HW. by destruct wake. Qed.

Lemma wait_uncancelled (ts : list nat) (timeout : option nat) (rw : return_when) :
  uncancelled (wait ts timeout rw).
Proof.
  unfold wait. destruct (decide (ts = [])); [apply uncancelled_ret|].
  apply uncancelled_bind; [apply emit_uncancelled|intros _].
  apply uncancelled_bind; [apply get_world_uncancelled|intros W1].
  apply uncancelled_bind; [apply suspend_uncancelled|intros _].
  apply uncancelled_bind; [apply get_world_uncancelled|intros W2].
  apply uncancelled_ret.
Qed.

Lemma cancel_all_uncancelled (title : string) (ts : list nat) :
  uncancelled (cancel_all title ts).
Proof.
  induction ts as [|t ts IH]; [apply uncancelled_ret|].
  simpl. apply uncancelled_bind; [|by intros _].
  apply uncancelled_total. intros W. unfold cancel_task.
  by destruct (is_done W t || bool_decide (is_Some (cancelled W !! t))).
Qed.

Lemma stop_uncancelled (ts : list nat) (title : string) (c : bool) (i : option nat) :
  uncancelled (stop ts title c i).
Proof.
  unfold stop.
  apply uncancelled_bind; [apply emit_uncancelled|intros _].
  apply uncancelled_bind; [apply cancel_all_uncancelled|intros _].
  apply uncancelled_bind.
  { unfold await_all. destruct (decide (ts = [])); [apply uncancelled_ret|].
    apply uncancelled_bind; [apply get_world_uncancelled|intros W1].
    apply suspend_uncancelled. }
  intros _.
  apply uncancelled_bind; [apply emit_uncancelled|intros _].
  apply uncancelled_ret.
Qed.

Lemma reraise_list_uncancelled (W : World) (ts : list nat) :
  reraise_list W ts ≠ Raise CancelledError.
Proof.
  induction ts as [|t ts IH]; [done|]. simpl.
  by destruct (result_of W t) as [[| |]|].
Qed.

Lemma reraise_uncancelled (ts : gset nat) : uncancelled (reraise ts).
Proof.
  apply uncancelled_total. intros W. split; [|done]. apply reraise_list_uncancelled.
Qed.

Lemma all_tasks_uncancelled (ignored : gset nat) : uncancelled (all_tasks ignored).
Proof. by apply uncancelled_total. Qed.

Lemma run_tasks_uncancelled (system_tasks root_tasks : list nat) (ignored : gset nat) :
  uncancelled (run_tasks system_tasks root_tasks ignored).
Proof.
  unfold run_tasks.
  repeat match goal with
  | |- uncancelled (try_except_cancelled _ _) => apply uncancelled_try
  | |- uncancelled (wait _ _ _) => apply wait_uncancelled
  | |- uncancelled (stop _ _ _ _) => apply stop_uncancelled
  | |- uncancelled (all_tasks _) => apply all_tasks_uncancelled
  | |- uncancelled (reraise _) => apply reraise_uncancelled
  | |- uncancelled (_ ≫= _) => apply uncancelled_bind; [|intros ?]
  | |- uncancelled (let '(_, _) := ?p in _) => destruct p
  end.
Qed.

Lemma raise_error_uncancelled {A} (e : error) : uncancelled (raise (Error e) : Coro A).
Proof. by apply uncancelled_total. Qed.

Lemma run_activity_keeps_running (a : Activity) : uncancelled (run_activity a).
Proof.
  unfold run_activity.
  apply uncancelled_bind; [apply emit_uncancelled|intros _].
  apply uncancelled_bind; [apply get_world_uncancelled|intros W1].
  apply uncancelled_bind; [apply suspend_uncancelled|intros _].
  destruct ((activities (env W1) a).2);
    [apply raise_error_uncancelled|apply emit_uncancelled].
Qed.

Lemma vault_close_uncancelled : uncancelled vault_close_.
Proof.
  unfold vault_close_.
  apply uncancelled_bind; [apply get_world_uncancelled|intros W1].
  apply uncancelled_bind; [apply suspend_uncancelled|intros _].
  apply emit_uncancelled.
Qed.

Lemma runner_uncancelled (ready_flag : option Flag) :
  uncancelled (_startup_cleanup_activities ready_flag).
Proof.
  unfold _startup_cleanup_activities.
  repeat match goal with
  | |- uncancelled (try_except_cancelled _ _) => apply uncancelled_try
  | |- uncancelled (emit _) => apply emit_uncancelled
  | |- uncancelled (run_activity _) => apply run_activity_keeps_running
  | |- uncancelled started_flag_set => by apply uncancelled_total
  | |- uncancelled (raise_flag ?f) =>
      destruct f; [apply emit_uncancelled|apply uncancelled_ret]
  | |- uncancelled (suspend _) => apply suspend_uncancelled
  | |- uncancelled (wait _ _ _) => apply wait_uncancelled
  | |- uncancelled vault_close_ => apply vault_close_uncancelled
  | |- uncancelled current_task => by apply uncancelled_total
  | |- uncancelled get_world => apply get_world_uncancelled
  | |- uncancelled (mret _) => apply uncancelled_ret
  | |- uncancelled (_ ≫= _) => apply uncancelled_bind; [|intros ?]
  end.
Qed.

Lemma spawn_all_uncancelled (a : SpawnArgs) : uncancelled (spawn_all a).
Proof.
  intros W HW. destruct (spawn_all_steady a W HW) as (x & W' & -> & Hc). by split.
Qed.

Lemma spawn_tasks_uncancelled (a : SpawnArgs) : uncancelled (spawn_tasks a).
Proof.
  intros W HW.
  destruct (spawn_tasks_cases a W)
    as [(msg & W' & -> & [->| ->] & _)|(W1 & l & cw & -> & _ & _ & _ & _ & Hcs & _)];
    [by split..|].
  apply spawn_all_uncancelled. congruence.
Qed.

Lemma operator_uncancelled (a : SpawnArgs) : uncancelled (operator a).
Proof.
  unfold operator.
  apply uncancelled_bind; [apply all_tasks_uncancelled|intros existing].
  apply uncancelled_bind; [apply spawn_tasks_uncancelled|intros [st rt]].
  apply run_tasks_uncancelled.
Qed.

(** X12: only its own cancellation makes a coroutine of the module raise
    [CancelledError]: in a run in which it is not cancelled itself, neither
    [run_tasks], nor [_startup_cleanup_activities], nor [spawn_tasks], nor
    [operator] raises it, whatever the tasks do, whether they fail, are
    cancelled or never end; a cancelled task is never turned into a
    cancellation of the one that waits for it. *)
Theorem only_outer_cancellation (W : World) :
  cancels W = [] →
  (∀ system_tasks root_tasks ignored,
     (run_tasks system_tasks root_tasks ignored W).1 ≠ Raise CancelledError) ∧
  (∀ ready_flag, (_startup_cleanup_activities ready_flag W).1 ≠ Raise CancelledError) ∧
  (∀ a, (spawn_tasks a W).1 ≠ Raise CancelledError) ∧
  (∀ a, (operator a W).1 ≠ Raise CancelledError).
Proof.
  intros HW. split_and!.
  - intros st rt ignored. by apply run_tasks_uncancelled.
  - intros ready_flag. by apply runner_uncancelled.
  - intros a. by apply spawn_tasks_uncancelled.
  - intros a. by apply operator_uncancelled.
Qed.

Lemma only_outer_cancellation_witness :
  (run_tasks [1] [2; 3] ∅ sample_world).1 ≠ Raise CancelledError.
Proof.
  exact (proj1 (only_outer_cancellation sample_world eq_refl) [1] [2; 3] ∅).
Defined.

(** * [_stop_flag_checker]: the stop-flag *)

Lemma await_flags_run (flags : list awaitable) (W : World) (w : nat) :
  flags ≠ [] → cancels W = [] → first_completion W flags = Some w →
  await_flags flags W =
    let W2 := set_now (now W `max` w) W in
    match omap (λ a, match completion W2 a with
                     | Some (T, r) => if bool_decide (T ≤ now W2) then Some r else None
                     | None => None
                     end) flags with
    | Ok result :: _ =>
        (Ok tt, set_log (log W2 ++ [(now W2, EvInfo (info_message result))]) W2)
    | Raise CancelledError :: _ => (Ok tt, W2)
    | Raise e :: _ => (Raise e, W2)
    | Hang :: _ | [] => (Hang, W2)
    end.
Proof.
  intros Hne Hcs Hw. unfold await_flags, try_except_cancelled_else, wait_first_flag.
  destruct (decide (flags = [])) as [?|_]; [done|].
  rewrite bind_run. unfold get_world at 1. cbv beta iota.
  rewrite bind_run, Hw, suspend_ok by done.
  rewrite bind_run. unfold get_world at 1. cbv beta iota zeta.
  destruct (omap _ flags) as [|[result|[|e]|] rest]; try done.
  by destruct result.
Qed.

Lemma waiter_finish (W : World) (flag : Flag) (name : string) (T : nat) :
  cancelled W !! fresh (dom (scripts W)) = None →
  finish (set_now T
            (set_scripts (<[fresh (dom (scripts W)) :=
                              mkScript name (now W) false false (wait_flag flag)]> (scripts W))
               (set_log (log W ++ [(now W, EvCreateTask name (fresh (dom (scripts W))))]) W)))
    (fresh (dom (scripts W))) =
  (λ s, (s, Returned)) <$> f_set_at flag.
Proof.
  intros Hc. unfold finish. simpl. rewrite lookup_insert_eq. simpl.
  unfold task_finish. by rewrite Hc.
Qed.

(** X13: with the stop-flag alone to wait for, no cancellation pending and
    the waiter task not cancelled by anybody, [_stop_flag_checker] creates the
    waiter and returns when the flag is set, with one message: that the
    stop-flag is set to [True], for an event; that the stop-flag is raised,
    for a future resolved with [None]; that the signal is received, for a
    future resolved with a signal; and else that the stop-flag is set to the
    [repr] of the result, a string in its quotes.  If the flag is never set,
    it waits for ever, with the waiter created. *)
Theorem stop_flag_checker_on_flag (flag : Flag) (W : World) :
  cancels W = [] →
  cancelled W !! fresh (dom (scripts W)) = None →
  let waiter := fresh (dom (scripts W)) in
  match f_set_at flag with
  | Some s =>
      ∃ W', _stop_flag_checker None (Some flag) W = (Ok tt, W') ∧
            now W' = now W `max` s ∧
            log W' = log W ++
              [(now W, EvCreateTask "stop-flag waiter" waiter);
               (now W `max` s,
                EvInfo match f_value flag with
                       | None => "Stop-flag is set to True. Operator is stopping."
                       | Some RNone => "Stop-flag is raised. Operator is stopping."
                       | Some (RSignal sig) =>
                           "Signal " +:+ signal_name sig +:+ " is received. Operator is stopping."
                       | Some (RBool true) => "Stop-flag is set to True. Operator is stopping."
                       | Some (RBool false) => "Stop-flag is set to False. Operator is stopping."
                       | Some (RStr v) =>
                           "Stop-flag is set to " +:+ repr_str v +:+ ". Operator is stopping."
                       end)]
  | None =>
      ∃ W', _stop_flag_checker None (Some flag) W = (Hang, W') ∧
            log W' = log W ++ [(now W, EvCreateTask "stop-flag waiter" waiter)]
  end.
Proof.
  intros Hcs Hc waiter.
  set (W1 := set_scripts
               (<[waiter := mkScript "stop-flag waiter" (now W) false false (wait_flag flag)]>
                  (scripts W))
               (set_log (log W ++ [(now W, EvCreateTask "stop-flag waiter" waiter)]) W)).
  assert (Hrun : _stop_flag_checker None (Some flag) W =
                   await_flags [Waiter waiter (awaited flag)] W1) by reflexivity.
  rewrite Hrun. clear Hrun.
  assert (Hfin : ∀ T, finish (set_now T W1) waiter = (λ s, (s, Returned)) <$> f_set_at flag).
  { intros T. by apply waiter_finish. }
  assert (Hfin1 : finish W1 waiter = (λ s, (s, Returned)) <$> f_set_at flag).
  { unfold finish, W1, waiter. simpl. rewrite lookup_insert_eq. simpl.
    unfold task_finish. by rewrite Hc. }
  destruct (f_set_at flag) as [s|] eqn:Hs.
  - rewrite (await_flags_run _ W1 s); [|done|done|].
    2:{ simpl. by rewrite Hfin1. }
    cbv zeta. simpl omap. rewrite Hfin. simpl.
    rewrite bool_decide_eq_true_2 by lia.
    eexists. split; [reflexivity|]. split; [done|].
    simpl. rewrite <-app_assoc. simpl. unfold awaited.
    by destruct (f_value flag) as [[| |[]|]|].
  - unfold await_flags, try_except_cancelled_else, wait_first_flag.
    destruct (decide ([Waiter waiter (awaited flag)] = [])) as [?|_]; [done|].
    rewrite bind_run. unfold get_world at 1. cbv beta iota.
    rewrite bind_run. simpl first_completion. rewrite Hfin1. simpl.
    unfold suspend. simpl. rewrite Hcs. by eexists.
Qed.

Lemma stop_flag_checker_on_flag_witness :
  (∃ W', _stop_flag_checker None (Some (mkFlag (Some 3) (Some (RStr "bye")))) flagged_world
           = (Ok tt, W') ∧
         now W' = 3 ∧
         log W' = [(0, EvCreateTask "stop-flag waiter" (fresh (dom (scripts flagged_world))));
                   (3, EvInfo "Stop-flag is set to 'bye'. Operator is stopping.")]) ∧
  (∃ W', _stop_flag_checker None (Some (mkFlag (Some 3) None)) flagged_world
           = (Ok tt, W') ∧
         now W' = 3 ∧
         log W' = [(0, EvCreateTask "stop-flag waiter" (fresh (dom (scripts flagged_world))));
                   (3, EvInfo "Stop-flag is set to True. Operator is stopping.")]).
Proof.
  split.
  - exact (stop_flag_checker_on_flag (mkFlag (Some 3) (Some (RStr "bye"))) flagged_world
             eq_refl eq_refl).
  - exact (stop_flag_checker_on_flag (mkFlag (Some 3) None) flagged_world
             eq_refl eq_refl).
Defined.

(** * [spawn_tasks]: the roster *)

(** The names of the tasks created in a stretch of the log, in order. *)
Definition creations (l : list (nat * event)) : list string :=
  omap (λ x, match x.2 with
             | EvCreateTask name _ => Some name
             | _ => None
             end) l.

(** With no cancellation pending, [m] returns, having created the tasks
    named [names], in this order, and put [k] of them on the list of the
    system tasks and [n] on the list of the root tasks. *)
Definition creates (names : list string) (k n : nat) {A} (m : Coro A) : Prop :=
  ∀ W, cancels W = [] →
       ∃ a W' l, m W = (Ok a, W') ∧ cancels W' = [] ∧
                 log W' = log W ++ l ∧ creations l = names ∧
                 length (live_system W') = length (live_system W) + k ∧
                 length (live_root W') = length (live_root W) + n.

(** The tasks of an operator: five system tasks, then the root tasks. *)
Definition roster (a : SpawnArgs) : list string :=
  ["stop-flag checker"; "ultimate termination"; "startup/cleanup activities";
   "daemon killer"; "credentials retriever";
   "poster of events"] ++
  (if truthy (a_liveness_endpoint a) then ["health reporter"] else []) ++
  ["admission insights chain";
   "admission validating configuration manager";
   "admission mutating configuration manager";
   "admission webhook server";
   "resource observer"; "namespace observer";
   match a_command a with
   | Some _ => "the command"
   | None => "multidimensional multitasker"
   end].

Lemma creations_app (l1 l2 : list (nat * event)) :
  creations (l1 ++ l2) = creations l1 ++ creations l2.
Proof. apply omap_app. Qed.

Lemma creates_bind (names1 names2 : list string) (k1 k2 n1 n2 : nat) {A B}
    (m : Coro A) (f : A → Coro B) :
  creates names1 k1 n1 m → (∀ a, creates names2 k2 n2 (f a)) →
  creates (names1 ++ names2) (k1 + k2) (n1 + n2) (m ≫= f).
Proof.
  intros Hm Hf W HW. rewrite bind_run.
  destruct (Hm W HW) as (a & W1 & l1 & -> & Hc1 & Hl1 & Hn1 & Hs1 & Hr1).
  destruct (Hf a W1 Hc1) as (b & W2 & l2 & -> & Hc2 & Hl2 & Hn2 & Hs2 & Hr2).
  exists b, W2, (l1 ++ l2). split_and!; [done..| | |lia|lia].
  - by rewrite Hl2, Hl1, app_assoc.
  - by rewrite creations_app, Hn1, Hn2.
Qed.

Lemma creates_nothing {A} (m : Coro A) :
  (∀ W, cancels W = [] →
        ∃ a W', m W = (Ok a, W') ∧ cancels W' = [] ∧
                live_system W' = live_system W ∧ live_root W' = live_root W ∧
                (log W' = log W ∨ ∃ T msg, log W' = log W ++ [(T, EvWarn msg)])) →
  creates [] 0 0 m.
Proof.
  intros H W HW.
  destruct (H W HW) as (a & W' & -> & Hc & Hs & Hr & [Hl|(T & msg & Hl)]).
  - exists a, W', []. rewrite app_nil_r, Hs, Hr. split_and!; [done..|lia|lia].
  - exists a, W', [(T, EvWarn msg)]. rewrite Hs, Hr. split_and!; [done..|lia|lia].
Qed.

Lemma spawn_system_creates (name : string) (guarded finishable : bool) :
  creates [name] 1 0 (spawn_named name guarded finishable ≫= append_system).
Proof.
  intros W HW. eexists _, _, [_]. split_and!; [reflexivity|done..| |]; simpl.
  - by rewrite length_app.
  - lia.
Qed.

Lemma spawn_root_creates (name : string) (guarded finishable : bool) :
  creates [name] 0 1 (spawn_named name guarded finishable ≫= append_root).
Proof.
  intros W HW. eexists _, _, [_]. split_and!; [reflexivity|done..| |]; simpl.
  - lia.
  - by rewrite length_app.
Qed.

Lemma create_root_creates (name : string) (guarded finishable : bool) (b : Behaviour) :
  creates [name] 0 1 (create_task name guarded finishable b ≫= append_root).
Proof.
  intros W HW. eexists _, _, [_]. split_and!; [reflexivity|done..| |]; simpl.
  - lia.
  - by rewrite length_app.
Qed.

Lemma spawn_tail_creates :
  creates [] 0 0 ((W ← get_world; suspend (Some (now W)));;
                  register_handlers;;
                  W ← get_world; mret (live_system W, live_root W)).
Proof.
  apply creates_nothing.
  intros [[th sf mt us ds wl ac vc sg vn] n sc ca cs st tm h ls lr sv l] HW.
  simpl in HW. subst cs.
  destruct mt, us; eexists _, _; (split; [reflexivity|]); simpl;
    split_and!; try done; by eauto.
Qed.

Lemma creates_ret {A} (a : A) : creates [] 0 0 (mret a : Coro A).
Proof.
  intros W HW. exists a, W, []. rewrite app_nil_r. split_and!; [done..|lia|lia].
Qed.

(** How many of the tasks of the roster are root tasks. *)
Definition root_count (a : SpawnArgs) : nat :=
  if truthy (a_liveness_endpoint a) then 9 else 8.

Lemma spawn_all_creates (a : SpawnArgs) :
  creates (roster a) 5 (root_count a) (spawn_all a).
Proof.
  unfold spawn_all, roster, root_count.
  destruct (truthy (a_liveness_endpoint a)), (a_command a); simpl app;
    repeat match goal with
    | |- creates _ _ _ ((get_world ≫= _) ≫= _) => apply spawn_tail_creates
    | |- creates _ _ _ (spawn_named _ _ _ ≫= append_system) => apply spawn_system_creates
    | |- creates _ _ _ (spawn_named _ _ _ ≫= append_root) => apply spawn_root_creates
    | |- creates _ _ _ (create_task _ _ _ _ ≫= append_root) => apply create_root_creates
    | |- creates ?ns ?k ?n (mret ?x ≫= ?f) =>
        apply (creates_bind [] ns 0 k 0 n (mret x) f); [apply creates_ret|intros ?]
    | |- creates (?name :: ?ns) (S ?k) ?n
           ((spawn_named _ _ _ ≫= append_system) ≫= ?f) =>
        apply (creates_bind [name] ns 1 k 0 n _ f); [|intros ?]
    | |- creates (?name :: ?ns) ?k (S ?n) (?m ≫= ?f) =>
        apply (creates_bind [name] ns 0 k 1 n m f); [|intros ?]
    end.
Qed.

(** X14: with no cancellation pending and arguments that do not name two
    scopes at once, [spawn_tasks] returns five system tasks and eight root
    tasks, or nine with a liveness endpoint, and has created the tasks of
    the roster in its order, and no other: the health reporter only with a
    liveness endpoint, and the command, when one is given, in the place of
    the multitasker. *)
Theorem spawn_tasks_roster (a : SpawnArgs) (W : World) :
  cancels W = [] → ¬ conflicting a →
  ∃ system_tasks root_tasks W' l,
    spawn_tasks a W = (Ok (system_tasks, root_tasks), W') ∧
    log W' = log W ++ l ∧ creations l = roster a ∧
    length system_tasks = 5 ∧ length root_tasks = root_count a.
Proof.
  intros HW Hnc.
  destruct (spawn_tasks_cases a W)
    as [(msg & Wx & _ & _ & Hc)|(W1 & l & cw & Heq & _ & _ & _ & _ & Hcs & _ & _ & Hls & Hlr
                                 & _ & Hl & _ & _ & Hl')];
    [done|].
  rewrite Heq. clear Heq.
  destruct (spawn_all_creates a W1) as ([st rt] & W' & l2 & Hrun & _ & Hl2 & Hn2 & Hk & Hn);
    [congruence|].
  destruct (spawn_all_returns_lists a W1 st rt W' Hrun) as [-> ->].
  rewrite Hrun. clear Hrun.
  exists (live_system W'), (live_root W'), W', (l ++ l2).
  split; [reflexivity|]. split; [by rewrite Hl2, Hl, app_assoc|].
  split.
  - rewrite creations_app, Hn2. subst l. rewrite creations_app.
    by destruct (truthy (a_namespace a)), (cw && negb (a_clusterwide a)).
  - rewrite Hk, Hn, Hls, Hlr. done.
Qed.

Definition probed_args : SpawnArgs :=
  mkArgs None None None None (Some "http://0.0.0.0:8080/healthz") true [] None None None
    (Some quiet).

Lemma spawn_tasks_roster_witness :
  ∃ system_tasks root_tasks W' l,
    spawn_tasks probed_args sample_world = (Ok (system_tasks, root_tasks), W') ∧
    log W' = log sample_world ++ l ∧
    creations l =
      ["stop-flag checker"; "ultimate termination"; "startup/cleanup activities";
       "daemon killer"; "credentials retriever"; "poster of events"; "health reporter";
       "admission insights chain"; "admission validating configuration manager";
       "admission mutating configuration manager"; "admission webhook server";
       "resource observer"; "namespace observer"; "the command"] ∧
    length system_tasks = 5 ∧ length root_tasks = 9.
Proof.
  apply (spawn_tasks_roster probed_args sample_world).
  - reflexivity.
  - intros [[H _]|[_ [H|H]]]; vm_compute in H; discriminate.
Defined.
